(** * grok2api: batch task engine, gRPC-Web codec and batch services

    A shallow embedding of [src/batch.ts] (BatchTask, the task
    registry, runBatch, createBatchEventStream), of the
    [GrpcWebClient] class of [src/services/refresh.ts] and of the
    services built on them ([src/services/nsfw.ts],
    [src/services/refresh.ts]), with the properties of the
    specification and further properties of the code stated and proved
    over it. *)

From stdpp Require Import gmap strings pretty list fin_maps.
From Stdlib Require Import ZArith Lia Ascii.

Local Open Scope Z_scope.

(** ** JavaScript 32-bit integer operators

    The bitwise operators of JavaScript first convert their operands to
    32-bit integers; the wrap-around is written out over [Z]. *)
Module JS.

Definition toUint32 (x : Z) : Z := x mod 2 ^ 32.

Definition toInt32 (x : Z) : Z :=
  let m := x mod 2 ^ 32 in
  if m <? 2 ^ 31 then m else m - 2 ^ 32.

(** [x >> n] *)
Definition shr (x n : Z) : Z := Z.shiftr (toInt32 x) (n mod 32).

(** [x << n] *)
Definition shl (x n : Z) : Z := toInt32 (Z.shiftl (toInt32 x) (n mod 32)).

(** [x & y] *)
Definition band (x y : Z) : Z := Z.land (toInt32 x) (toInt32 y).

(** [x | y] *)
Definition bor (x y : Z) : Z := Z.lor (toInt32 x) (toInt32 y).

(** [x >>> 0] *)
Definition ushr0 (x : Z) : Z := toUint32 x.

(** Storing a number into a [Uint8Array] slot keeps its low 8 bits. *)
Definition toUint8 (x : Z) : Z := x mod 256.

(** [new Uint8Array(n)]: [n] zero bytes. *)
Definition newUint8Array (n : Z) : list Z := replicate (Z.to_nat n) 0.

(** [frame[i] = v] on a [Uint8Array]; an index out of range is ignored,
    as stdpp's list insert does. *)
Definition store (i : nat) (v : Z) (frame : list Z) : list Z :=
  <[i := toUint8 v]> frame.

(** [frame.set(src, offset)] with [src] a [Uint8Array]: the bytes of
    [src] are copied over [frame] from [offset] on. *)
Fixpoint typedSet (frame src : list Z) (offset : nat) : list Z :=
  match src with
  | [] => frame
  | b :: src' => typedSet (<[offset := b]> frame) src' (S offset)
  end.

(** [arr.slice(i, j)] for [0 <= i <= j]. *)
Definition slice {A} (l : list A) (i j : nat) : list A :=
  take (j - i) (drop i l).

(** [arr[i]], with [undefined] read as 0 by the integer operators. *)
Definition at_ (l : list Z) (i : nat) : Z := default 0 (l !! i).

End JS.

(** ** The gRPC-Web codec: [GrpcWebClient] in src/services/refresh.ts *)
Module Grpc.
Import JS.

Record GrpcStatus := mkGrpcStatus {
  code : Z;
  message : string;
  ok : bool;
  httpEquiv : Z
}.

(** [GrpcWebClient.encodePayload] *)
Definition encodePayload (data : list Z) : list Z :=
  let length := Z.of_nat (length data) in
  let frame := newUint8Array (5 + length) in
  let frame := store 0 0 frame in
  let frame := store 1 (band (shr length 24) 255) frame in
  let frame := store 2 (band (shr length 16) 255) frame in
  let frame := store 3 (band (shr length 8) 255) frame in
  let frame := store 4 (band length 255) frame in
  typedSet frame data 5.

(** What a call does: it returns a value or throws an [Error]. *)
Inductive outcome (A : Type) : Type :=
  | Returned (a : A)
  | Threw (msg : string).
Arguments Returned {A} a.
Arguments Threw {A} msg.

(** The result object of [parseResponse]. *)
Record Parsed := mkParsed {
  messages : list (list Z);
  trailers : gmap string string
}.

(** The platform functions [parseResponse] calls. They are not part of
    the repository and are taken as given:
    [new TextDecoder().decode], [atob] followed by the [charCodeAt]
    copy into a [Uint8Array] ([None] when [atob] throws),
    [String.prototype.toLowerCase], [String.prototype.trim],
    [text.replace(/\s/g, '')] and [decodeURIComponent] ([None] when it
    throws). *)
Class Builtins := {
  TextDecoder_decode : list Z → string;
  atob_bytes : string → option (list Z);
  toLowerCase : string → string;
  trim : string → string;
  removeWhitespace : string → string;
  decodeURIComponent : string → option string
}.

(** [s.includes(sub)] *)
Fixpoint includes (sub s : string) : bool :=
  String.prefix sub s ||
  match s with
  | EmptyString => false
  | String _ s' => includes sub s'
  end.

(** [s.indexOf(":")], [None] for -1. *)
Fixpoint indexOfColon (s : string) : option nat :=
  match s with
  | EmptyString => None
  | String c s' =>
      if Ascii.eqb c ":"%char then Some 0%nat else S <$> indexOfColon s'
  end.

(** [text.split(/\r?\n/)]: [cur] holds the characters of the current
    line in reverse. *)
Fixpoint splitLinesAux (s : string) (cur : list ascii) : list string :=
  match s with
  | EmptyString => [String.string_of_list_ascii (reverse cur)]
  | String c s' =>
      if Ascii.eqb c "010"%char then
        String.string_of_list_ascii (reverse cur) :: splitLinesAux s' []
      else if Ascii.eqb c "013"%char then
        match s' with
        | String c' s'' =>
            if Ascii.eqb c' "010"%char then
              String.string_of_list_ascii (reverse cur) :: splitLinesAux s'' []
            else splitLinesAux s' (c :: cur)
        | EmptyString => splitLinesAux s' (c :: cur)
        end
      else splitLinesAux s' (c :: cur)
  end.

Definition splitLines (s : string) : list string := splitLinesAux s [].

(** A string is truthy when it is not empty. *)
Definition truthy (s : string) : bool :=
  match s with EmptyString => false | _ => true end.

Section Parse.
Context `{Builtins}.

(** One line of a trailer frame: the body of the [for (const line of
    lines)] loop. *)
Definition parseTrailerLine (trailers : gmap string string) (line : string)
    : gmap string string :=
  match indexOfColon line with
  | Some colonIdx =>
      if (0 <? colonIdx)%nat then
        let key := toLowerCase (trim (String.substring 0 colonIdx line)) in
        let raw :=
          trim (String.substring (colonIdx + 1)
                          (String.length line - (colonIdx + 1)) line) in
        let value := default raw (decodeURIComponent raw) in
        <[key := value]> trailers
      else trailers
  | None => trailers
  end.

(** The trailer branch: decode the payload, split it into lines, drop
    the blank ones, and read each [key: value] line. *)
Definition parseTrailerFrame (trailers : gmap string string)
    (payload : list Z) : gmap string string :=
  let text := TextDecoder_decode payload in
  let lines := filter (λ l, truthy (trim l) = true) (splitLines text) in
  foldl parseTrailerLine trailers lines.

(** The [while (i < n)] loop. Every iteration that continues advances
    [i] by at least 5, so [fuel] bounds the number of iterations;
    [None] is a run that used it up. *)
Fixpoint parseFrames (fuel : nat) (decoded : list Z) (i : nat)
    (msgs : list (list Z)) (trs : gmap string string)
    : option (outcome Parsed) :=
  match fuel with
  | O => None
  | S fuel' =>
      let n := length decoded in
      if decide (i < n)%nat then
        if decide (n - i < 5)%nat then Some (Returned (mkParsed msgs trs))
        else
          let flag := at_ decoded i in
          let len :=
            ushr0 (bor (bor (bor (shl (at_ decoded (i + 1)) 24)
                                 (shl (at_ decoded (i + 2)) 16))
                            (shl (at_ decoded (i + 3)) 8))
                       (at_ decoded (i + 4))) in
          let i := (i + 5)%nat in
          if decide (Z.of_nat (n - i) < len)
          then Some (Returned (mkParsed msgs trs))
          else
            let payload := slice decoded i (i + Z.to_nat len) in
            let i := (i + Z.to_nat len)%nat in
            if negb (band flag 128 =? 0) then
              parseFrames fuel' decoded i msgs (parseTrailerFrame trs payload)
            else if negb (band flag 1 =? 0) then
              Some (Threw "gRPC-Web compressed messages not supported")
            else
              parseFrames fuel' decoded i (msgs ++ [payload]) trs
      else Some (Returned (mkParsed msgs trs))
  end.

(** The header fallback after the loop; [headers] is [Headers.get]. *)
Definition mergeHeaders (headers : option (string → option string))
    (trs : gmap string string) : gmap string string :=
  match headers with
  | Some get =>
      let status := get "grpc-status" in
      let message := get "grpc-message" in
      let trs :=
        match status with
        | Some st =>
            if truthy st && negb (bool_decide (is_Some (trs !! "grpc-status")))
            then <["grpc-status" := st]> trs else trs
        | None => trs
        end in
      match message with
      | Some msg =>
          if truthy msg && negb (bool_decide (is_Some (trs !! "grpc-message")))
          then
            let decodedMessage := default msg (decodeURIComponent msg) in
            <["grpc-message" := decodedMessage]> trs
          else trs
      | None => trs
      end
  | None => trs
  end.

(** [contentType?.toLowerCase().includes("grpc-web-text")] *)
Definition isGrpcWebText (contentType : option string) : bool :=
  match contentType with
  | Some ct => includes "grpc-web-text" (toLowerCase ct)
  | None => false
  end.

(** [GrpcWebClient.parseResponse]. The base64 step throws when [atob]
    does. *)
Definition parseResponse (body : list Z) (contentType : option string)
    (headers : option (string → option string)) : option (outcome Parsed) :=
  let decoded :=
    if isGrpcWebText contentType then
      let text := TextDecoder_decode body in
      let compact := removeWhitespace text in
      atob_bytes compact
    else Some body in
  match decoded with
  | None => Some (Threw "InvalidCharacterError")
  | Some decoded =>
      match parseFrames (S (length decoded)) decoded 0 [] ∅ with
      | Some (Returned p) =>
          Some (Returned (mkParsed (messages p)
                                   (mergeHeaders headers (trailers p))))
      | r => r
      end
  end.

End Parse.

(** [parseInt(s, 10)]: leading white space, an optional sign, then the
    longest run of decimal digits; [None] is [NaN]. The value is kept
    exact (a status code is far below 2^53). *)
Definition isWhiteSpace (c : ascii) : bool :=
  let n := nat_of_ascii c in
  bool_decide (n = 9 ∨ n = 10 ∨ n = 11 ∨ n = 12 ∨ n = 13 ∨ n = 32)%nat.

Fixpoint skipWhiteSpace (s : string) : string :=
  match s with
  | String c s' => if isWhiteSpace c then skipWhiteSpace s' else s
  | EmptyString => s
  end.

Definition digitValue (c : ascii) : option Z :=
  let n := nat_of_ascii c in
  if bool_decide (48 ≤ n ≤ 57)%nat then Some (Z.of_nat n - 48) else None.

Fixpoint digitsValue (s : string) (acc : option Z) : option Z :=
  match s with
  | EmptyString => acc
  | String c s' =>
      match digitValue c with
      | Some d => digitsValue s' (Some (10 * default 0 acc + d))
      | None => acc
      end
  end.

Definition parseInt10 (s : string) : option Z :=
  match skipWhiteSpace s with
  | String "-" s' => Z.opp <$> digitsValue s' None
  | String "+" s' => digitsValue s' None
  | s' => digitsValue s' None
  end.

(** [x || d] on numbers: 0 and [NaN] are falsy. *)
Definition orElse (x : option Z) (d : Z) : Z :=
  match x with
  | Some v => if v =? 0 then d else v
  | None => d
  end.

(** The table [httpEquivMap]. *)
Definition httpEquivMap : gmap Z Z :=
  list_to_map [(0, 200); (16, 401); (7, 403); (8, 429); (4, 504); (14, 503)].

(** [GrpcWebClient.getStatus] *)
Definition getStatus (trailers : gmap string string) : GrpcStatus :=
  let codeStr := default "-1" (trailers !! "grpc-status") in
  let message := default EmptyString (trailers !! "grpc-message") in
  let code := orElse (parseInt10 codeStr) (-1) in
  {| code := code;
     message := message;
     ok := (code =? 0) || (code =? -1);
     httpEquiv := default 502 (httpEquivMap !! code) |}.

(** The 4-byte big-endian representation of a length, most significant
    byte first, and the number such a sequence of bytes stands for. *)
Definition be32 (n : Z) : list Z :=
  [(n / 2 ^ 24) mod 256; (n / 2 ^ 16) mod 256; (n / 2 ^ 8) mod 256; n mod 256].

Definition beValue (bytes : list Z) : Z :=
  foldl (λ acc b, acc * 256 + b) 0 bytes.

Definition isByte (b : Z) : Prop := 0 ≤ b < 256.

(** The table of the specification as a function of the code. *)
Definition httpEquivOf (c : Z) : Z :=
  if decide (c = 0) then 200 else if decide (c = 16) then 401
  else if decide (c = 7) then 403 else if decide (c = 8) then 429
  else if decide (c = 4) then 504 else if decide (c = 14) then 503 else 502.

(** An instance of the platform functions for closed examples: the
    identity on strings and a decoder of ASCII bytes. *)
Definition plainBuiltins : Builtins :=
  {| TextDecoder_decode := λ bytes,
       String.string_of_list_ascii (ascii_of_nat ∘ Z.to_nat <$> bytes);
     atob_bytes := λ _, None;
     toLowerCase := λ s, s;
     trim := λ s, s;
     removeWhitespace := λ s, s;
     decodeURIComponent := λ s, Some s |}.

End Grpc.

(** ** Batch tasks, the registry, the executor and the event stream:
    src/batch.ts *)
Module Batch.

Inductive Status := Running | Done | Error | Cancelled.

Abbreviation Handle := nat (only parsing).

Section Task.
(** [J] stands for the values typed [unknown] or
    [Record<string, unknown>] in the source: an item's [detail] and a
    task's [result]. *)
Context {J : Type}.

(** [BatchEvent]: one constructor per interface of the union. *)
Inductive BatchEvent :=
  | BatchProgressEvent (task_id : string) (total processed ok fail : Z)
      (item : option string) (detail : option J) (error : option string)
  | BatchDoneEvent (task_id : string) (total processed ok fail : Z)
      (warning : option string) (result : J)
  | BatchErrorEvent (task_id : string) (total processed ok fail : Z)
      (error : string)
  | BatchCancelledEvent (task_id : string) (total processed ok fail : Z).

(** [event.type === "done" || event.type === "error" ||
    event.type === "cancelled"] *)
Definition isTerminal (event : BatchEvent) : bool :=
  match event with
  | BatchProgressEvent _ _ _ _ _ _ _ _ => false
  | _ => true
  end.

(** A subscriber handle [{queue, push}] is an object shared by the task
    (which pushes) and by its consumer (which shifts). Handles are
    references into a store of queues, a handle being the index of its
    queue; [attach] allocates at the end. *)
Local Abbreviation Heap := (list (list BatchEvent)).

Record BatchTask := mkBatchTask {
  id : string;
  total : Z;
  processed : Z;
  ok : Z;
  fail : Z;
  status : Status;
  warning : option string;
  result : option J;
  error : option string;
  createdAt : Z;
  cancelled : bool;
  queues : list Handle;
  finalEvent : option BatchEvent
}.

Record BatchTaskSnapshot := mkSnapshot {
  snap_task_id : string;
  snap_status : Status;
  snap_total : Z;
  snap_processed : Z;
  snap_ok : Z;
  snap_fail : Z;
  snap_warning : option string
}.

(** [uuid.replaceAll('-', '')]: the dashes are removed. *)
Fixpoint removeDashes (s : string) : string :=
  match s with
  | EmptyString => EmptyString
  | String c s' =>
      if Ascii.eqb c "-"%char then removeDashes s'
      else String c (removeDashes s')
  end.

(** The constructor; [uuid] is what [crypto.randomUUID()] returned and
    [now] what [Date.now()] returned. *)
Definition newBatchTask (total : Z) (uuid : string) (now : Z) : BatchTask :=
  {| id := removeDashes uuid; total := total;
     processed := 0; ok := 0; fail := 0; status := Running;
     warning := None; result := None; error := None;
     createdAt := now; cancelled := false;
     queues := []; finalEvent := None |}.

Definition snapshot (t : BatchTask) : BatchTaskSnapshot :=
  {| snap_task_id := id t; snap_status := status t; snap_total := total t;
     snap_processed := processed t; snap_ok := ok t; snap_fail := fail t;
     snap_warning := warning t |}.

Definition setQueues (qs : list Handle) (t : BatchTask) : BatchTask :=
  mkBatchTask (id t) (total t) (processed t) (ok t) (fail t) (status t)
    (warning t) (result t) (error t) (createdAt t) (cancelled t)
    qs (finalEvent t).

(** [attach]: a new handle with an empty queue, appended to
    [this.queues]. *)
Definition attach (t : BatchTask) (h : Heap) : Handle * BatchTask * Heap :=
  let handle := length h in
  (handle, setQueues (queues t ++ [handle]) t, h ++ [[]]).

(** The bound [200] of [push]. *)
Definition queueCapacity : nat := 200.

(** The closure [push] of a handle: [if (queue.length < 200)]. *)
Definition push (handle : Handle) (event : BatchEvent) (h : Heap) : Heap :=
  match h !! handle with
  | Some queue =>
      if decide (length queue < queueCapacity)%nat
      then <[handle := queue ++ [event]]> h
      else h
  | None => h
  end.

(** [this.queues.indexOf(handle)], [None] for -1. *)
Fixpoint indexOf (handle : Handle) (qs : list Handle) : option nat :=
  match qs with
  | [] => None
  | x :: qs' => if decide (x = handle) then Some 0%nat
                else S <$> indexOf handle qs'
  end.

(** [detach]: [splice(idx, 1)] when the handle is found. *)
Definition detach (handle : Handle) (t : BatchTask) : BatchTask :=
  match indexOf handle (queues t) with
  | Some idx => setQueues (delete idx (queues t)) t
  | None => t
  end.

(** [publish]: [push] never throws, so the [catch] is never entered. *)
Definition publish (event : BatchEvent) (t : BatchTask) (h : Heap) : Heap :=
  foldl (λ h handle, push handle event h) h (queues t).

(** The optional argument of [record]. *)
Record RecordOpts := mkRecordOpts {
  opt_item : option string;
  opt_detail : option J;
  opt_error : option string
}.

(** [if (opts?.error)]: a defined, non-empty string. *)
Definition truthyError (e : option string) : option string :=
  match e with
  | Some EmptyString => None
  | e => e
  end.

(** [record] *)
Definition record (success : bool) (opts : option RecordOpts)
    (t : BatchTask) (h : Heap) : BatchTask * Heap :=
  let t :=
    mkBatchTask (id t) (total t) (processed t + 1)
      (if success then ok t + 1 else ok t)
      (if success then fail t else fail t + 1)
      (status t) (warning t) (result t) (error t) (createdAt t)
      (cancelled t) (queues t) (finalEvent t) in
  let event :=
    BatchProgressEvent (id t) (total t) (processed t) (ok t) (fail t)
      (opts ≫= opt_item) (opts ≫= opt_detail)
      (truthyError (opts ≫= opt_error)) in
  (t, publish event t h).

(** [finish] *)
Definition finish (res : J) (warn : option string)
    (t : BatchTask) (h : Heap) : BatchTask * Heap :=
  let event :=
    BatchDoneEvent (id t) (total t) (processed t) (ok t) (fail t) warn res in
  let t :=
    mkBatchTask (id t) (total t) (processed t) (ok t) (fail t) Done
      warn (Some res) (error t) (createdAt t) (cancelled t)
      (queues t) (Some event) in
  (t, publish event t h).

(** [failTask] *)
Definition failTask (err : string) (t : BatchTask) (h : Heap)
    : BatchTask * Heap :=
  let event :=
    BatchErrorEvent (id t) (total t) (processed t) (ok t) (fail t) err in
  let t :=
    mkBatchTask (id t) (total t) (processed t) (ok t) (fail t) Error
      (warning t) (result t) (Some err) (createdAt t) (cancelled t)
      (queues t) (Some event) in
  (t, publish event t h).

(** [cancel] *)
Definition cancel (t : BatchTask) : BatchTask :=
  mkBatchTask (id t) (total t) (processed t) (ok t) (fail t) (status t)
    (warning t) (result t) (error t) (createdAt t) true
    (queues t) (finalEvent t).

(** [finishCancelled] *)
Definition finishCancelled (t : BatchTask) (h : Heap) : BatchTask * Heap :=
  let event :=
    BatchCancelledEvent (id t) (total t) (processed t) (ok t) (fail t) in
  let t :=
    mkBatchTask (id t) (total t) (processed t) (ok t) (fail t) Cancelled
      (warning t) (result t) (error t) (createdAt t) (cancelled t)
      (queues t) (Some event) in
  (t, publish event t h).

(** [getFinalEvent] *)
Definition getFinalEvent (t : BatchTask) : option BatchEvent := finalEvent t.

End Task.
Arguments BatchEvent J : clear implicits.
Arguments BatchTask J : clear implicits.
Abbreviation Heap J := (list (list (BatchEvent J))).
Arguments RecordOpts J : clear implicits.

(** *** Sequences of calls on one task *)
Section TaskCalls.
Context {J : Type}.

(** The handles of a task are distinct and allocated: what [attach]
    and [detach] maintain from [new BatchTask] on. *)
Definition wfQueues (t : BatchTask J) (h : Heap J) : Prop :=
  NoDup (queues t) ∧ Forall (λ handle, (handle < length h)%nat) (queues t).

(** The events [es] published one after the other. *)
Definition publishAll (es : list (BatchEvent J)) (t : BatchTask J)
    (h : Heap J) : Heap J :=
  foldl (λ h event, publish event t h) h es.

(** A sequence of [record(success, opts)] calls. *)
Definition records (cs : list (bool * option (RecordOpts J)))
    (t : BatchTask J) (h : Heap J) : BatchTask J * Heap J :=
  foldl (λ th c, record c.1 c.2 th.1 th.2) (t, h) cs.

(** The terminal transitions. *)
Inductive TerminalCall :=
  | CallFinish (res : J) (warn : option string)
  | CallFailTask (err : string)
  | CallFinishCancelled.

Definition terminal (c : TerminalCall) (t : BatchTask J) (h : Heap J)
    : BatchTask J * Heap J :=
  match c with
  | CallFinish res warn => finish res warn t h
  | CallFailTask err => failTask err t h
  | CallFinishCancelled => finishCancelled t h
  end.

Definition terminals (cs : list TerminalCall) (t : BatchTask J) (h : Heap J)
    : BatchTask J * Heap J :=
  foldl (λ th c, terminal c th.1 th.2) (t, h) cs.

(** The status a terminal transition stands for, and the event it
    builds on a task. *)
Definition terminalStatus (c : TerminalCall) : Status :=
  match c with
  | CallFinish _ _ => Done
  | CallFailTask _ => Error
  | CallFinishCancelled => Cancelled
  end.

Definition terminalEvent (c : TerminalCall) (t : BatchTask J) : BatchEvent J :=
  match c with
  | CallFinish res warn =>
      BatchDoneEvent (id t) (total t) (processed t) (ok t) (fail t) warn res
  | CallFailTask err =>
      BatchErrorEvent (id t) (total t) (processed t) (ok t) (fail t) err
  | CallFinishCancelled =>
      BatchCancelledEvent (id t) (total t) (processed t) (ok t) (fail t)
  end.

Definition isTerminalStatus (s : Status) : bool :=
  match s with Running => false | _ => true end.

(** The terminal payload of a call is stored in the task. *)
Definition payloadStored (c : TerminalCall) (t : BatchTask J) : Prop :=
  match c with
  | CallFinish res warn => result t = Some res ∧ warning t = warn
  | CallFailTask err => error t = Some err
  | CallFinishCancelled => True
  end.

(** What a terminal event and a broadcast read of a task. *)
Definition sameCore (t t' : BatchTask J) : Prop :=
  id t' = id t ∧ total t' = total t ∧ processed t' = processed t
  ∧ ok t' = ok t ∧ fail t' = fail t ∧ queues t' = queues t.

End TaskCalls.
Arguments TerminalCall J : clear implicits.

(** *** The task registry *)

(** [TASKS] holds references to task objects: a task is the index of
    its object in the store [objects], and [new BatchTask] allocates at
    the end. Methods called on a task change its object, never the
    map. *)
Abbreviation TaskRef := nat (only parsing).

Section Registry.
Context {J : Type}.

Record Registry := mkRegistry {
  TASKS : gmap string TaskRef;
  objects : list (BatchTask J)
}.

(** The state when the module is loaded: [new Map()]. *)
Definition emptyRegistry : Registry := mkRegistry ∅ [].

(** [createTask] *)
Definition createTask (total : Z) (uuid : string) (now : Z)
    (reg : Registry) : TaskRef * Registry :=
  let task := newBatchTask total uuid now in
  let ref := length (objects reg) in
  (ref, mkRegistry (<[id task := ref]> (TASKS reg)) (objects reg ++ [task])).

(** [getTask]: [None] is [undefined]. *)
Definition getTask (taskId : string) (reg : Registry) : option TaskRef :=
  TASKS reg !! taskId.

(** [deleteTask] *)
Definition deleteTask (taskId : string) (reg : Registry) : Registry :=
  mkRegistry (delete taskId (TASKS reg)) (objects reg).

(** What the rest of the program can do to the registry and to the
    tasks it holds: the three registry functions, and any method or
    field update on a task object. *)
Inductive RegistryCall :=
  | CallCreate (total : Z) (uuid : string) (now : Z)
  | CallGet (taskId : string)
  | CallDelete (taskId : string)
  | CallMethod (ref : TaskRef) (f : BatchTask J → BatchTask J).

Definition call (c : RegistryCall) (reg : Registry) : Registry :=
  match c with
  | CallCreate total uuid now => (createTask total uuid now reg).2
  | CallGet _ => reg
  | CallDelete taskId => deleteTask taskId reg
  | CallMethod ref f => mkRegistry (TASKS reg) (alter f ref (objects reg))
  end.

Definition calls (cs : list RegistryCall) (reg : Registry) : Registry :=
  foldl (λ reg c, call c reg) reg cs.

End Registry.
Arguments Registry J : clear implicits.
Arguments RegistryCall J : clear implicits.

(** *** Calls that leave a task registered *)
Section RegistryCalls.
Context {J : Type}.

(** A call that does not create a task whose id is [taskId]. The ids
    come from [crypto.randomUUID()], which does not repeat itself. *)
Definition notCreating (taskId : string) (c : RegistryCall J) : Prop :=
  match c with
  | CallCreate _ uuid _ => removeDashes uuid ≠ taskId
  | _ => True
  end.

(** A call that leaves the task registered under [taskId] alone: it
    does not delete [taskId], does not create a task with that id, and,
    [id] being [readonly], does not change the id of an object. *)
Definition keeps (taskId : string) (c : RegistryCall J) : Prop :=
  match c with
  | CallCreate _ uuid _ => removeDashes uuid ≠ taskId
  | CallGet _ => True
  | CallDelete taskId' => taskId' ≠ taskId
  | CallMethod _ f => ∀ t, id (f t) = id t
  end.

End RegistryCalls.

(** *** The executor [runBatch] *)
Section Executor.
Context {J T R W : Type} `{EqDecision T}.

(** The values of the returned [Map]: [{ok, data?, error?, cancelled?}]. *)
Record BatchResult := mkBatchResult {
  res_ok : bool;
  res_data : option R;
  res_error : option string;
  res_cancelled : option bool
}.

(** A JavaScript [Map] keeps its entries in insertion order, and [set]
    on a present key replaces the value in place. *)
Fixpoint mapSet (k : T) (v : BatchResult) (m : list (T * BatchResult))
    : list (T * BatchResult) :=
  match m with
  | [] => [(k, v)]
  | (k', v') :: m' =>
      if decide (k' = k) then (k, v) :: m' else (k', v') :: mapSet k v m'
  end.

Fixpoint mapGet (k : T) (m : list (T * BatchResult)) : option BatchResult :=
  match m with
  | [] => None
  | (k', v') :: m' => if decide (k' = k) then Some v' else mapGet k m'
  end.

(** How the promise returned by [worker(item)] settles; a rejection
    carries [e instanceof Error ? e.message : String(e)]. *)
Inductive Settled :=
  | Resolved (data : R)
  | Rejected (error : string).

(** The run of one worker as [runBatch] sees it. [W] is the state of
    everything outside [runBatch] that its callbacks read or write.
    While the item is in flight the worker moves that state to
    [after], and [cancelRequested] tells whether [task.cancel()] was
    called in the meantime (by the worker or by another request). Both
    take effect when the promise settles: a worker is an [async]
    function whose work lies behind its first [await]. *)
Record WorkerRun := mkWorkerRun {
  settled : Settled;
  after : W;
  cancelRequested : bool
}.

Record Options := mkOptions {
  batchSize : option Z;
  task : option (BatchTask J);
  shouldCancel : option (W → bool * W)
}.

(** The state a run threads: the outside world, the task object and the
    queues of its subscribers, and the local [results]. *)
Record St := mkSt {
  world : W;
  st_task : option (BatchTask J);
  st_heap : Heap J;
  results : list (T * BatchResult)
}.

Section Run.
Variable worker : T → W → WorkerRun.
(** [schedule pending] is the order in which the promises of the items
    of one chunk settle; the source leaves it to the event loop. *)
Variable schedule : list T → list T.
Variable options : Options.

(** [(options.shouldCancel?.() ?? false) ||
     (options.task?.cancelled ?? false)] *)
Definition isCancelled (s : St) : bool * St :=
  let '(c, w) :=
    match shouldCancel options with
    | Some f => f (world s)
    | None => (false, world s)
    end in
  (c || from_option cancelled false (st_task s),
   mkSt w (st_task s) (st_heap s) (results s)).

Definition setResult (item : T) (r : BatchResult) (s : St) : St :=
  mkSt (world s) (st_task s) (st_heap s) (mapSet item r (results s)).

(** [options.task?.record(success, opts)] *)
Definition recordTask (success : bool) (opts : option (RecordOpts J))
    (s : St) : St :=
  match st_task s with
  | Some t =>
      let '(t, h) := record success opts t (st_heap s) in
      mkSt (world s) (Some t) h (results s)
  | None => s
  end.

(** [processOne] up to its [await]: it runs when [chunk.map] calls it.
    A cancelled item gets its entry at once; the others wait for their
    worker. *)
Definition processOneStart (acc : St * list T) (item : T) : St * list T :=
  let '(s, pending) := acc in
  let '(c, s) := isCancelled s in
  if c then
    (setResult item (mkBatchResult false None (Some "cancelled") (Some true)) s,
     pending)
  else (s, pending ++ [item]).

(** [processOne] after its [await], when the worker of [item] has
    settled. *)
Definition processOneSettle (s : St) (item : T) : St :=
  let run := worker item (world s) in
  let s :=
    mkSt (after run)
      (if cancelRequested run then cancel <$> st_task s else st_task s)
      (st_heap s) (results s) in
  match settled run with
  | Resolved data =>
      recordTask true None
        (setResult item (mkBatchResult true (Some data) None None) s)
  | Rejected error =>
      recordTask false (Some (mkRecordOpts None None (Some error)))
        (setResult item (mkBatchResult false None (Some error) None) s)
  end.

(** [await Promise.all(chunk.map(processOne))] *)
Definition processChunk (chunk : list T) (s : St) : St :=
  let '(s, pending) := foldl processOneStart (s, []) chunk in
  foldl processOneSettle s (schedule pending).

(** The [for (let i = 0; i < items.length; i += batchSize)] loop. Each
    iteration advances [i] by [size >= 1], so [fuel] bounds the number
    of iterations; [None] is a run that used it up. *)
Fixpoint loop (fuel : nat) (items : list T) (size : nat) (i : nat) (s : St)
    : option St :=
  match fuel with
  | O => None
  | S fuel' =>
      if decide (i < length items)%nat then
        let '(c, s) := isCancelled s in
        if c then Some s
        else
          let chunk := JS.slice items i (i + size) in
          loop fuel' items size (i + size)%nat (processChunk chunk s)
      else Some s
  end.

(** [Math.max(1, options.batchSize ?? 50)], for an integer size. *)
Definition effectiveBatchSize : nat :=
  Z.to_nat (Z.max 1 (default 50 (batchSize options))).

(** [runBatch]: the returned [Map] is [results] of the final state,
    which also holds what the run did to the task and to the world. *)
Definition runBatch (items : list T) (w : W) (h : Heap J) : option St :=
  loop (S (length items)) items effectiveBatchSize 0
       (mkSt w (task options) h []).

End Run.
End Executor.
Arguments BatchResult R : clear implicits.
Arguments Settled R : clear implicits.
Arguments WorkerRun R W : clear implicits.
Arguments Options J W : clear implicits.
Arguments St J T R W : clear implicits.

(** *** Prefixes of a run *)
Section ExecutorSpec.
Context {J T R W : Type} `{EqDecision T}.

(** The entry [processOne] stores for a settled worker, and the entry
    of a cancelled item. *)
Definition resultOf (o : Settled R) : BatchResult R :=
  match o with
  | Resolved data => mkBatchResult true (Some data) None None
  | Rejected error => mkBatchResult false None (Some error) None
  end.

Definition cancelledResult : BatchResult R :=
  mkBatchResult false None (Some "cancelled") (Some true).

Definition isResolved (o : Settled R) : bool :=
  match o with Resolved _ => true | Rejected _ => false end.

(** A predicate [shouldCancel] that never answers [true]. *)
Definition neverCancels (options : Options J W) : Prop :=
  match shouldCancel options with
  | Some f => ∀ w, (f w).1 = false
  | None => True
  end.

(** No item of [chunk] is cancelled at its start: the check of each
    [processOne], made one after the other from the state [s], answers
    [false]. *)
Fixpoint noneCancelled (options : Options J W) (chunk : list T)
    (s : St J T R W) : bool :=
  match chunk with
  | [] => true
  | _ :: chunk' =>
      let '(c, s) := isCancelled options s in
      negb c && noneCancelled options chunk' s
  end.

(** [reach k items size i s] is the state in which the loop, started
    at index [i] in state [s], arrives at the check that follows its
    first [k] chunks without having seen a cancellation, neither in
    front of a chunk nor at the start of an item; [None] if it does not
    get there. *)
Fixpoint reach (worker : T → W → WorkerRun R W) (schedule : list T → list T)
    (options : Options J W) (k : nat) (items : list T) (size : nat)
    (i : nat) (s : St J T R W) : option (St J T R W) :=
  match k with
  | O => Some s
  | S k' =>
      if decide (i < length items)%nat then
        let '(c, s) := isCancelled options s in
        if c then None
        else if noneCancelled options (JS.slice items i (i + size)) s then
          reach worker schedule options k' items size (i + size)%nat
            (processChunk worker schedule options
               (JS.slice items i (i + size)) s)
        else None
      else None
  end.

(** The counters of a task that started as [t0], once the workers of
    the items [settledItems] have settled with the outcomes [out]. *)
Definition countersAfter (out : T → Settled R) (settledItems : list T)
    (t0 t : BatchTask J) : Prop :=
  id t = id t0 ∧ total t = total t0
  ∧ processed t = processed t0 + Z.of_nat (length settledItems)
  ∧ ok t = ok t0
      + Z.of_nat (length (filter (λ x, isResolved (out x) = true)
                            settledItems))
  ∧ fail t = fail t0
      + Z.of_nat (length (filter (λ x, isResolved (out x) = false)
                            settledItems)).

(** The state of a run in which exactly the items [settledItems] have
    been processed, none of them cancelled: they are the keys of
    [results], each with the entry of its outcome, and the task, if
    there is one, has counted them. *)
Definition settledState (out : T → Settled R) (t0 : option (BatchTask J))
    (settledItems : list T) (s : St J T R W) : Prop :=
  (results s).*1 ≡ₚ settledItems
  ∧ (∀ x, x ∈ settledItems → mapGet x (results s) = Some (resultOf (out x)))
  ∧ option_Forall2 (countersAfter out settledItems) t0 (st_task s).

(** The task, if there is one, is not cancelled. *)
Definition taskCalm (s : St J T R W) : Prop :=
  from_option cancelled false (st_task s) = false.

End ExecutorSpec.

(** *** A small run, for closed examples

    The world counts the workers that have settled; every worker
    resolves with the length of its item, except the one of ["b"],
    which rejects; the promises of a chunk settle in the reverse of the
    order of dispatch. *)
Section ExecutorExample.

Definition exampleWorker (item : string) (w : nat) : WorkerRun nat nat :=
  mkWorkerRun
    (if decide (item = "b") then Rejected "boom"
     else Resolved (String.length item))
    (S w) false.

Definition exampleTask : BatchTask unit := newBatchTask 3 "7c9e-6679" 0.

(** Chunks of two items, no cancellation predicate. *)
Definition exampleOptions : Options unit nat :=
  mkOptions (Some 2) (Some exampleTask) None.

(** Chunks of one item, and a predicate that holds as soon as one
    worker has settled: the cancellation is set when chunk 1 is
    complete, not before. *)
Definition cancelAfterOne : Options unit nat :=
  mkOptions (Some 1) (Some exampleTask)
    (Some (λ w, (bool_decide (1 ≤ w)%nat, w))).

End ExecutorExample.

(** *** The event stream [createBatchEventStream] *)

(** The platform functions of the stream: [JSON.stringify] on an event
    ([None] when it throws) and [TextEncoder.encode]. *)
Class StreamBuiltins (J : Type) := {
  JSON_stringify : BatchEvent J → option string;
  TextEncoder_encode : string → list Z
}.

Section Stream.
Context {J : Type} `{StreamBuiltins J}.

(** The stream as its controller and its timer see it: the chunks
    enqueued so far, whether [controller.close()] was called, and
    whether the interval is still set. *)
Record Stream := mkStream {
  handle : Handle;
  enqueued : list (list Z);
  closed : bool;
  polling : bool
}.

Definition newline : string := String "010"%char EmptyString.

(** The text of one event: [`data: ${JSON.stringify(event)}\n\n`] *)
Definition sseLine (json : string) : string :=
  "data: " +:+ json +:+ newline +:+ newline.

(** [sendEvent]: an exception of [JSON.stringify] or of [enqueue] (the
    stream is closed) is caught and logged, and nothing is sent. *)
Definition sendEvent (event : BatchEvent J) (isClosed : bool)
    (out : list (list Z)) : list (list Z) :=
  match JSON_stringify event with
  | Some json =>
      if isClosed then out else out ++ [TextEncoder_encode (sseLine json)]
  | None => out
  end.

(** The initial snapshot sent by [start]. *)
Definition snapshotEvent (t : BatchTask J) : BatchEvent J :=
  BatchProgressEvent (id t) (total t) (processed t) (ok t) (fail t)
    None None None.

(** [start(controller)] up to [setInterval]. *)
Definition start (t : BatchTask J) (h : Heap J)
    : Stream * BatchTask J * Heap J :=
  let '(hd, t', h) := attach t h in
  let out := sendEvent (snapshotEvent t') false [] in
  (mkStream hd out false true, t', h).

(** The [while (handle.queue.length > 0)] loop of the interval
    callback: the events shifted off [queue] are sent until the queue
    is empty or a terminal event was sent. It returns what is left of
    the queue, the output, and whether a terminal event was met. *)
Fixpoint drain (queue : list (BatchEvent J)) (isClosed : bool)
    (out : list (list Z)) : list (BatchEvent J) * list (list Z) * bool :=
  match queue with
  | [] => ([], out, false)
  | event :: queue' =>
      let out := sendEvent event isClosed out in
      if isTerminal event then (queue', out, true)
      else drain queue' isClosed out
  end.

(** One firing of the interval callback. After [clearInterval] the
    callback does not run any more. *)
Definition tick (s : Stream) (t : BatchTask J) (h : Heap J)
    : Stream * BatchTask J * Heap J :=
  if polling s then
    match h !! handle s with
    | Some queue =>
        let '(queue', out, final) := drain queue (closed s) (enqueued s) in
        let h := <[handle s := queue']> h in
        if final then
          (mkStream (handle s) out true false, detach (handle s) t, h)
        else (mkStream (handle s) out (closed s) (polling s), t, h)
    | None => (s, t, h)
    end
  else (s, t, h).

End Stream.

(** *** A stream and its task over time *)
Section StreamSystem.
Context {J : Type} `{StreamBuiltins J}.

(** The events of a queue up to its first terminal event, that event
    included, and what follows it. *)
Fixpoint uptoTerminal (queue : list (BatchEvent J)) : list (BatchEvent J) :=
  match queue with
  | [] => []
  | event :: queue' =>
      event :: (if isTerminal event then [] else uptoTerminal queue')
  end.

Fixpoint afterTerminal (queue : list (BatchEvent J)) : list (BatchEvent J) :=
  match queue with
  | [] => []
  | event :: queue' =>
      if isTerminal event then queue' else afterTerminal queue'
  end.

(** One stream, the task it was created for, and the queues. *)
Record Sys := mkSys {
  sys_stream : Stream;
  sys_task : BatchTask J;
  sys_heap : Heap J
}.

(** What happens while the stream is open: the methods of the task are
    called, other subscribers attach and detach their handles, and the
    interval fires. *)
Inductive Action :=
  | ActRecord (success : bool) (opts : option (RecordOpts J))
  | ActFinish (res : J) (warn : option string)
  | ActFailTask (err : string)
  | ActFinishCancelled
  | ActCancel
  | ActAttach
  | ActDetach (other : Handle)
  | ActTick.

Definition onTask (r : BatchTask J * Heap J) (sys : Sys) : Sys :=
  mkSys (sys_stream sys) r.1 r.2.

Definition step (a : Action) (sys : Sys) : Sys :=
  let t := sys_task sys in
  let h := sys_heap sys in
  match a with
  | ActRecord success opts => onTask (record success opts t h) sys
  | ActFinish res warn => onTask (finish res warn t h) sys
  | ActFailTask err => onTask (failTask err t h) sys
  | ActFinishCancelled => onTask (finishCancelled t h) sys
  | ActCancel => onTask (cancel t, h) sys
  | ActAttach => onTask ((attach t h).1.2, (attach t h).2) sys
  | ActDetach other => onTask (detach other t, h) sys
  | ActTick =>
      (let '(s, t, h) := tick (sys_stream sys) t h in mkSys s t h)
  end.

Definition steps (acts : list Action) (sys : Sys) : Sys :=
  foldl (λ sys a, step a sys) sys acts.

(** [createBatchEventStream(task)]: the stream right after [start]. *)
Definition createBatchEventStream (t : BatchTask J) (h : Heap J) : Sys :=
  let '(s, t, h) := start t h in mkSys s t h.

(** The subscriber handle of a stream is known to the stream only. *)
Definition foreign (own : Handle) (a : Action) : Prop :=
  match a with
  | ActDetach other => other ≠ own
  | _ => True
  end.

(** The lifecycle of a stream whose events so far are [evs]: open, with
    no terminal event sent, the interval set and the handle attached;
    or closed, the last event sent being the only terminal one, the
    interval cleared and the handle detached. *)
Definition lifecycle (sys : Sys) (evs : list (BatchEvent J)) : Prop :=
  let s := sys_stream sys in
  (closed s = false ∧ polling s = true
   ∧ handle s ∈ queues (sys_task sys)
   ∧ Forall (λ e, isTerminal e = false) evs)
  ∨ (closed s = true ∧ polling s = false
     ∧ (handle s ∉ queues (sys_task sys))
     ∧ (∃ pre e, evs = pre ++ [e] ∧ isTerminal e = true
                 ∧ Forall (λ e, isTerminal e = false) pre)).

End StreamSystem.
Arguments Sys J : clear implicits.
Arguments Action J : clear implicits.

(** An instance of the platform functions of the stream for closed
    examples: an event is written as the name of its type, and a string
    is encoded as the codes of its characters. *)
Definition plainStream : StreamBuiltins unit :=
  {| JSON_stringify := λ event,
       Some (match event with
             | BatchProgressEvent _ _ _ _ _ _ _ _ => "progress"
             | BatchDoneEvent _ _ _ _ _ _ _ => "done"
             | BatchErrorEvent _ _ _ _ _ _ => "error"
             | BatchCancelledEvent _ _ _ _ _ => "cancelled"
             end);
     TextEncoder_encode := λ s,
       (λ c, Z.of_nat (nat_of_ascii c)) <$> String.list_ascii_of_string s |}.

End Batch.


(** ** Frames of a response body

    What a gRPC-Web body is made of, to state what [parseResponse]
    does on bodies that [encodePayload] alone does not produce: frames
    with any flag byte, trailer frames, and bodies cut short. *)
Module Frames.
Import JS Grpc.

(** A frame on the wire: the flag byte, the length of the payload on
    four bytes, most significant first, and the payload. With the flag
    0 it is what [encodePayload] builds. *)
Definition frameBytes (frame : Z * list Z) : list Z :=
  frame.1 :: be32 (Z.of_nat (length frame.2)) ++ frame.2.

(** The tests [flag & 0x80] and [flag & 0x01] of the loop. *)
Definition isTrailerFlag (flag : Z) : bool := negb (band flag 128 =? 0).

Definition isCompressedFlag (flag : Z) : bool := negb (band flag 1 =? 0).

(** A frame the loop does not reject: a trailer frame, or a message
    frame whose compression bit is clear. *)
Definition accepted (frame : Z * list Z) : Prop :=
  isTrailerFlag frame.1 = true ∨ isCompressedFlag frame.1 = false.

(** The payloads below 2^32 bytes: the lengths four bytes can hold. *)
Definition fits (frame : Z * list Z) : Prop :=
  Z.of_nat (length frame.2) < 2 ^ 32.

Section Decode.
Context `{Builtins}.

(** What one accepted frame adds to the result: a trailer frame its
    lines, a message frame its payload. *)
Definition decodeFrame (acc : Parsed) (frame : Z * list Z) : Parsed :=
  if isTrailerFlag frame.1
  then mkParsed (messages acc) (parseTrailerFrame (trailers acc) frame.2)
  else mkParsed (messages acc ++ [frame.2]) (trailers acc).

Definition decodeFrames (frames : list (Z * list Z)) : Parsed :=
  foldl decodeFrame (mkParsed [] ∅) frames.

End Decode.

(** A body for closed examples: a message, the trailer line
    [grpc-status:7] in a trailer frame, and a second message. *)
Definition exampleFrames : list (Z * list Z) :=
  [(0, [1; 2; 3]);
   (128, [103; 114; 112; 99; 45; 115; 116; 97; 116; 117; 115; 58; 55]);
   (0, [4])].

(** A message frame whose compression bit is set. *)
Definition exampleCompressed : Z * list Z := (1, [9; 9; 9]).

(** The bytes the messages of a result took on the wire. *)
Definition wireSize (msgs : list (list Z)) : nat :=
  sum_list ((λ m, 5 + length m)%nat <$> msgs).

End Frames.

(** ** What subscribers see *)
Module Subscribers.
Import Batch.

Section Progress.
Context {J : Type}.

(** The counters an event carries. *)
Definition eventProcessed (event : BatchEvent J) : Z :=
  match event with
  | BatchProgressEvent _ _ processed _ _ _ _ _ => processed
  | BatchDoneEvent _ _ processed _ _ _ _ => processed
  | BatchErrorEvent _ _ processed _ _ _ => processed
  | BatchCancelledEvent _ _ processed _ _ => processed
  end.

Definition eventOk (event : BatchEvent J) : Z :=
  match event with
  | BatchProgressEvent _ _ _ ok _ _ _ _ => ok
  | BatchDoneEvent _ _ _ ok _ _ _ => ok
  | BatchErrorEvent _ _ _ ok _ _ => ok
  | BatchCancelledEvent _ _ _ ok _ => ok
  end.

Definition eventFail (event : BatchEvent J) : Z :=
  match event with
  | BatchProgressEvent _ _ _ _ fail _ _ _ => fail
  | BatchDoneEvent _ _ _ _ fail _ _ => fail
  | BatchErrorEvent _ _ _ _ fail _ => fail
  | BatchCancelledEvent _ _ _ _ fail => fail
  end.

(** The event one [record(success, opts)] builds on a task: the
    counters are read after the increment. *)
Definition progressEvent (success : bool) (opts : option (RecordOpts J))
    (t : BatchTask J) : BatchEvent J :=
  BatchProgressEvent (id t) (total t) (processed t + 1)
    (if success then ok t + 1 else ok t)
    (if success then fail t else fail t + 1)
    (opts ≫= opt_item) (opts ≫= opt_detail)
    (truthyError (opts ≫= opt_error)).

(** The events of a sequence of [record] calls, in the order of the
    calls. *)
Fixpoint progressEvents (cs : list (bool * option (RecordOpts J)))
    (t : BatchTask J) : list (BatchEvent J) :=
  match cs with
  | [] => []
  | c :: cs' =>
      progressEvent c.1 c.2 t :: progressEvents cs' (record c.1 c.2 t []).1
  end.

End Progress.

End Subscribers.

(** ** Streams whose events need not serialise *)
Module StreamSpec.
Import Batch.

Section Lines.
Context {J : Type} `{StreamBuiltins J}.

(** The chunk [sendEvent] enqueues for an event on an open stream:
    none when [JSON.stringify] throws. *)
Definition lineOf (event : BatchEvent J) : option (list Z) :=
  TextEncoder_encode ∘ sseLine <$> JSON_stringify event.

(** The action that stands for a terminal transition. *)
Definition actOf (c : TerminalCall J) : Action J :=
  match c with
  | CallFinish res warn => ActFinish res warn
  | CallFailTask err => ActFailTask err
  | CallFinishCancelled => ActFinishCancelled
  end.

(** The actions that publish a terminal event. *)
Definition publishesTerminal (a : Action J) : bool :=
  match a with
  | ActFinish _ _ | ActFailTask _ | ActFinishCancelled => true
  | _ => false
  end.

(** What every state of a stream that started with the event [first]
    satisfies, whether its events serialise or not: [evs] are the
    events taken off the queue so far. *)
Definition streamInvAny (first : BatchEvent J) (sys : Sys J) : Prop :=
  wfQueues (sys_task sys) (sys_heap sys)
  ∧ (handle (sys_stream sys) < length (sys_heap sys))%nat
  ∧ ∃ evs, enqueued (sys_stream sys) = omap lineOf (first :: evs)
           ∧ lifecycle sys evs.

(** The queue of the stream holds no terminal event. *)
Definition queueOpen (sys : Sys J) : Prop :=
  ∃ queue, sys_heap sys !! handle (sys_stream sys) = Some queue
           ∧ Forall (λ e, isTerminal e = false) queue.

End Lines.

(** Platform functions for closed examples under which the events of
    type [error] do not serialise. *)
Definition partialStream : StreamBuiltins unit :=
  {| JSON_stringify := λ event,
       match event with
       | BatchProgressEvent _ _ _ _ _ _ _ _ => Some "progress"
       | BatchDoneEvent _ _ _ _ _ _ _ => Some "done"
       | BatchErrorEvent _ _ _ _ _ _ => None
       | BatchCancelledEvent _ _ _ _ _ => Some "cancelled"
       end;
     TextEncoder_encode := λ s,
       (λ c, Z.of_nat (nat_of_ascii c)) <$> String.list_ascii_of_string s |}.

End StreamSpec.

(** ** The contract of the event stream

    What a consumer of [createBatchEventStream] reads: the line an
    event becomes and the events that end the stream, written
    independently of [sseLine], [snapshotEvent] and [isTerminal], to
    state the lifecycle of the stream against them. *)
Module StreamContract.
Import Batch.

(** The [type] field of an event. *)
Definition eventType {J : Type} (event : BatchEvent J) : string :=
  match event with
  | BatchProgressEvent _ _ _ _ _ _ _ _ => "progress"
  | BatchDoneEvent _ _ _ _ _ _ _ => "done"
  | BatchErrorEvent _ _ _ _ _ _ => "error"
  | BatchCancelledEvent _ _ _ _ _ => "cancelled"
  end.

Section Contract.
Context {J : Type} `{StreamBuiltins J}.

(** The line of an event on the wire: [data: ], the JSON text of the
    event and two line feeds, encoded; none for an event that
    [JSON.stringify] rejects. *)
Definition dataLine (event : BatchEvent J) : option (list Z) :=
  json ← JSON_stringify event;
  Some (TextEncoder_encode
          ("data: " +:+ json
           +:+ String "010"%char (String "010"%char EmptyString))).

End Contract.

(** Values of a task result or of an item detail for closed examples:
    [Plain] is a value [JSON.stringify] writes, [Cyclic] an object that
    holds a reference to itself, on which it throws. *)
Inductive Payload := Plain | Cyclic.

(** Platform functions for closed examples over [Payload]: an event
    that holds no [Cyclic] value is written as the name of its type,
    and a string is encoded as the codes of its characters. *)
Definition payloadStream : StreamBuiltins Payload :=
  {| JSON_stringify := λ event,
       match event with
       | BatchProgressEvent _ _ _ _ _ _ (Some Cyclic) _ => None
       | BatchDoneEvent _ _ _ _ _ _ Cyclic => None
       | _ => Some (eventType event)
       end;
     TextEncoder_encode := λ s,
       (λ c, Z.of_nat (nat_of_ascii c)) <$> String.list_ascii_of_string s |}.

Definition payloadTask : BatchTask Payload := newBatchTask 3 "7c9e-6679" 0.

End StreamContract.

(** ** The returned map against the counters of the task *)
Module Accounting.
Import Batch.

Section Counts.
Context {J T R : Type}.

(** [result.cancelled] *)
Definition isCancelledEntry (r : BatchResult R) : bool :=
  match res_cancelled r with
  | Some true => true
  | _ => false
  end.

(** The entries of a returned map by kind: [ok], cancelled, and
    failed (neither). *)
Definition countOk (m : list (T * BatchResult R)) : Z :=
  Z.of_nat (length (filter (λ e, res_ok e.2 = true) m)).

Definition countCancelled (m : list (T * BatchResult R)) : Z :=
  Z.of_nat (length (filter (λ e, isCancelledEntry e.2 = true) m)).

Definition countFailed (m : list (T * BatchResult R)) : Z :=
  Z.of_nat (length (filter (λ e, res_ok e.2 = false
                                 ∧ isCancelledEntry e.2 = false) m)).

(** A task that started a run as [t0] agrees with the map [m] of the
    run: it has counted the entries that are not cancelled, and
    nothing else of it has moved, but for the flag [cancelled]. *)
Definition tallies (m : list (T * BatchResult R)) (t0 t : BatchTask J)
    : Prop :=
  ok t = ok t0 + countOk m
  ∧ fail t = fail t0 + countFailed m
  ∧ processed t = processed t0 + countOk m + countFailed m
  ∧ id t = id t0 ∧ total t = total t0 ∧ status t = status t0
  ∧ warning t = warning t0 ∧ result t = result t0 ∧ error t = error t0
  ∧ createdAt t = createdAt t0
  ∧ queues t = queues t0 ∧ finalEvent t = finalEvent t0.

End Counts.

Section States.
Context {J T R W : Type}.

(** An entry [runBatch] can have stored for the key [item]: the
    cancelled entry, or the outcome of a call of the worker on
    [item]. *)
Definition entryOf (worker : T → W → WorkerRun R W) (e : T * BatchResult R)
    : Prop :=
  e.2 = cancelledResult ∨ ∃ w, e.2 = resultOf (settled (worker e.1 w)).

(** A state of a run whose task started as [t0]: the task agrees with
    the map, every entry comes from the run, and the store of queues
    has kept its size [n]. *)
Definition tallied (worker : T → W → WorkerRun R W)
    (t0 : option (BatchTask J)) (n : nat) (s : St J T R W) : Prop :=
  option_Forall2 (tallies (results s)) t0 (st_task s)
  ∧ Forall (entryOf worker) (results s)
  ∧ length (st_heap s) = n.

End States.

Section Broadcast.
Context {J T R W : Type}.


End Broadcast.

End Accounting.

(** ** Calls on the outside world

    The services call [fetch], the token repository and the database.
    None of these is part of the repository: they are taken as
    given, as functions of a world [W] that return or throw. *)
Module Platform.
Import Grpc.

(** A computation in the world [W]: it returns or throws, and leaves
    a world behind. A thrown value is carried as the text the
    handlers of the services read off it,
    [e instanceof Error ? e.message : String(e)]. *)
Definition M (W A : Type) : Type := W → outcome A * W.

Section Monad.
Context {W : Type}.

#[export] Instance M_ret : MRet (M W) := λ A a w, (Returned a, w).

#[export] Instance M_bind : MBind (M W) := λ A B f m w,
  match m w with
  | (Returned a, w') => f a w'
  | (Threw msg, w') => (Threw msg, w')
  end.

(** [throw new Error(msg)] *)
Definition throw {A} (msg : string) : M W A := λ w, (Threw msg, w).

(** [try { body } catch (e) { handler }] *)
Definition tryCatch {A} (body : M W A) (handler : string → M W A) : M W A :=
  λ w,
    match body w with
    | (Threw msg, w') => handler msg w'
    | r => r
    end.

(** A call whose outcome does not depend on the world. *)
Definition settle {A} (o : outcome A) : M W A := λ w, (o, w).

End Monad.

(** The body of a request: the bytes of a [Uint8Array], or the object
    handed to [JSON.stringify], a list of string properties. *)
Inductive Body :=
  | Bytes (bytes : list Z)
  | Json (properties : list (string * string)).

(** [fetch(url, {method, headers, body})] *)
Record Request := mkRequest {
  req_url : string;
  req_method : string;
  req_headers : gmap string string;
  req_body : Body
}.

(** What the services read of a [Response]: [ok], [status],
    [headers.get], [arrayBuffer()] and [json()]. Of the value of
    [json()] they read properties that are numbers:
    [typeof data?.name === 'number' ? data.name : ...], so the value
    is the function that gives the number a property holds, if it
    holds one. The numbers read are counts, kept as integers. *)
Record Response := mkResponse {
  resp_ok : bool;
  resp_status : Z;
  resp_headers : string → option string;
  resp_arrayBuffer : outcome (list Z);
  resp_json : outcome (string → option Z)
}.

(** A parameter bound to a [?] of an SQL statement. *)
Inductive SqlValue :=
  | SqlNumber (n : Z)
  | SqlText (s : string).

(** The functions of the platform and of the modules outside the
    sources at hand: [fetch]; [recordTokenFailure(db, token, status,
    reason)] and [applyCooldown(db, token, status)] of
    [repo/tokens]; [dbRun(db, sql, params)] of [db];
    [db.prepare(sql).bind(...params).run()], of which the callers read
    [meta.changes]; [nowMs()] of [utils/time];
    [toRateLimitModel(model)] of [grok/models] and
    [getDynamicHeaders(settings, path)] of [grok/headers]. The
    database binding [db] is part of the world. *)
Class Platform (W Settings : Type) := {
  fetch : Request → M W Response;
  recordTokenFailure : string → Z → string → M W unit;
  applyCooldown : string → Z → M W unit;
  dbRun : string → list SqlValue → M W unit;
  prepareBindRun : string → list SqlValue → M W Z;
  nowMs : M W Z;
  toRateLimitModel : string → M W string;
  getDynamicHeaders : Settings → string → M W (gmap string string)
}.

(** *** A world that keeps the calls made on it *)

Inductive Call :=
  | Fetched (req : Request)
  | RecordedFailure (token : string) (status : Z) (reason : string)
  | AppliedCooldown (token : string) (status : Z)
  | RanSql (sql : string) (params : list SqlValue)
  | RanPrepared (sql : string) (params : list SqlValue)
  | ReadClock
  | AskedRateLimitModel (model : string)
  | AskedHeaders (path : string).

(** The answers of the outside world: each may depend on the calls
    made so far. *)
Record Oracle (Settings : Type) := mkOracle {
  onFetch : list Call → Request → outcome Response;
  onRecordFailure : list Call → string → Z → string → outcome unit;
  onCooldown : list Call → string → Z → outcome unit;
  onSql : list Call → string → list SqlValue → outcome unit;
  onPrepared : list Call → string → list SqlValue → outcome Z;
  onClock : list Call → Z;
  onRateLimitModel : list Call → string → outcome string;
  onHeaders : list Call → Settings → string → outcome (gmap string string)
}.
Arguments onFetch {Settings} o log req.
Arguments onRecordFailure {Settings} o log token status reason.
Arguments onCooldown {Settings} o log token status.
Arguments onSql {Settings} o log sql params.
Arguments onPrepared {Settings} o log sql params.
Arguments onClock {Settings} o log.
Arguments onRateLimitModel {Settings} o log model.
Arguments onHeaders {Settings} o log settings path.

(** The platform whose world is the list of the calls made, oldest
    first. *)
Definition tracing {Settings} (o : Oracle Settings)
    : Platform (list Call) Settings :=
  {| fetch := λ req log, (onFetch o log req, log ++ [Fetched req]);
     recordTokenFailure := λ token status reason log,
       (onRecordFailure o log token status reason,
        log ++ [RecordedFailure token status reason]);
     applyCooldown := λ token status log,
       (onCooldown o log token status, log ++ [AppliedCooldown token status]);
     dbRun := λ sql params log,
       (onSql o log sql params, log ++ [RanSql sql params]);
     prepareBindRun := λ sql params log,
       (onPrepared o log sql params, log ++ [RanPrepared sql params]);
     nowMs := λ log, (Returned (onClock o log), log ++ [ReadClock]);
     toRateLimitModel := λ model log,
       (onRateLimitModel o log model, log ++ [AskedRateLimitModel model]);
     getDynamicHeaders := λ settings path log,
       (onHeaders o log settings path, log ++ [AskedHeaders path]) |}.

(** An outside world for closed examples: every request is answered
    by an empty response with the status 200 and no header, every
    failure is recorded, and the clock shows 7. *)
Definition exampleOracle : Oracle unit :=
  {| onFetch := λ _ _,
       Returned (mkResponse true 200 (λ _, None) (Returned [])
                   (Returned (λ _, None)));
     onRecordFailure := λ _ _ _ _, Returned tt;
     onCooldown := λ _ _ _, Returned tt;
     onSql := λ _ _ _, Returned tt;
     onPrepared := λ _ _ _, Returned 0;
     onClock := λ _, 7;
     onRateLimitModel := λ _ model, Returned model;
     onHeaders := λ _ _ _, Returned ∅ |}.

(** A token repository that records every failure it is told of. *)
Definition recordsFailures {Settings} (o : Oracle Settings) : Prop :=
  ∀ log token status reason,
    onRecordFailure o log token status reason = Returned tt.

End Platform.

(** ** NSFW enablement: src/services/nsfw.ts *)
Module Nsfw.
Import JS Grpc Platform.

Definition ACCEPT_TOS_API : string :=
  "https://accounts.x.ai/auth_mgmt.AuthManagement/SetTosAcceptedVersion".
Definition SET_BIRTH_API : string :=
  "https://accounts.x.ai/auth_mgmt.AuthManagement/SetBirthDate".
Definition NSFW_MGMT_API : string :=
  "https://accounts.x.ai/auth_mgmt.AuthManagement/SetNsfwMode".

(** [NsfwEnableResult] *)
Record NsfwEnableResult := mkNsfwEnableResult {
  success : bool;
  http_status : Z;
  grpc_status : option Z;
  grpc_message : option string;
  error : option string
}.

(** [GrpcWebClient.buildHeaders] of src/services/refresh.ts *)
Definition buildHeaders (token origin referer : string) : gmap string string :=
  list_to_map
    [("Content-Type", "application/grpc-web+proto");
     ("Accept", "*/*");
     ("x-grpc-web", "1");
     ("x-user-agent", "connect-es/2.1.1");
     ("Origin", origin);
     ("Referer", referer);
     ("Cookie", "sso-rw=" +:+ token +:+ ";sso=" +:+ token);
     ("User-Agent",
      "Mozilla/5.0 (Macintosh; Intel Mac OS X 10_15_7) AppleWebKit/537.36 (KHTML, like Gecko) Chrome/136.0.0.0 Safari/537.36");
     ("Sec-Fetch-Dest", "empty");
     ("Sec-Fetch-Mode", "cors");
     ("Sec-Fetch-Site", "same-site");
     ("Cache-Control", "no-cache");
     ("Pragma", "no-cache")].

Section Calls.
Context {W Settings : Type} `{Builtins} `{Platform W Settings}.

(** [GrpcWebClient.parseResponse] as its callers see it: it returns
    or throws. The loop of the embedding answers within its fuel on
    every body, so the default is never taken. *)
Definition parseResponseM (body : list Z) (contentType : option string)
    (headers : option (string → option string)) : M W Parsed :=
  settle (default (Threw "parseResponse") (parseResponse body contentType headers)).

(** [acceptTos] *)
Definition acceptTos (token : string) : M W GrpcStatus :=
  let headers :=
    buildHeaders token "https://accounts.x.ai"
      "https://accounts.x.ai/accept-tos" in
  let payload := encodePayload [16; 1] in
  response ← fetch (mkRequest ACCEPT_TOS_API "POST" headers (Bytes payload));
  if negb (resp_ok response) then
    throw ("Accept ToS failed: " +:+ pretty (resp_status response))
  else
    body ← settle (resp_arrayBuffer response);
    parsed ← parseResponseM body (resp_headers response "content-type")
               (Some (resp_headers response));
    mret (getStatus (trailers parsed)).

(** [setBirthDate] *)
Definition setBirthDate (token : string) : M W GrpcStatus :=
  let headers :=
    buildHeaders token "https://accounts.x.ai"
      "https://accounts.x.ai/accept-tos" in
  let payload := encodePayload [10; 10; 8; 198; 15; 16; 1; 24; 1] in
  response ← fetch (mkRequest SET_BIRTH_API "POST" headers (Bytes payload));
  if negb (resp_ok response) then
    throw ("Set birth date failed: " +:+ pretty (resp_status response))
  else
    body ← settle (resp_arrayBuffer response);
    parsed ← parseResponseM body (resp_headers response "content-type")
               (Some (resp_headers response));
    mret (getStatus (trailers parsed)).

(** [enableNsfwMode] *)
Definition enableNsfwMode (token : string) : M W GrpcStatus :=
  let headers :=
    buildHeaders token "https://accounts.x.ai"
      "https://accounts.x.ai/accept-tos" in
  let payload := encodePayload [8; 1] in
  response ← fetch (mkRequest NSFW_MGMT_API "POST" headers (Bytes payload));
  if negb (resp_ok response) then
    throw ("Enable NSFW failed: " +:+ pretty (resp_status response))
  else
    body ← settle (resp_arrayBuffer response);
    parsed ← parseResponseM body (resp_headers response "content-type")
               (Some (resp_headers response));
    mret (getStatus (trailers parsed)).

(** [enableNsfwForToken]. A step that returns from the function
    yields [Some] of the result; [None] goes on to the next step. *)
Definition enableNsfwForToken (token : string) : M W NsfwEnableResult :=
  tryCatch
    (step1 ←
       tryCatch
         (tosStatus ← acceptTos token;
          if negb (ok tosStatus) then
            recordTokenFailure token (httpEquiv tosStatus)
              ("ToS failed: " +:+ message tosStatus);;
            mret (Some (mkNsfwEnableResult false (httpEquiv tosStatus)
                          (Some (code tosStatus)) (Some (message tosStatus))
                          (Some ("Accept ToS failed: " +:+ message tosStatus))))
          else mret None)
         (λ msg,
            recordTokenFailure token 500 ("ToS error: " +:+ msg);;
            mret (Some (mkNsfwEnableResult false 500 None None
                          (Some ("Accept ToS error: " +:+ msg)))));
     match step1 with
     | Some r => mret r
     | None =>
         step2 ←
           tryCatch
             (birthStatus ← setBirthDate token;
              if negb (ok birthStatus) then
                recordTokenFailure token (httpEquiv birthStatus)
                  ("Birth date failed: " +:+ message birthStatus);;
                mret (Some (mkNsfwEnableResult false (httpEquiv birthStatus)
                              (Some (code birthStatus))
                              (Some (message birthStatus))
                              (Some ("Set birth date failed: "
                                     +:+ message birthStatus))))
              else mret None)
             (λ msg,
                recordTokenFailure token 500 ("Birth date error: " +:+ msg);;
                mret (Some (mkNsfwEnableResult false 500 None None
                              (Some ("Set birth date error: " +:+ msg)))));
         match step2 with
         | Some r => mret r
         | None =>
             tryCatch
               (nsfwStatus ← enableNsfwMode token;
                let success := ok nsfwStatus in
                (if negb success then
                   recordTokenFailure token (httpEquiv nsfwStatus)
                     ("NSFW failed: " +:+ message nsfwStatus)
                 else mret tt);;
                mret (mkNsfwEnableResult success (httpEquiv nsfwStatus)
                        (Some (code nsfwStatus))
                        (if truthy (message nsfwStatus)
                         then Some (message nsfwStatus) else None)
                        (if success then None
                         else Some ("Enable NSFW failed: "
                                    +:+ message nsfwStatus))))
               (λ msg,
                  recordTokenFailure token 500 ("NSFW error: " +:+ msg);;
                  mret (mkNsfwEnableResult false 500 None None
                          (Some ("Enable NSFW error: " +:+ msg))))
         end
     end)
    (λ msg, mret (mkNsfwEnableResult false 500 None None (Some msg))).

End Calls.

(** *** The batch *)
Section Batches.
Context {J W Settings : Type} `{Builtins} `{Platform W Settings}.

(** The order in which the promises of a chunk settle, and whether
    [task.cancel()] is called while a token is in flight: both are
    left to the event loop and to the other requests. *)
Variable schedule : list string → list string.
Variable cancelDuring : string → W → bool.

(** The worker [async (token) => enableNsfwForToken(db, token)] as
    [runBatch] sees it. *)
Definition nsfwWorker (token : string) (w : W)
    : Batch.WorkerRun NsfwEnableResult W :=
  let '(o, w') := enableNsfwForToken token w in
  Batch.mkWorkerRun
    (match o with
     | Returned r => Batch.Resolved r
     | Threw msg => Batch.Rejected msg
     end)
    w' (cancelDuring token w).

(** The entry stored for a token whose result carries no data. *)
Definition fallbackResult (result : Batch.BatchResult NsfwEnableResult)
    : NsfwEnableResult :=
  mkNsfwEnableResult false 500 None None
    (Some (default "Unknown error" (Batch.res_error result))).

(** The body of the loop over [results.entries()]; [result.data] is an
    object, so it is truthy whenever it is defined. *)
Definition mapEntry (mapped : gmap string NsfwEnableResult)
    (entry : string * Batch.BatchResult NsfwEnableResult)
    : gmap string NsfwEnableResult :=
  match Batch.res_ok entry.2, Batch.res_data entry.2 with
  | true, Some data => <[entry.1 := data]> mapped
  | _, _ => <[entry.1 := fallbackResult entry.2]> mapped
  end.

(** The value the loop stores for an entry. *)
Definition valueOf (result : Batch.BatchResult NsfwEnableResult)
    : NsfwEnableResult :=
  match Batch.res_ok result, Batch.res_data result with
  | true, Some data => data
  | _, _ => fallbackResult result
  end.

(** [batchEnableNsfw]: the returned [Map], with the state in which
    [runBatch] left the task and the world. *)
Definition batchEnableNsfw (tokens : list string) (options : Batch.Options J W)
    (w : W) (h : Batch.Heap J)
    : option (gmap string NsfwEnableResult
              * Batch.St J string NsfwEnableResult W) :=
  s ← Batch.runBatch nsfwWorker schedule
         (Batch.mkOptions (Some (default 10 (Batch.batchSize options)))
            (Batch.task options) (Batch.shouldCancel options))
         tokens w h;
  Some (foldl mapEntry ∅ (Batch.results s), s).

End Batches.

(** A status that was computed by [getStatus]. *)
Definition fromGetStatus (st : GrpcStatus) : Prop := ∃ trs, st = getStatus trs.

(** The requests of the three steps of [enableNsfwForToken]. *)
Definition tosRequest (token : string) : Request :=
  mkRequest ACCEPT_TOS_API "POST"
    (buildHeaders token "https://accounts.x.ai"
       "https://accounts.x.ai/accept-tos")
    (Bytes (encodePayload [16; 1])).

Definition birthRequest (token : string) : Request :=
  mkRequest SET_BIRTH_API "POST"
    (buildHeaders token "https://accounts.x.ai"
       "https://accounts.x.ai/accept-tos")
    (Bytes (encodePayload [10; 10; 8; 198; 15; 16; 1; 24; 1])).

Definition nsfwRequest (token : string) : Request :=
  mkRequest NSFW_MGMT_API "POST"
    (buildHeaders token "https://accounts.x.ai"
       "https://accounts.x.ai/accept-tos")
    (Bytes (encodePayload [8; 1])).

Definition nsfwRequests (token : string) : list Request :=
  [tosRequest token; birthRequest token; nsfwRequest token].

End Nsfw.

(** ** Token refresh: src/services/refresh.ts *)
Module Refresh.
Import Grpc Platform.

Definition RATE_LIMIT_API : string := "https://grok.com/rest/rate-limits".

(** [TokenType] of [repo/tokens]; the code tests it against
    ['ssoSuper'] only. *)
Inductive TokenType := sso | ssoSuper.

(** [TokenRefreshResult] *)
Record TokenRefreshResult := mkTokenRefreshResult {
  success : bool;
  remaining_queries : option Z;
  heavy_remaining_queries : option Z;
  error : option string;
  status : option Z
}.

(** The value of [checkRateLimits]. *)
Record Limits := mkLimits {
  remaining : Z;
  heavy_remaining : Z
}.

(** The statement of [refreshToken]. *)
Definition UPDATE_TOKENS : string :=
  "UPDATE tokens
       SET remaining_queries = ?,
           heavy_remaining_queries = ?,
           failed_count = 0,
           cooldown_until = NULL,
           last_failure_time = NULL,
           last_failure_reason = NULL
       WHERE token = ?".

(** [parts.join(sep)] *)
Fixpoint join (sep : string) (parts : list string) : string :=
  match parts with
  | [] => EmptyString
  | [part] => part
  | part :: parts' => part +:+ sep +:+ join sep parts'
  end.

(** The argument [updates] of [updateRefreshProgress]. *)
Record ProgressUpdates := mkProgressUpdates {
  upd_running : option bool;
  upd_current : option Z;
  upd_total : option Z;
  upd_success : option Z;
  upd_failed : option Z
}.

Section Calls.
Context {W Settings : Type} `{Platform W Settings}.

(** [checkRateLimits]; [None] is [null]. *)
Definition checkRateLimits (cookie : string) (settings : Settings)
    (model : string) : M W (option Limits) :=
  rateModel ← toRateLimitModel model;
  headers ← getDynamicHeaders settings "/rest/rate-limits";
  let headers := <["Cookie" := cookie]> headers in
  let body := Json [("requestKind", "DEFAULT"); ("modelName", rateModel)] in
  tryCatch
    (resp ← fetch (mkRequest RATE_LIMIT_API "POST" headers body);
     if negb (resp_ok resp) then mret None
     else
       data ← settle (resp_json resp);
       let remaining := default (-1) (data "remaining") in
       let heavy_remaining := default (-1) (data "heavyRemaining") in
       mret (Some (mkLimits remaining heavy_remaining)))
    (λ _, mret None).

(** [refreshToken] *)
Definition refreshToken (token : string) (tokenType : TokenType)
    (settings : Settings) : M W TokenRefreshResult :=
  tryCatch
    (let cookie := "sso-rw=" +:+ token +:+ ";sso=" +:+ token in
     let model :=
       match tokenType with ssoSuper => "grok-4-heavy" | sso => "grok-3" end in
     limits ← checkRateLimits cookie settings model;
     match limits with
     | None =>
         recordTokenFailure token 500 "Rate limit check failed";;
         mret (mkTokenRefreshResult false None None
                 (Some "Rate limit check failed") (Some 500))
     | Some limits =>
         now ← nowMs;
         dbRun UPDATE_TOKENS
           [SqlNumber (remaining limits); SqlNumber (heavy_remaining limits);
            SqlText token];;
         (if (remaining limits =? 0)
             || (match tokenType with ssoSuper => true | sso => false end
                 && (heavy_remaining limits =? 0))
          then applyCooldown token 429
          else mret tt);;
         mret (mkTokenRefreshResult true (Some (remaining limits))
                 (Some (heavy_remaining limits)) None None)
     end)
    (λ msg,
       recordTokenFailure token 500 ("Refresh error: " +:+ msg);;
       mret (mkTokenRefreshResult false None None (Some msg) (Some 500))).

(** One [if (updates.field !== undefined)] of
    [updateRefreshProgress]. *)
Definition pushField (name : string) (value : option Z)
    (acc : list string * list SqlValue) : list string * list SqlValue :=
  match value with
  | Some v => (acc.1 ++ [name +:+ " = ?"], acc.2 ++ [SqlNumber v])
  | None => acc
  end.

(** [updateRefreshProgress] *)
Definition updateRefreshProgress (updates : ProgressUpdates) : M W unit :=
  let acc := ([], []) in
  let acc :=
    pushField "running" ((λ b : bool, if b then 1 else 0) <$> upd_running updates)
      acc in
  let acc := pushField "current" (upd_current updates) acc in
  let acc := pushField "total" (upd_total updates) acc in
  let acc := pushField "success" (upd_success updates) acc in
  let acc := pushField "failed" (upd_failed updates) acc in
  if (length acc.1 =? 0)%nat then mret tt
  else
    let parts := acc.1 ++ ["updated_at = ?"] in
    now ← nowMs;
    let params := acc.2 ++ [SqlNumber now] in
    dbRun ("UPDATE token_refresh_progress SET " +:+ join ", " parts
           +:+ " WHERE id = 1") params.

End Calls.

(** The cookie and the model of [refreshToken]. *)
Definition cookieOf (token : string) : string :=
  "sso-rw=" +:+ token +:+ ";sso=" +:+ token.

Definition modelOf (tokenType : TokenType) : string :=
  match tokenType with ssoSuper => "grok-4-heavy" | sso => "grok-3" end.

(** The limits [checkRateLimits] reads off the value of [json()]. *)
Definition limitsOf (data : string → option Z) : Limits :=
  mkLimits (default (-1) (data "remaining"))
    (default (-1) (data "heavyRemaining")).

(** The request of [checkRateLimits]. *)
Definition rateLimitRequest (cookie rateModel : string)
    (headers : gmap string string) : Request :=
  mkRequest RATE_LIMIT_API "POST" (<["Cookie" := cookie]> headers)
    (Json [("requestKind", "DEFAULT"); ("modelName", rateModel)]).

(** [limits.remaining === 0 || (tokenType === 'ssoSuper' &&
    limits.heavy_remaining === 0)] *)
Definition exhausted (tokenType : TokenType) (limits : Limits) : bool :=
  (remaining limits =? 0)
  || (match tokenType with ssoSuper => true | sso => false end
      && (heavy_remaining limits =? 0)).

(** The fields of [updates] that are defined. *)
Definition definedFields (updates : ProgressUpdates) : nat :=
  (from_option (λ _, 1) 0 (upd_running updates)
   + from_option (λ _, 1) 0 (upd_current updates)
   + from_option (λ _, 1) 0 (upd_total updates)
   + from_option (λ _, 1) 0 (upd_success updates)
   + from_option (λ _, 1) 0 (upd_failed updates))%nat.

(** The result of [refreshToken] for a token that has no row. *)
Definition notFound : TokenRefreshResult :=
  mkTokenRefreshResult false None None (Some "Token not found in database")
    (Some 404).

(** The number of [?] in a statement. *)
Fixpoint placeholders (sql : string) : nat :=
  match sql with
  | EmptyString => 0
  | String c sql' =>
      ((if Ascii.eqb c "?"%char then 1 else 0) + placeholders sql')%nat
  end.

End Refresh.

(** ** Token refresh, the variant that checks the update: the second
    [refreshToken] of src/services/refresh.ts *)
Module RefreshChecked.
Import Grpc Platform Refresh.

Section Calls.
Context {W Settings : Type} `{Platform W Settings}.

(** [refreshToken], with [db.prepare(...).bind(...).run()] and the
    test of [updateResult.meta.changes]. *)
Definition refreshToken (token : string) (tokenType : TokenType)
    (settings : Settings) : M W TokenRefreshResult :=
  tryCatch
    (let cookie := "sso-rw=" +:+ token +:+ ";sso=" +:+ token in
     let model :=
       match tokenType with ssoSuper => "grok-4-heavy" | sso => "grok-3" end in
     limits ← checkRateLimits cookie settings model;
     match limits with
     | None =>
         recordTokenFailure token 500 "Rate limit check failed";;
         mret (mkTokenRefreshResult false None None
                 (Some "Rate limit check failed") (Some 500))
     | Some limits =>
         changes ← prepareBindRun UPDATE_TOKENS
           [SqlNumber (remaining limits); SqlNumber (heavy_remaining limits);
            SqlText token];
         if changes =? 0 then
           mret (mkTokenRefreshResult false None None
                   (Some "Token not found in database") (Some 404))
         else
           (if (remaining limits =? 0)
               || (match tokenType with ssoSuper => true | sso => false end
                   && (heavy_remaining limits =? 0))
            then applyCooldown token 429
            else mret tt);;
           mret (mkTokenRefreshResult true (Some (remaining limits))
                   (Some (heavy_remaining limits)) None None)
     end)
    (λ msg,
       recordTokenFailure token 500 ("Refresh error: " +:+ msg);;
       mret (mkTokenRefreshResult false None None (Some msg) (Some 500))).

End Calls.

End RefreshChecked.

(** * Properties of the codec *)
Module GrpcFacts.
Import JS Grpc.

(** ** 32-bit arithmetic *)

Lemma toInt32_range x : - 2 ^ 31 ≤ toInt32 x < 2 ^ 31.
Proof.
  unfold toInt32. pose proof (Z.mod_pos_bound x (2 ^ 32) eq_refl).
  destruct (Z.ltb_spec (x mod 2 ^ 32) (2 ^ 31)); lia.
Qed.

Lemma toInt32_wrap x : ∃ c, toInt32 x = x + c * 2 ^ 32.
Proof.
  unfold toInt32. pose proof (Z.div_mod x (2 ^ 32) ltac:(lia)) as Hdm.
  destruct (Z.ltb_spec (x mod 2 ^ 32) (2 ^ 31)).
  - exists (- (x / 2 ^ 32)). lia.
  - exists (- (x / 2 ^ 32) - 1). lia.
Qed.

Lemma toInt32_small x : - 2 ^ 31 ≤ x < 2 ^ 31 → toInt32 x = x.
Proof.
  intros Hx. destruct (toInt32_wrap x) as [c Hc].
  pose proof (toInt32_range x). assert (c = 0) by lia. subst c. lia.
Qed.

Lemma toInt32_mod x : toInt32 x mod 2 ^ 32 = x mod 2 ^ 32.
Proof. destruct (toInt32_wrap x) as [c ->]. apply Z_mod_plus_full. Qed.

Lemma land_255 x : Z.land x 255 = x mod 256.
Proof. change 255 with (Z.ones 8). by rewrite Z.land_ones by lia. Qed.

(** [(length >> k) & 0xff], stored in a byte, is byte [k / 8] of
    [length], whatever the sign the 32-bit conversion gives it. *)
Lemma lengthByte x k :
  0 ≤ k ≤ 24 → toUint8 (band (shr x k) 255) = (x / 2 ^ k) mod 256.
Proof.
  intros Hk. unfold toUint8, band, shr.
  rewrite (Z.mod_small k 32), Z.shiftr_div_pow2 by lia.
  pose proof (toInt32_range x) as Hr.
  assert (Hpos : 0 < 2 ^ k) by (apply Z.pow_pos_nonneg; lia).
  assert (Hq : - 2 ^ 31 ≤ toInt32 x / 2 ^ k < 2 ^ 31).
  { split.
    - apply Z.div_le_lower_bound; [lia|]. nia.
    - apply Z.div_lt_upper_bound; [lia|]. nia. }
  rewrite (toInt32_small (toInt32 x / 2 ^ k)) by exact Hq.
  rewrite (toInt32_small 255) by lia.
  rewrite land_255, Z.mod_mod by lia.
  destruct (toInt32_wrap x) as [c ->].
  assert (H32 : c * 2 ^ 32 = (c * 2 ^ (24 - k) * 256) * 2 ^ k).
  { replace 32 with ((24 - k) + 8 + k) by lia.
    rewrite !Z.pow_add_r by lia. change (2 ^ 8) with 256. ring. }
  rewrite H32, Z.div_add by lia. apply Z_mod_plus_full.
Qed.

Lemma lowByte x : toUint8 (band x 255) = x mod 256.
Proof.
  transitivity ((x / 2 ^ 0) mod 256).
  - rewrite <- (lengthByte x 0) by lia. unfold shr, band.
    change (0 mod 32) with 0. rewrite Z.shiftr_0_r.
    by rewrite (toInt32_small (toInt32 x)) by apply toInt32_range.
  - by rewrite Z.pow_0_r, Z.div_1_r.
Qed.

Lemma lor_mod x y n :
  0 ≤ n → Z.lor x y mod 2 ^ n = Z.lor (x mod 2 ^ n) (y mod 2 ^ n).
Proof.
  intros Hn. rewrite <- !Z.land_ones by lia. apply Z.land_lor_distr_l.
Qed.

(** When the low [k] bits of the left operand are clear and the right
    operand fits in them, [|] is addition. *)
Lemma lor_disjoint hi lo k :
  0 ≤ k → 0 ≤ lo < 2 ^ k → Z.lor (hi * 2 ^ k) lo = hi * 2 ^ k + lo.
Proof.
  intros Hk Hlo. rewrite <- Z.add_lor_land.
  assert (Z.land (hi * 2 ^ k) lo = 0) as ->; [|lia].
  apply Z.bits_inj'. intros n Hn.
  rewrite Z.land_spec, Z.bits_0.
  destruct (Z.lt_ge_cases n k).
  - by rewrite Z.mul_pow2_bits_low by lia.
  - rewrite <- (Z.mod_small lo (2 ^ k)) by lia.
    rewrite Z.mod_pow2_bits_high by lia. apply andb_false_r.
Qed.

Lemma toUint32_bor a b : toUint32 (bor a b) = Z.lor (toUint32 a) (toUint32 b).
Proof.
  unfold bor, toUint32. rewrite lor_mod by lia. by rewrite !toInt32_mod.
Qed.

Lemma toUint32_shl b k :
  0 ≤ k < 32 → 0 ≤ b → b * 2 ^ k < 2 ^ 32 → toUint32 (shl b k) = b * 2 ^ k.
Proof.
  intros Hk Hb Hlt. unfold toUint32, shl.
  rewrite toInt32_mod, (Z.mod_small k 32) by lia.
  rewrite Z.shiftl_mul_pow2 by lia.
  destruct (toInt32_wrap b) as [c ->].
  rewrite Z.mul_add_distr_r.
  replace (c * 2 ^ 32 * 2 ^ k) with (c * 2 ^ k * 2 ^ 32) by ring.
  rewrite Z_mod_plus_full. apply Z.mod_small.
  assert (0 < 2 ^ k) by (apply Z.pow_pos_nonneg; lia). nia.
Qed.

(** The length expression of [parseResponse] reads back what
    [encodePayload] wrote. *)
Lemma headerLength n :
  0 ≤ n < 2 ^ 32 →
  ushr0 (bor (bor (bor (shl ((n / 2 ^ 24) mod 256) 24)
                       (shl ((n / 2 ^ 16) mod 256) 16))
                  (shl ((n / 2 ^ 8) mod 256) 8))
             (n mod 256)) = n.
Proof.
  intros Hn. unfold ushr0. rewrite !toUint32_bor.
  assert (Hb : ∀ k, 0 ≤ (n / 2 ^ k) mod 256 < 256)
    by (intros; apply Z.mod_pos_bound; lia).
  pose proof (Hb 24) as H24. pose proof (Hb 16) as H16. pose proof (Hb 8) as H8.
  rewrite !toUint32_shl by lia.
  assert (H0 : 0 ≤ n mod 256 < 256) by (apply Z.mod_pos_bound; lia).
  unfold toUint32. rewrite (Z.mod_small (n mod 256)) by lia.
  set (b1 := (n / 2 ^ 24) mod 256) in *.
  set (b2 := (n / 2 ^ 16) mod 256) in *.
  set (b3 := (n / 2 ^ 8) mod 256) in *.
  rewrite (lor_disjoint b1 (b2 * 2 ^ 16) 24) by lia.
  replace (b1 * 2 ^ 24 + b2 * 2 ^ 16) with ((b1 * 2 ^ 8 + b2) * 2 ^ 16) by ring.
  rewrite (lor_disjoint _ (b3 * 2 ^ 8) 16) by lia.
  replace ((b1 * 2 ^ 8 + b2) * 2 ^ 16 + b3 * 2 ^ 8)
    with (((b1 * 2 ^ 8 + b2) * 2 ^ 8 + b3) * 2 ^ 8) by ring.
  rewrite (lor_disjoint _ (n mod 256) 8) by lia.
  subst b1 b2 b3. clear - Hn. revert Hn.
  change (2 ^ 24) with 16777216. change (2 ^ 16) with 65536.
  change (2 ^ 8) with 256. change (2 ^ 32) with 4294967296.
  Z.div_mod_to_equations. lia.
Qed.

(** ** Typed arrays *)

Lemma typedSet_app pre src rest :
  length rest = length src →
  typedSet (pre ++ rest) src (length pre) = pre ++ src.
Proof.
  revert pre rest. induction src as [|b src IH]; intros pre rest Hlen.
  - by destruct rest.
  - destruct rest as [|r rest]; [done|]. simpl.
    rewrite insert_app_r_alt, Nat.sub_diag by lia. simpl.
    replace (S (length pre)) with (length (pre ++ [b]))
      by (rewrite length_app; simpl; lia).
    rewrite (cons_middle b pre rest), app_assoc.
    rewrite IH by (simpl in Hlen; lia).
    by rewrite <- app_assoc.
Qed.

Lemma at_app_r pre l k : at_ (pre ++ l) (length pre + k) = at_ l k.
Proof. unfold at_. rewrite lookup_app_r by lia. do 2 f_equal. lia. Qed.

Lemma slice_app_mid {A} (pre mid post : list A) :
  slice (pre ++ mid ++ post) (length pre) (length pre + length mid) = mid.
Proof.
  unfold slice. rewrite drop_app_length.
  replace (length pre + length mid - length pre)%nat with (length mid) by lia.
  by rewrite take_app_length.
Qed.

(** ** [encodePayload] *)

Lemma encodePayload_eq (p : list Z) :
  encodePayload p = 0 :: be32 (Z.of_nat (length p)) ++ p.
Proof.
  unfold encodePayload, newUint8Array.
  replace (Z.to_nat (5 + Z.of_nat (length p))) with (5 + length p)%nat by lia.
  cbn [replicate Nat.add]. unfold store. cbn [list_insert insert].
  rewrite !lengthByte, lowByte by lia. change (toUint8 0) with 0.
  apply (typedSet_app [0; _; _; _; _]). by rewrite length_replicate.
Qed.

Lemma be32_bytes n : Forall isByte (be32 n).
Proof.
  unfold be32, isByte. repeat constructor; apply Z.mod_pos_bound; lia.
Qed.

Lemma beValue_be32 n : 0 ≤ n < 2 ^ 32 → beValue (be32 n) = n.
Proof.
  intros Hn. unfold beValue, be32. cbn [foldl]. revert Hn.
  change (2 ^ 24) with 16777216. change (2 ^ 16) with 65536.
  change (2 ^ 8) with 256. change (2 ^ 32) with 4294967296.
  Z.div_mod_to_equations. lia.
Qed.

(** C6. Every payload is encoded as one frame: the flag byte 0, four
    bytes that are the big-endian writing of its length (of the length
    itself as long as it is below 2^32, which is all four bytes can
    hold), then the payload; [encodePayload([1,2,3])] is
    [00 00 00 00 03 01 02 03]. *)
Theorem encodePayload_frame (p : list Z) :
  encodePayload p = [0] ++ be32 (Z.of_nat (length p)) ++ p
  ∧ length (be32 (Z.of_nat (length p))) = 4%nat
  ∧ Forall isByte (be32 (Z.of_nat (length p)))
  ∧ (Z.of_nat (length p) < 2 ^ 32 →
     beValue (be32 (Z.of_nat (length p))) = Z.of_nat (length p))
  ∧ encodePayload [1; 2; 3] = [0; 0; 0; 0; 3; 1; 2; 3].
Proof.
  split_and!.
  - apply encodePayload_eq.
  - done.
  - apply be32_bytes.
  - intros Hlen. apply beValue_be32. lia.
  - done.
Qed.

Lemma encodePayload_frame_witness :
  Z.of_nat (length [7; 8]) < 2 ^ 32
  ∧ beValue (be32 (Z.of_nat (length [7; 8]))) = Z.of_nat (length [7; 8]).
Proof.
  split; [done|].
  pose proof (encodePayload_frame [7; 8]) as (_ & _ & _ & Hvalue & _).
  by apply Hvalue.
Defined.

(** ** [parseResponse] on encoded frames *)
Section ParseFacts.
Context `{Builtins}.

(** One iteration of the loop on a message frame. *)
Lemma parseFrames_step fuel decoded i msgs trs p :
  (i + 5 + length p ≤ length decoded)%nat →
  at_ decoded i = 0 →
  ushr0 (bor (bor (bor (shl (at_ decoded (i + 1)) 24)
                       (shl (at_ decoded (i + 2)) 16))
                  (shl (at_ decoded (i + 3)) 8))
             (at_ decoded (i + 4))) = Z.of_nat (length p) →
  slice decoded (i + 5) (i + 5 + length p) = p →
  parseFrames (S fuel) decoded i msgs trs =
  parseFrames fuel decoded (i + 5 + length p) (msgs ++ [p]) trs.
Proof.
  intros Hn Hflag Hhdr Hpay. cbn [parseFrames].
  rewrite decide_True by lia. rewrite decide_False by lia.
  rewrite Hflag, Hhdr.
  rewrite decide_False by lia.
  change (band 0 128 =? 0) with true. change (band 0 1 =? 0) with true.
  cbn [negb]. by rewrite Nat2Z.id, Hpay.
Qed.

Lemma parseFrames_message fuel pre p post msgs trs :
  Z.of_nat (length p) < 2 ^ 32 →
  parseFrames (S fuel) (pre ++ encodePayload p ++ post) (length pre) msgs trs =
  parseFrames fuel (pre ++ encodePayload p ++ post)
    (length (pre ++ encodePayload p)) (msgs ++ [p]) trs.
Proof.
  intros Hlen. rewrite encodePayload_eq.
  set (hdr := 0 :: be32 (Z.of_nat (length p))).
  change (0 :: be32 (Z.of_nat (length p)) ++ p) with (hdr ++ p).
  assert (Hat : ∀ k, at_ (pre ++ (hdr ++ p) ++ post) (length pre + k)
                     = at_ (hdr ++ p ++ post) k).
  { intros k. rewrite <- (app_assoc hdr). apply at_app_r. }
  replace (length (pre ++ hdr ++ p)) with (length pre + 5 + length p)%nat
    by (rewrite !length_app; simpl; lia).
  apply parseFrames_step.
  - rewrite !length_app. simpl. lia.
  - by rewrite <- (Nat.add_0_r (length pre)), Hat.
  - rewrite !Hat. unfold hdr, be32, at_.
    cbn [app lookup list_lookup default].
    apply headerLength. lia.
  - rewrite <- (app_assoc hdr), (app_assoc pre hdr).
    replace (length pre + 5)%nat with (length (pre ++ hdr))
      by (rewrite length_app; simpl; lia).
    apply slice_app_mid.
Qed.

(** The loop over a sequence of encoded frames, with any fuel above
    the number of frames. *)
Lemma parseFrames_messages ps : ∀ fuel pre msgs trs,
  Forall (λ p, Z.of_nat (length p) < 2 ^ 32) ps →
  (length ps < fuel)%nat →
  parseFrames fuel (pre ++ concat (encodePayload <$> ps)) (length pre) msgs trs
  = Some (Returned (mkParsed (msgs ++ ps) trs)).
Proof.
  induction ps as [|p ps IH]; intros fuel pre msgs trs Hall Hfuel.
  - destruct fuel as [|fuel]; [simpl in Hfuel; lia|].
    simpl. rewrite !app_nil_r. by rewrite decide_False by lia.
  - destruct fuel as [|fuel]; [simpl in Hfuel; lia|].
    inversion Hall as [|? ? Hp Hps]; subst.
    rewrite fmap_cons. cbn [concat].
    rewrite parseFrames_message by done.
    rewrite (app_assoc pre).
    rewrite IH by (done || simpl in Hfuel; lia).
    by rewrite <- app_assoc.
Qed.

Lemma frames_length ps :
  (length ps ≤ length (concat (encodePayload <$> ps)))%nat.
Proof.
  induction ps as [|p ps IH]; [done|].
  rewrite fmap_cons. cbn [concat]. rewrite length_app, encodePayload_eq.
  simpl. lia.
Qed.

(** C10. Without the text content type and without headers,
    [parseResponse] returns the payload of an encoded frame as its only
    message, and the payloads of a concatenation of encoded frames as
    the messages in the order of the input, each time with no trailer;
    it does not throw. *)
Theorem parseResponse_encodePayload (contentType : option string) :
  isGrpcWebText contentType = false →
  (∀ p, Z.of_nat (length p) < 2 ^ 32 →
     parseResponse (encodePayload p) contentType None
     = Some (Returned (mkParsed [p] ∅)))
  ∧ (∀ ps, Forall (λ p, Z.of_nat (length p) < 2 ^ 32) ps →
     parseResponse (concat (encodePayload <$> ps)) contentType None
     = Some (Returned (mkParsed ps ∅))).
Proof.
  intros Hct.
  assert (Hmany : ∀ ps, Forall (λ p, Z.of_nat (length p) < 2 ^ 32) ps →
     parseResponse (concat (encodePayload <$> ps)) contentType None
     = Some (Returned (mkParsed ps ∅))).
  { intros ps Hps. unfold parseResponse. rewrite Hct.
    pose proof (parseFrames_messages ps
      (S (length (concat (encodePayload <$> ps)))) [] [] ∅ Hps) as Hrun.
    cbn [app length] in Hrun. rewrite Hrun by (pose proof (frames_length ps); lia).
    done. }
  split; [|exact Hmany].
  intros p Hp. assert (Hps : Forall (λ p, Z.of_nat (length p) < 2 ^ 32) [p])
    by (by constructor).
  specialize (Hmany [p] Hps).
  by rewrite fmap_cons, fmap_nil, concat_cons, concat_nil, app_nil_r in Hmany.
Qed.

End ParseFacts.

Lemma parseResponse_encodePayload_witness :
  @isGrpcWebText plainBuiltins None = false
  ∧ @parseResponse plainBuiltins (encodePayload [1; 2; 3]) None None
    = Some (Returned (mkParsed [[1; 2; 3]] ∅)).
Proof.
  split; [done|].
  apply (@parseResponse_encodePayload plainBuiltins None eq_refl). done.
Defined.

(** ** [getStatus] *)

Lemma digitValue_pretty (d : N) :
  (d < 10)%N → digitValue (pretty_N_char d) = Some (Z.of_N d).
Proof.
  intros Hd.
  assert (d = 0 ∨ d = 1 ∨ d = 2 ∨ d = 3 ∨ d = 4 ∨ d = 5 ∨ d = 6 ∨ d = 7
          ∨ d = 8 ∨ d = 9)%N as Hcases by lia.
  by repeat destruct Hcases as [->|Hcases]; subst.
Qed.

(** Reading the digits that [pretty_N_go] puts in front of [s]. *)
Lemma digitsValue_pretty_go (x : N) : ∀ s acc,
  (0 < x)%N →
  ∃ k, 0 ≤ k ∧
    digitsValue (pretty_N_go x s) acc
    = digitsValue s (Some (default 0 acc * 10 ^ k + Z.of_N x)).
Proof.
  induction (N.lt_wf_0 x) as [x _ IH]. intros s acc Hx.
  rewrite pretty_N_go_step by done.
  assert (Hmod : (x `mod` 10 < 10)%N) by (apply N.mod_lt; lia).
  destruct (decide (x `div` 10 = 0)%N) as [Hz|Hnz].
  - assert (Hx10 : (x < 10)%N) by (apply N.div_small_iff; lia).
    rewrite Hz, pretty_N_go_0, N.mod_small by done. cbn [digitsValue].
    rewrite digitValue_pretty by done. exists 1. split; [lia|].
    do 2 f_equal. rewrite Z.pow_1_r. lia.
  - destruct (IH (x `div` 10)%N) with
      (s := String (pretty_N_char (x `mod` 10)) s) (acc := acc)
      as (k & Hk & ->).
    + apply N.div_lt; lia.
    + by apply N.neq_0_lt_0.
    + cbn [digitsValue]. rewrite digitValue_pretty by done.
      exists (k + 1). split; [lia|]. do 2 f_equal. cbn [default].
      rewrite Z.pow_add_r, Z.pow_1_r by lia.
      pose proof (N.div_mod x 10 ltac:(lia)) as Hdm.
      apply (f_equal Z.of_N) in Hdm.
      rewrite N2Z.inj_add, N2Z.inj_mul in Hdm. change (Z.of_N 10) with 10 in Hdm.
      unfold id. rewrite Hdm. ring.
Qed.

Lemma pretty_N_go_head (x : N) : ∀ s,
  (0 < x)%N → ∃ d rest, (d < 10)%N ∧ pretty_N_go x s = String (pretty_N_char d) rest.
Proof.
  induction (N.lt_wf_0 x) as [x _ IH]. intros s Hx.
  rewrite pretty_N_go_step by done.
  destruct (decide (x `div` 10 = 0)%N) as [Hz|Hnz].
  - rewrite Hz, pretty_N_go_0. exists (x `mod` 10)%N, s.
    split; [apply N.mod_lt; lia|done].
  - apply IH; [apply N.div_lt; lia|by apply N.neq_0_lt_0].
Qed.

Lemma parseInt10_digits (d : N) rest :
  (d < 10)%N →
  parseInt10 (String (pretty_N_char d) rest)
  = digitsValue (String (pretty_N_char d) rest) None.
Proof.
  intros Hd.
  assert (d = 0 ∨ d = 1 ∨ d = 2 ∨ d = 3 ∨ d = 4 ∨ d = 5 ∨ d = 6 ∨ d = 7
          ∨ d = 8 ∨ d = 9)%N as Hcases by lia.
  by repeat destruct Hcases as [->|Hcases]; subst.
Qed.

Lemma digitsValue_pretty_N (p : positive) :
  digitsValue (pretty (N.pos p)) None = Some (Z.pos p).
Proof.
  unfold pretty, pretty_N. rewrite decide_False by done.
  destruct (digitsValue_pretty_go (N.pos p) EmptyString None) as (k & _ & ->);
    [lia|]. done.
Qed.

(** [parseInt] reads back the decimal writing of an integer. *)
Lemma parseInt10_pretty (c : Z) : parseInt10 (pretty c) = Some c.
Proof.
  destruct c as [|p|p]; [done|..].
  - change (pretty (Z.pos p)) with (pretty (N.pos p)).
    pose proof (digitsValue_pretty_N p) as Hd.
    unfold pretty, pretty_N in *. rewrite decide_False in * by done.
    destruct (pretty_N_go_head (N.pos p) EmptyString) as (d & rest & Hlt & Hs);
      [lia|].
    rewrite Hs in *. by rewrite parseInt10_digits.
  - change (pretty (Z.neg p)) with (String "-" (pretty (N.pos p))).
    change (parseInt10 (String "-" (pretty (N.pos p))))
      with (Z.opp <$> digitsValue (pretty (N.pos p)) None).
    by rewrite digitsValue_pretty_N.
Qed.

Lemma httpEquivMap_lookup c : default 502 (httpEquivMap !! c) = httpEquivOf c.
Proof.
  unfold httpEquivMap, httpEquivOf. cbn [list_to_map foldr uncurry].
  repeat (rewrite lookup_insert; case_decide; [subst; by vm_compute|];
          rewrite decide_False by done).
  by rewrite lookup_empty.
Qed.

(** For the decimal writing of a code other than 0, [getStatus] follows
    the specification; for 0 it answers as for a missing status. *)
Lemma getStatus_decimal (trailers : gmap string string) (c : Z) :
  trailers !! "grpc-status" = Some (pretty c) →
  getStatus trailers
  = (if decide (c = 0)
     then mkGrpcStatus (-1) (default EmptyString (trailers !! "grpc-message")) true 502
     else mkGrpcStatus c (default EmptyString (trailers !! "grpc-message"))
            (bool_decide (c = -1)) (httpEquivOf c)).
Proof.
  intros Hst. unfold getStatus. rewrite Hst.
  change (default "-1" (Some (pretty c))) with (pretty c).
  rewrite parseInt10_pretty. unfold orElse. case_decide as Hc.
  - subst. done.
  - rewrite (proj2 (Z.eqb_neq c 0)) by done. rewrite httpEquivMap_lookup.
    f_equal. rewrite (proj2 (Z.eqb_neq c 0)) by done. simpl.
    case_bool_decide as Hm; [by subst|]. by apply Z.eqb_neq.
Qed.


(** C2. On the trailers [grpc-status: 0], [grpc-message: ok] the code
    returns the code -1 and the HTTP equivalent 502, where the
    specification has the code 0 and 200: [parseInt("0", 10) || -1]
    is -1, since 0 is falsy. *)
Theorem getStatus_status_zero :
  getStatus (<["grpc-status" := "0"]> (<["grpc-message" := "ok"]> ∅))
  = {| code := -1; message := "ok"; ok := true; httpEquiv := 502 |}.
Proof. reflexivity. Qed.

End GrpcFacts.

(** * Properties of a batch task *)
Module TaskFacts.
Import Batch.

Section Facts.
Context {J : Type}.
Implicit Types (t : BatchTask J) (h : Heap J) (event : BatchEvent J).

(** ** Queues *)

Lemma push_length handle event h : length (push handle event h) = length h.
Proof.
  unfold push. destruct (h !! handle); [|done].
  case_decide; [|done]. by rewrite length_insert.
Qed.

Lemma push_lookup_ne handle handle' event h :
  handle ≠ handle' → push handle event h !! handle' = h !! handle'.
Proof.
  intros Hne. unfold push. destruct (h !! handle); [|done].
  case_decide; [|done]. by rewrite list_lookup_insert_ne.
Qed.

Lemma push_lookup_eq handle event h queue :
  h !! handle = Some queue →
  push handle event h !! handle
  = Some (if decide (length queue < queueCapacity)%nat then queue ++ [event]
          else queue).
Proof.
  intros Hq. unfold push. rewrite Hq. case_decide; [|done].
  apply list_lookup_insert_eq. by eapply lookup_lt_Some.
Qed.

Lemma pushes_length event (qs : list Handle) h :
  length (foldl (λ h handle, push handle event h) h qs) = length h.
Proof.
  revert h. induction qs as [|x qs IH]; intros h; [done|].
  simpl. by rewrite IH, push_length.
Qed.

Lemma pushes_lookup_notin event (qs : list Handle) h handle :
  handle ∉ qs →
  foldl (λ h handle, push handle event h) h qs !! handle = h !! handle.
Proof.
  revert h. induction qs as [|x qs IH]; intros h Hnotin; [done|].
  apply not_elem_of_cons in Hnotin as [Hne Hnotin]. simpl.
  rewrite IH by done. by apply push_lookup_ne.
Qed.

Lemma pushes_lookup_in event (qs : list Handle) h handle queue :
  NoDup qs → handle ∈ qs → h !! handle = Some queue →
  foldl (λ h handle, push handle event h) h qs !! handle
  = Some (if decide (length queue < queueCapacity)%nat then queue ++ [event]
          else queue).
Proof.
  revert h. induction qs as [|x qs IH]; intros h Hnd Hin Hq.
  { by apply elem_of_nil in Hin. }
  apply NoDup_cons in Hnd as [Hx Hnd]. simpl.
  destruct (decide (x = handle)) as [->|Hne].
  - rewrite pushes_lookup_notin by done. by apply push_lookup_eq.
  - apply elem_of_cons in Hin as [?|Hin]; [congruence|].
    apply IH; [done..|]. by rewrite push_lookup_ne.
Qed.

Lemma publish_length event t h : length (publish event t h) = length h.
Proof. apply pushes_length. Qed.

Lemma publish_lookup_notin event t h handle :
  handle ∉ queues t → publish event t h !! handle = h !! handle.
Proof. apply pushes_lookup_notin. Qed.

Lemma publish_lookup_in event t h handle queue :
  NoDup (queues t) → handle ∈ queues t → h !! handle = Some queue →
  publish event t h !! handle
  = Some (if decide (length queue < queueCapacity)%nat then queue ++ [event]
          else queue).
Proof. apply pushes_lookup_in. Qed.

Lemma publishAll_length es t h : length (publishAll es t h) = length h.
Proof.
  revert h. induction es as [|e es IH]; intros h; [done|].
  unfold publishAll in *. simpl. by rewrite IH, publish_length.
Qed.

Lemma publishAll_lookup_notin es t h handle :
  handle ∉ queues t → publishAll es t h !! handle = h !! handle.
Proof.
  intros Hnotin. revert h. induction es as [|e es IH]; intros h; [done|].
  unfold publishAll in *. simpl. by rewrite IH, publish_lookup_notin.
Qed.

Lemma publishAll_lookup_in es t h handle queue :
  NoDup (queues t) → handle ∈ queues t → h !! handle = Some queue →
  publishAll es t h !! handle
  = Some (queue ++ take (queueCapacity - length queue) es).
Proof.
  intros Hnd Hin. revert h queue.
  induction es as [|e es IH]; intros h queue Hq.
  - by rewrite take_nil, app_nil_r.
  - unfold publishAll in *. simpl.
    erewrite IH; [|by apply publish_lookup_in].
    f_equal. case_decide as Hlen.
    + rewrite length_app. simpl.
      replace (queueCapacity - length queue)%nat
        with (S (queueCapacity - (length queue + 1))) by lia.
      by rewrite <- app_assoc.
    + replace (queueCapacity - length queue)%nat with 0%nat by lia. done.
Qed.

(** [attach] keeps the handles distinct and allocated; [detach] too. *)
Lemma attach_wf t h :
  wfQueues t h → wfQueues (attach t h).1.2 (attach t h).2.
Proof.
  intros [Hnd Hlt]. unfold attach, wfQueues. simpl. split.
  - apply NoDup_app. split_and!; [done| |apply NoDup_singleton].
    intros x Hx Hx'. apply list_elem_of_singleton in Hx' as ->.
    rewrite Forall_forall in Hlt. specialize (Hlt _ Hx). lia.
  - rewrite length_app. simpl. apply Forall_app. split.
    + eapply Forall_impl; [exact Hlt|]. simpl. lia.
    + repeat constructor. lia.
Qed.

Lemma newBatchTask_wf total uuid now h :
  wfQueues (@newBatchTask J total uuid now) h.
Proof. split; [apply NoDup_nil_2 | apply Forall_nil_2]. Qed.

Lemma indexOf_lookup handle (qs : list Handle) idx :
  indexOf handle qs = Some idx → qs !! idx = Some handle.
Proof.
  revert idx. induction qs as [|x qs IH]; intros idx; [done|].
  simpl. case_decide as Hx; [by intros [= <-]; subst|].
  destruct (indexOf handle qs) as [i|]; [|done]. intros [= <-]. by apply IH.
Qed.

Lemma indexOf_None handle (qs : list Handle) :
  indexOf handle qs = None ↔ handle ∉ qs.
Proof.
  induction qs as [|x qs IH]; simpl.
  - split; [intros _; apply not_elem_of_nil | done].
  - case_decide as Hx.
    + subst. split; [done|]. intros Hn. destruct Hn. apply list_elem_of_here.
    + rewrite not_elem_of_cons. destruct (indexOf handle qs); simpl.
      * split; [done|]. intros [_ Hn]. by apply IH in Hn.
      * split; [|done]. intros _. split; [congruence|]. by apply IH.
Qed.

Lemma elem_of_delete_NoDup (qs : list Handle) idx x :
  NoDup qs → qs !! idx = Some x → ∀ y, y ∈ delete idx qs ↔ y ∈ qs ∧ y ≠ x.
Proof.
  revert idx. induction qs as [|z qs IH]; intros idx Hnd Hidx y; [done|].
  apply NoDup_cons in Hnd as [Hz Hnd].
  destruct idx as [|idx]; simpl in *.
  - injection Hidx as ->. rewrite elem_of_cons. split.
    + intros Hy. split; [by right|]. intros ->. done.
    + intros [[->|Hy] Hne]; done.
  - rewrite !elem_of_cons, (IH idx Hnd Hidx y). split.
    + intros [->|[Hy Hne]]; [|by split; [right|]].
      split; [by left|]. intros ->. apply Hz.
      apply list_elem_of_lookup. eauto.
    + intros [[->|Hy] Hne]; [by left|by right].
Qed.

Lemma detach_queues handle t :
  NoDup (queues t) →
  ∀ y, y ∈ queues (detach handle t) ↔ y ∈ queues t ∧ y ≠ handle.
Proof.
  intros Hnd y. unfold detach.
  destruct (indexOf handle (queues t)) as [idx|] eqn:Hidx.
  - simpl. apply elem_of_delete_NoDup; [done|]. by apply indexOf_lookup.
  - apply indexOf_None in Hidx. split; [|by intros []].
    intros Hy. split; [done|]. by intros ->.
Qed.

Lemma detach_wf handle t h : wfQueues t h → wfQueues (detach handle t) h.
Proof.
  intros [Hnd Hlt]. unfold detach.
  destruct (indexOf handle (queues t)) as [idx|] eqn:Hidx; [|done].
  split; simpl.
  - apply (sublist_NoDup _ (queues t)); [done|apply sublist_delete].
  - rewrite Forall_forall in *. intros x Hx. apply Hlt.
    eapply (elem_of_delete_NoDup _ _ _ Hnd (indexOf_lookup _ _ _ Hidx)), Hx.
Qed.

(** C7. Publishing to a task whose handles are distinct: every attached
    queue receives the events in the order of emission, up to its
    capacity of 200 (which lies in the range 200..1000) and never
    beyond it, whatever the state of the other queues; an event that
    finds the queue full is dropped for that queue only and the
    producer goes on; queues that are not attached are left alone. A
    handle attached later starts empty and ends with the first 200
    events published after it attached, and its presence changes
    nothing for the others. *)
Theorem publish_bounded_fifo t h es :
  wfQueues t h →
  length (publishAll es t h) = length h
  ∧ (∀ handle queue, handle ∈ queues t → h !! handle = Some queue →
       publishAll es t h !! handle
       = Some (queue ++ take (queueCapacity - length queue) es)
       ∧ ((length queue ≤ queueCapacity)%nat →
          (length (queue ++ take (queueCapacity - length queue) es)
           ≤ queueCapacity)%nat))
  ∧ (∀ handle, handle ∉ queues t → publishAll es t h !! handle = h !! handle)
  ∧ (200 ≤ queueCapacity ≤ 1000)%nat
  ∧ (∀ handle' t' h', attach t h = (handle', t', h') →
       wfQueues t' h'
       ∧ queues t' = queues t ++ [handle']
       ∧ h' !! handle' = Some []
       ∧ publishAll es t' h' !! handle' = Some (take queueCapacity es)
       ∧ ∀ handle queue, handle ∈ queues t → h !! handle = Some queue →
           publishAll es t' h' !! handle
           = Some (queue ++ take (queueCapacity - length queue) es)).
Proof.
  intros Hwf. pose proof Hwf as [Hnd Hlt]. split_and!.
  - apply publishAll_length.
  - intros handle queue Hin Hq. split; [by apply publishAll_lookup_in|].
    rewrite length_app, length_take. lia.
  - intros handle. apply publishAll_lookup_notin.
  - unfold queueCapacity. lia.
  - unfold queueCapacity. lia.
  - intros handle' t' h' Hatt.
    pose proof (attach_wf t h Hwf) as Hwf'. rewrite Hatt in Hwf'.
    simpl in Hwf'. destruct Hwf' as [Hnd' Hlt'].
    unfold attach in Hatt. simplify_eq.
    assert (Hnew : (h ++ [[]]) !! length h = Some (@nil (BatchEvent J))).
    { rewrite lookup_app_r, Nat.sub_diag by lia. done. }
    split; [by split|]. split_and!; [done|done|..].
    + rewrite (publishAll_lookup_in es _ _ (length h) []); [done|done|..|done].
      simpl. apply elem_of_app. right. apply list_elem_of_here.
    + intros handle queue Hin Hq.
      apply publishAll_lookup_in; [done|..].
      * simpl. apply elem_of_app. by left.
      * rewrite lookup_app_l; [done|]. by eapply lookup_lt_Some.
Qed.

(** ** Counters *)

Lemma record_counters success opts t h :
  let t' := (record success opts t h).1 in
  id t' = id t ∧ total t' = total t ∧ queues t' = queues t
  ∧ processed t' = processed t + 1
  ∧ ok t' = ok t + (if success then 1 else 0)
  ∧ fail t' = fail t + (if success then 0 else 1).
Proof. destruct success; simpl; split_and!; (done || lia). Qed.

Lemma records_app cs1 cs2 t h :
  records (cs1 ++ cs2) t h
  = records cs2 (records cs1 t h).1 (records cs1 t h).2.
Proof.
  unfold records. rewrite foldl_app. by destruct (foldl _ (t, h) cs1).
Qed.

Lemma records_counters cs : ∀ t h,
  let t' := (records cs t h).1 in
  total t' = total t
  ∧ processed t' = processed t + Z.of_nat (length cs)
  ∧ ok t ≤ ok t' ∧ fail t ≤ fail t'
  ∧ ok t' + fail t' - processed t' = ok t + fail t - processed t.
Proof.
  induction cs as [|[success opts] cs IH]; intros t h.
  - simpl. lia.
  - change (records ((success, opts) :: cs) t h)
      with (records cs (record success opts t h).1 (record success opts t h).2).
    specialize (IH (record success opts t h).1 (record success opts t h).2).
    pose proof (record_counters success opts t h) as Hr.
    simpl in *. destruct success; simpl in *; lia.
Qed.

(** C3 (amended). Starting from a task whose counters satisfy
    [ok + fail = processed] (a new task does), any sequence of [record]
    calls keeps that equation, never changes [total], and never
    decreases [processed], [ok] or [fail] from one point of the
    sequence to a later one. [processed] grows by one at each call:
    it stays at most [total] exactly as long as no more calls are made
    than [total] leaves room for. *)
Theorem record_invariant t h cs1 cs2 :
  ok t + fail t = processed t →
  let t1 := (records cs1 t h).1 in
  let t2 := (records (cs1 ++ cs2) t h).1 in
  ok t2 + fail t2 = processed t2
  ∧ total t2 = total t
  ∧ processed t1 ≤ processed t2 ∧ ok t1 ≤ ok t2 ∧ fail t1 ≤ fail t2
  ∧ processed t2 = processed t + Z.of_nat (length (cs1 ++ cs2))
  ∧ (processed t2 ≤ total t2
     ↔ processed t + Z.of_nat (length (cs1 ++ cs2)) ≤ total t).
Proof.
  intros Hinv t1 t2. subst t1 t2. rewrite records_app.
  pose proof (records_counters cs1 t h) as H1.
  pose proof (records_counters cs2 (records cs1 t h).1 (records cs1 t h).2)
    as H2.
  rewrite length_app. simpl in *. lia.
Qed.

(** ** Terminal transitions *)

Lemma terminalEvent_core c t t' :
  sameCore t t' → terminalEvent c t' = terminalEvent c t.
Proof.
  intros (Hid & Htot & Hp & Hok & Hf & _).
  destruct c; simpl; by rewrite Hid, Htot, Hp, Hok, Hf.
Qed.

Lemma publishAll_core es t t' h :
  queues t' = queues t → publishAll es t' h = publishAll es t h.
Proof.
  intros Hq. unfold publishAll, publish. by rewrite Hq.
Qed.

Lemma terminal_spec c t h :
  let t' := (terminal c t h).1 in
  sameCore t t' ∧ status t' = terminalStatus c
  ∧ finalEvent t' = Some (terminalEvent c t)
  ∧ (terminal c t h).2 = publish (terminalEvent c t) t h
  ∧ payloadStored c t'.
Proof. by destruct c. Qed.

Lemma terminals_snoc cs c t h :
  terminals (cs ++ [c]) t h
  = terminal c (terminals cs t h).1 (terminals cs t h).2.
Proof. unfold terminals. by rewrite foldl_app. Qed.

Lemma terminals_core cs : ∀ t h,
  sameCore t (terminals cs t h).1
  ∧ (terminals cs t h).2 = publishAll ((λ c, terminalEvent c t) <$> cs) t h.
Proof.
  induction cs as [|c cs IH] using rev_ind; intros t h.
  - done.
  - rewrite terminals_snoc. destruct (IH t h) as [Hcore Hheap].
    pose proof (terminal_spec c (terminals cs t h).1 (terminals cs t h).2)
      as (Hcore' & _ & _ & Hpub & _).
    split.
    + unfold sameCore in *. simpl in *. intuition congruence.
    + rewrite Hpub, Hheap, fmap_app. unfold publishAll at 2.
      rewrite foldl_app. simpl.
      rewrite (terminalEvent_core c t) by done.
      unfold publish. by destruct Hcore as (_ & _ & _ & _ & _ & ->).
Qed.

(** C4 (amended). The terminal transitions carry no guard: whatever the
    status of the task, terminal or not, [finish], [failTask] and
    [finishCancelled] set the status to their own value, store their
    payload, replace the cached final event by the event they build,
    and broadcast it. After any sequence of such calls the status, the
    payload and the final event are those of the last call, and every
    call of the sequence was broadcast. *)
Theorem terminal_last_call_wins t h cs c :
  let r := terminals (cs ++ [c]) t h in
  status r.1 = terminalStatus c
  ∧ isTerminalStatus (status r.1) = true
  ∧ payloadStored c r.1
  ∧ finalEvent r.1 = Some (terminalEvent c t)
  ∧ r.2 = publishAll ((λ c, terminalEvent c t) <$> (cs ++ [c])) t h
  ∧ id r.1 = id t ∧ total r.1 = total t ∧ processed r.1 = processed t
  ∧ ok r.1 = ok t ∧ fail r.1 = fail t ∧ queues r.1 = queues t.
Proof.
  intros r. subst r.
  destruct (terminals_core (cs ++ [c]) t h) as [Hcore Hheap].
  rewrite terminals_snoc in *.
  destruct (terminals_core cs t h) as [Hcs _].
  pose proof (terminal_spec c (terminals cs t h).1 (terminals cs t h).2)
    as (_ & Hst & Hfin & _ & Hpay).
  simpl in Hst, Hfin, Hpay. rewrite Hst, Hfin.
  rewrite (terminalEvent_core c t) by done.
  destruct Hcore as (? & ? & ? & ? & ? & ?).
  split_and!; try done. by destruct c.
Qed.

End Facts.

(** C3, as stated, fails: a task created for one item on which [record]
    is called twice has [processed = 2 > 1 = total]. *)
Lemma record_twice_exceeds_total :
  ¬ (processed (records [(true, None); (false, None)]
                  (newBatchTask (J := unit) 1 "7c9e" 0) []).1
     ≤ total (records [(true, None); (false, None)]
                (newBatchTask (J := unit) 1 "7c9e" 0) []).1).
Proof. cbv. intros H. apply H. reflexivity. Qed.

Lemma record_invariant_witness :
  ok (newBatchTask (J := unit) 2 "7c9e" 0)
  + fail (newBatchTask (J := unit) 2 "7c9e" 0)
  = processed (newBatchTask (J := unit) 2 "7c9e" 0)
  ∧ processed (records ([(true, None)] ++ [(false, None)])
                 (newBatchTask (J := unit) 2 "7c9e" 0) []).1 = 2.
Proof.
  split; [reflexivity|].
  pose proof (record_invariant (newBatchTask (J := unit) 2 "7c9e" 0) []
                [(true, None)] [(false, None)] eq_refl) as Hw.
  apply Hw.
Defined.

(** C4, as stated, fails: on a task with one subscriber, [failTask]
    followed by [finish] moves the status from [Error] to [Done],
    replaces the final event and broadcasts a second terminal event. *)
Lemma finish_after_failTask_not_guarded :
  let t0 := (attach (newBatchTask (J := unit) 1 "7c9e" 0) []).1.2 in
  let h0 := (attach (newBatchTask (J := unit) 1 "7c9e" 0) []).2 in
  let r1 := failTask "boom" t0 h0 in
  let r2 := finish tt None r1.1 r1.2 in
  status r1.1 = Error ∧ status r2.1 = Done
  ∧ finalEvent r2.1 ≠ finalEvent r1.1
  ∧ r2.2 ≠ r1.2.
Proof. cbv. split_and!; done. Qed.

Lemma publish_bounded_fifo_witness :
  wfQueues (attach (newBatchTask (J := unit) 1 "7c9e" 0) []).1.2
           (attach (newBatchTask (J := unit) 1 "7c9e" 0) []).2
  ∧ length (publishAll [BatchCancelledEvent "7c9e" 1 0 0 0]
      (attach (newBatchTask (J := unit) 1 "7c9e" 0) []).1.2
      (attach (newBatchTask (J := unit) 1 "7c9e" 0) []).2) = 1%nat.
Proof.
  assert (Hwf : wfQueues (attach (newBatchTask (J := unit) 1 "7c9e" 0) []).1.2
                  (attach (newBatchTask (J := unit) 1 "7c9e" 0) []).2).
  { apply attach_wf, newBatchTask_wf. }
  split; [exact Hwf|].
  apply (publish_bounded_fifo _ _ [BatchCancelledEvent "7c9e" 1 0 0 0] Hwf).
Defined.

End TaskFacts.

(** * Properties of the task registry *)
Module RegistryFacts.
Import Batch.

Section Facts.
Context {J : Type}.
Implicit Types (reg : Registry J) (c : RegistryCall J).

Lemma calls_snoc cs c reg : calls (cs ++ [c]) reg = call c (calls cs reg).
Proof. unfold calls. by rewrite foldl_app. Qed.

Lemma call_keeps_lookup taskId c reg :
  keeps taskId c → getTask taskId (call c reg) = getTask taskId reg.
Proof.
  unfold getTask. destruct c as [total uuid now| |taskId'|ref f]; simpl.
  - intros Hne. by rewrite lookup_insert_ne.
  - done.
  - intros Hne. by rewrite lookup_delete_ne.
  - done.
Qed.

Lemma call_keeps_object taskId c reg ref :
  keeps taskId c →
  id <$> objects reg !! ref = Some taskId →
  id <$> objects (call c reg) !! ref = Some taskId.
Proof.
  destruct c as [total uuid now| |taskId'|ref' f]; simpl; try done.
  - intros _ Hid. destruct (objects reg !! ref) as [t|] eqn:Ht; [|done].
    by rewrite (lookup_app_l_Some _ _ _ _ Ht).
  - intros Hf Hid. destruct (decide (ref' = ref)) as [->|Hne].
    + rewrite list_lookup_alter_eq.
      destruct (objects reg !! ref) as [t|]; [|done]. simpl in *.
      by rewrite Hf.
    + by rewrite list_lookup_alter_ne.
Qed.

Lemma calls_keep taskId cs : ∀ reg ref,
  Forall (keeps taskId) cs →
  getTask taskId (calls cs reg) = getTask taskId reg
  ∧ (id <$> objects reg !! ref = Some taskId →
     id <$> objects (calls cs reg) !! ref = Some taskId).
Proof.
  induction cs as [|c cs IH] using rev_ind; intros reg ref Hall; [done|].
  apply Forall_app in Hall as [Hcs Hc]. rewrite Forall_singleton in Hc.
  rewrite calls_snoc. destruct (IH reg ref Hcs) as [Hget Hobj]. split.
  - by rewrite call_keeps_lookup.
  - intros Hid. by apply (call_keeps_object taskId), Hobj.
Qed.

Lemma calls_notCreating taskId cs : ∀ reg,
  Forall (notCreating taskId) cs →
  getTask taskId reg = None → getTask taskId (calls cs reg) = None.
Proof.
  induction cs as [|c cs IH] using rev_ind; intros reg Hall Hnone; [done|].
  apply Forall_app in Hall as [Hcs Hc]. rewrite Forall_singleton in Hc.
  rewrite calls_snoc. specialize (IH reg Hcs Hnone).
  unfold getTask in *. destruct c as [total uuid now| |taskId'|ref f]; simpl.
  - by rewrite lookup_insert_ne.
  - done.
  - destruct (decide (taskId' = taskId)) as [->|Hne].
    + apply lookup_delete_eq.
    + by rewrite lookup_delete_ne.
  - done.
Qed.

(** C9. The task returned by [createTask] carries the id it is
    registered under, and [getTask] of that id returns this very task
    after any calls that neither delete the id nor create a task with
    the same id; after [deleteTask] of the id the lookup is absent.
    Deleting an id that is not registered changes nothing, deleting
    one id leaves the lookups of the others as they were, and an id
    that was never created is absent. No call raises. *)
Theorem registry_contract reg total uuid now cs :
  Forall (keeps (removeDashes uuid)) cs →
  let r := createTask total uuid now reg in
  let taskId := removeDashes uuid in
  let reg' := calls cs r.2 in
  objects r.2 !! r.1 = Some (newBatchTask total uuid now)
  ∧ id <$> objects reg' !! r.1 = Some taskId
  ∧ getTask taskId r.2 = Some r.1
  ∧ getTask taskId reg' = Some r.1
  ∧ getTask taskId (deleteTask taskId reg') = None
  ∧ (∀ unknown, getTask unknown reg' = None →
       deleteTask unknown reg' = reg')
  ∧ (∀ other kept, other ≠ kept →
       getTask kept (deleteTask other reg') = getTask kept reg')
  ∧ (∀ never cs', Forall (notCreating never) cs' →
       getTask never (calls cs' (@emptyRegistry J)) = None).
Proof.
  intros Hkeep r taskId reg'. subst r taskId reg'.
  assert (Hobj : objects (createTask total uuid now reg).2
                   !! (createTask total uuid now reg).1
                 = Some (newBatchTask total uuid now)).
  { simpl. by rewrite lookup_app_r, Nat.sub_diag by lia. }
  assert (Hget : getTask (removeDashes uuid) (createTask total uuid now reg).2
                 = Some (createTask total uuid now reg).1).
  { unfold getTask. simpl. apply lookup_insert_eq. }
  destruct (calls_keep (removeDashes uuid) cs
              (createTask total uuid now reg).2
              (createTask total uuid now reg).1 Hkeep) as [Hk Ho].
  split_and!.
  - exact Hobj.
  - apply Ho. by rewrite Hobj.
  - exact Hget.
  - by rewrite Hk.
  - unfold getTask, deleteTask. simpl. apply lookup_delete_eq.
  - intros unknown Hnone. unfold getTask, deleteTask in *.
    destruct (calls cs _) as [m o]. simpl in *. f_equal. by apply delete_id.
  - intros other kept Hne. unfold getTask, deleteTask. simpl.
    by apply lookup_delete_ne.
  - intros never cs' Hcs'. by apply calls_notCreating.
Qed.

End Facts.

Lemma registry_contract_witness :
  Forall (keeps (J := unit) (removeDashes "7c9e-6679"))
    [CallCreate 3 "0b1f-22aa" 5; CallDelete "0b1f22aa"; CallGet "7c9e6679"]
  ∧ getTask (removeDashes "7c9e-6679")
      (calls [CallCreate 3 "0b1f-22aa" 5; CallDelete "0b1f22aa";
              CallGet "7c9e6679"]
         (createTask (J := unit) 2 "7c9e-6679" 4 emptyRegistry).2)
    = Some (createTask (J := unit) 2 "7c9e-6679" 4 emptyRegistry).1.
Proof.
  assert (Hk : Forall (keeps (J := unit) (removeDashes "7c9e-6679"))
    [CallCreate 3 "0b1f-22aa" 5; CallDelete "0b1f22aa"; CallGet "7c9e6679"]).
  { repeat constructor; by vm_compute. }
  split; [exact Hk|].
  pose proof (registry_contract emptyRegistry 2 "7c9e-6679" 4 _ Hk)
    as (_ & _ & _ & Hget & _).
  exact Hget.
Defined.

End RegistryFacts.

(** * Properties of the executor *)
Module ExecutorFacts.
Import Batch.

Section Facts.
Context {J T R W : Type} `{EqDecision T}.
Implicit Types (m : list (T * BatchResult R)) (s : St J T R W).

(** ** The result map *)

Lemma mapGet_mapSet_eq k v m : mapGet k (mapSet k v m) = Some v.
Proof.
  induction m as [|[k' v'] m IH]; simpl; repeat case_decide; simpl;
    repeat case_decide; by simplify_eq.
Qed.

Lemma mapGet_mapSet_ne k k' v m :
  k ≠ k' → mapGet k' (mapSet k v m) = mapGet k' m.
Proof.
  intros Hne. induction m as [|[k0 v0] m IH]; simpl; repeat case_decide;
    simpl; repeat case_decide; by simplify_eq.
Qed.

Lemma mapGet_None k m : mapGet k m = None ↔ k ∉ m.*1.
Proof.
  induction m as [|[k' v'] m IH]; cbn [mapGet].
  - split; [intros _; apply not_elem_of_nil|done].
  - rewrite fmap_cons, not_elem_of_cons. cbn [fst]. case_decide as Hk.
    + split; [done|]. intros [Hne _]. by destruct Hne.
    + rewrite IH. split; [|by intros []]. intros Hn. split; [congruence|done].
Qed.

Lemma mapSet_keys_elem k v m x : x ∈ (mapSet k v m).*1 ↔ x = k ∨ x ∈ m.*1.
Proof.
  induction m as [|[k' v'] m IH]; cbn [mapSet].
  - rewrite fmap_cons, !fmap_nil, list_elem_of_singleton.
    split; [by left|]. intros [|Hx]; [done|]. by apply elem_of_nil in Hx.
  - case_decide as Hk; rewrite !fmap_cons, !elem_of_cons; cbn [fst].
    + subst. tauto.
    + rewrite IH. tauto.
Qed.

Lemma mapSet_keys_new k v m : k ∉ m.*1 → (mapSet k v m).*1 = m.*1 ++ [k].
Proof.
  induction m as [|[k' v'] m IH]; cbn [mapSet]; [done|].
  rewrite fmap_cons, not_elem_of_cons. cbn [fst]. intros [Hne Hnin].
  case_decide; [congruence|]. by rewrite fmap_cons, IH.
Qed.

(** ** One run *)
Section Run.
Variable worker : T → W → WorkerRun R W.
Variable schedule : list T → list T.
Variable options : Options J W.
Hypothesis schedule_perm : ∀ pending, schedule pending ≡ₚ pending.

(** The cancellation check changes the world at most. *)
Lemma isCancelled_frame s :
  st_task (isCancelled options s).2 = st_task s
  ∧ st_heap (isCancelled options s).2 = st_heap s
  ∧ results (isCancelled options s).2 = results s.
Proof.
  unfold isCancelled. destruct (shouldCancel options) as [f|]; [|done].
  by destruct (f (world s)).
Qed.

Lemma isCancelled_value s :
  (isCancelled options s).1
  = (match shouldCancel options with
     | Some f => (f (world s)).1
     | None => false
     end) || from_option cancelled false (st_task s).
Proof.
  unfold isCancelled. destruct (shouldCancel options) as [f|]; [|done].
  by destruct (f (world s)).
Qed.

Lemma recordTask_results success opts s :
  results (recordTask success opts s) = results s.
Proof.
  unfold recordTask. destruct (st_task s) as [t|]; [|done].
  by destruct (record success opts t (st_heap s)).
Qed.

(** The keys of [results] come from the items processed. *)
Lemma processOneStart_keys s pending item x :
  x ∈ (results (processOneStart options (s, pending) item).1).*1 →
  x = item ∨ x ∈ (results s).*1.
Proof.
  unfold processOneStart.
  destruct (isCancelled_frame s) as (_ & _ & Hres).
  destruct (isCancelled options s) as [c s1]. simpl in Hres.
  destruct c; simpl; rewrite ?Hres.
  - apply mapSet_keys_elem.
  - by right.
Qed.

Lemma processOneStart_pending s pending item x :
  x ∈ (processOneStart options (s, pending) item).2 →
  x = item ∨ x ∈ pending.
Proof.
  unfold processOneStart. destruct (isCancelled options s) as [[] s1]; simpl.
  - by right.
  - rewrite elem_of_app, list_elem_of_singleton. tauto.
Qed.

Lemma starts_keys chunk : ∀ s pending x,
  x ∈ (results (foldl (processOneStart options) (s, pending) chunk).1).*1 →
  x ∈ chunk ∨ x ∈ (results s).*1.
Proof.
  induction chunk as [|item chunk IH]; intros s pending x; cbn [foldl];
    [by right|].
  destruct (processOneStart options (s, pending) item) as [s1 p1] eqn:Hstart.
  intros Hx. apply IH in Hx as [Hx|Hx]; [left; by apply list_elem_of_further|].
  pose proof (processOneStart_keys s pending item x) as Hk.
  rewrite Hstart in Hk. destruct (Hk Hx) as [->|]; [left|by right].
  apply list_elem_of_here.
Qed.

Lemma starts_pending chunk : ∀ s pending x,
  x ∈ (foldl (processOneStart options) (s, pending) chunk).2 →
  x ∈ chunk ∨ x ∈ pending.
Proof.
  induction chunk as [|item chunk IH]; intros s pending x; cbn [foldl];
    [by right|].
  destruct (processOneStart options (s, pending) item) as [s1 p1] eqn:Hstart.
  intros Hx. apply IH in Hx as [Hx|Hx]; [left; by apply list_elem_of_further|].
  pose proof (processOneStart_pending s pending item x) as Hk.
  rewrite Hstart in Hk. destruct (Hk Hx) as [->|]; [left|by right].
  apply list_elem_of_here.
Qed.

Lemma processOneSettle_keys s item x :
  x ∈ (results (processOneSettle worker s item)).*1 →
  x = item ∨ x ∈ (results s).*1.
Proof.
  unfold processOneSettle.
  destruct (settled (worker item (world s)));
    rewrite recordTask_results; simpl; apply mapSet_keys_elem.
Qed.

Lemma settles_keys l : ∀ s x,
  x ∈ (results (foldl (processOneSettle worker) s l)).*1 →
  x ∈ l ∨ x ∈ (results s).*1.
Proof.
  induction l as [|item l IH]; intros s x; cbn [foldl]; [by right|].
  intros Hx. apply IH in Hx as [Hx|Hx]; [left; by apply list_elem_of_further|].
  apply processOneSettle_keys in Hx as [->|]; [left|by right].
  apply list_elem_of_here.
Qed.

Lemma processChunk_keys chunk s x :
  x ∈ (results (processChunk worker schedule options chunk s)).*1 →
  x ∈ chunk ∨ x ∈ (results s).*1.
Proof.
  unfold processChunk.
  destruct (foldl (processOneStart options) (s, []) chunk) as [s1 pending]
    eqn:Hstart.
  intros Hx. apply settles_keys in Hx as [Hx|Hx].
  - left. rewrite schedule_perm in Hx.
    pose proof (starts_pending chunk s [] x) as Hp. rewrite Hstart in Hp.
    destruct (Hp Hx) as [|Hnil]; [done|]. by apply elem_of_nil in Hnil.
  - pose proof (starts_keys chunk s [] x) as Hk. rewrite Hstart in Hk.
    by apply Hk.
Qed.

Lemma slice_elem (items : list T) i j x :
  x ∈ JS.slice items i j → x ∈ drop i items.
Proof. unfold JS.slice. apply subseteq_take. Qed.

(** [reach] is a prefix of the loop. *)
Lemma loop_reach k : ∀ items size i s sk fuel,
  reach worker schedule options k items size i s = Some sk →
  loop worker schedule options (k + fuel) items size i s
  = loop worker schedule options fuel items size (i + k * size) sk.
Proof.
  induction k as [|k IH]; intros items size i s sk fuel; simpl.
  - intros [= ->]. by rewrite Nat.add_0_r.
  - case_decide; [|done].
    destruct (isCancelled options s) as [[] s1]; [done|].
    destruct (noneCancelled options _ s1); [|done].
    intros Hreach. rewrite (IH _ _ _ _ _ _ Hreach). f_equal. lia.
Qed.

Lemma reach_keys k : ∀ items size i s sk x,
  reach worker schedule options k items size i s = Some sk →
  x ∈ (results sk).*1 →
  x ∈ take (k * size) (drop i items) ∨ x ∈ (results s).*1.
Proof.
  induction k as [|k IH]; intros items size i s sk x; simpl.
  - intros [= ->]. by right.
  - case_decide; [|done].
    destruct (isCancelled_frame s) as (_ & _ & Hres).
    destruct (isCancelled options s) as [[] s1]; [done|]. simpl in Hres.
    destruct (noneCancelled options _ s1); [|done].
    intros Hreach Hx.
    rewrite <- take_take_drop, elem_of_app, drop_drop.
    destruct (IH _ _ _ _ _ _ Hreach Hx) as [Hin|Hin]; [by left; right|].
    apply processChunk_keys in Hin as [Hin|Hin]; [|right; by rewrite <- Hres].
    left; left. unfold JS.slice in Hin.
    by replace (i + size - i)%nat with size in Hin by lia.
Qed.

Lemma effectiveBatchSize_pos : (1 ≤ effectiveBatchSize options)%nat.
Proof. unfold effectiveBatchSize. lia. Qed.

(** ** Items that settle *)
Section Outcomes.
Variable out : T → Settled R.
Variable t0 : option (BatchTask J).
Variable known : list T.
Hypothesis worker_out : ∀ x w, x ∈ known → settled (worker x w) = out x.

Lemma settledState_perm l1 l2 s :
  l1 ≡ₚ l2 → settledState out t0 l1 s → settledState out t0 l2 s.
Proof.
  intros Hp (Hkeys & Hget & Htask). split_and!.
  - by rewrite <- Hp.
  - intros x Hx. apply Hget. by rewrite Hp.
  - destruct Htask as [t0' t Hc|]; constructor.
    unfold countersAfter in *. by rewrite <- Hp.
Qed.

Lemma settledState_frame l s s' :
  st_task s' = st_task s → results s' = results s →
  settledState out t0 l s → settledState out t0 l s'.
Proof. unfold settledState. by intros -> ->. Qed.

Lemma recordTask_task (success : bool) opts s :
  option_Forall2
    (λ t t' : BatchTask J,
       cancelled t' = cancelled t ∧ id t' = id t ∧ total t' = total t
             ∧ processed t' = processed t + 1
             ∧ ok t' = ok t + (if success then 1 else 0)
             ∧ fail t' = fail t + (if success then 0 else 1))
    (st_task s) (st_task (recordTask success opts s)).
Proof.
  unfold recordTask. destruct (st_task s) as [t|] eqn:Ht;
    [|rewrite Ht; constructor].
  destruct (record success opts t (st_heap s)) as [t' h'] eqn:Hrec.
  constructor.
  assert (t' = (record success opts t (st_heap s)).1) as -> by by rewrite Hrec.
  destruct success; simpl; split_and!; (done || lia).
Qed.

(** [processOne] after the [await], as one [record] on the state
    that holds the entry. *)
Lemma processOneSettle_eq s x :
  processOneSettle worker s x
  = recordTask (isResolved (settled (worker x (world s))))
      (match settled (worker x (world s)) with
       | Resolved _ => None
       | Rejected error => Some (mkRecordOpts None None (Some error))
       end)
      (setResult x (resultOf (settled (worker x (world s))))
         (mkSt (after (worker x (world s)))
            (if cancelRequested (worker x (world s))
             then cancel <$> st_task s else st_task s)
            (st_heap s) (results s))).
Proof. unfold processOneSettle. by destruct (settled (worker x (world s))). Qed.

Lemma processOneSettle_settled l s x :
  x ∈ known → x ∉ l →
  settledState out t0 l s →
  settledState out t0 (l ++ [x]) (processOneSettle worker s x).
Proof.
  intros Hx Hnew (Hkeys & Hget & Htask).
  assert (Hfresh : x ∉ (results s).*1) by by rewrite Hkeys.
  rewrite processOneSettle_eq, (worker_out x (world s) Hx).
  set (s1 := setResult _ _ _).
  pose proof (recordTask_task (isResolved (out x))
                (match out x with
                 | Resolved _ => None
                 | Rejected error => Some (mkRecordOpts None None (Some error))
                 end) s1) as Hrec.
  unfold settledState. rewrite recordTask_results.
  split_and!.
  - subst s1. simpl. by rewrite mapSet_keys_new, Hkeys.
  - intros y Hy. subst s1. simpl. destruct (decide (y = x)) as [->|Hyx].
    + apply mapGet_mapSet_eq.
    + rewrite mapGet_mapSet_ne by done. apply Hget.
      apply elem_of_app in Hy as [|Hy]; [done|].
      by apply list_elem_of_singleton in Hy.
  - assert (Hs1 : option_Forall2 (countersAfter out l) t0 (st_task s1)).
    { subst s1. simpl. destruct (cancelRequested _); [|done].
      destruct Htask; constructor. done. }
    destruct Hs1 as [t0' t (Hid & Htot & Hproc & Hok & Hfail)|];
      inversion Hrec as [? t' (_ & Hid' & Htot' & Hproc' & Hok' & Hfail')|];
      constructor.
    unfold countersAfter.
    rewrite !filter_app, !length_app, !filter_cons, !filter_nil.
    destruct (isResolved (out x)); simpl in *;
      rewrite ?decide_True, ?decide_False by done; simpl;
      split_and!; (congruence || lia).
Qed.

Lemma settles_settled pending : ∀ l s,
  (∀ x, x ∈ pending → x ∈ known) → NoDup (l ++ pending) →
  settledState out t0 l s →
  settledState out t0 (l ++ pending)
    (foldl (processOneSettle worker) s pending).
Proof.
  induction pending as [|x pending IH]; intros l s Hin Hnd Hs; cbn [foldl].
  - by rewrite app_nil_r.
  - rewrite cons_middle, app_assoc in Hnd |- *.
    apply IH; [|done|].
    + intros y Hy. apply Hin. by apply list_elem_of_further.
    + apply processOneSettle_settled; [| |done].
      * apply Hin, list_elem_of_here.
      * apply NoDup_app in Hnd as (Hnd & _ & _).
        apply NoDup_app in Hnd as (_ & Hdis & _).
        intros Hx. apply (Hdis x Hx), list_elem_of_here.
Qed.

(** When no item is cancelled at its start, the whole chunk waits for
    its workers and only the world has changed. *)
Lemma starts_noneCancelled chunk : ∀ s pending,
  noneCancelled options chunk s = true →
  ∃ s', foldl (processOneStart options) (s, pending) chunk
        = (s', pending ++ chunk)
        ∧ st_task s' = st_task s ∧ st_heap s' = st_heap s
        ∧ results s' = results s.
Proof.
  induction chunk as [|x chunk IH]; intros s pending; cbn [foldl noneCancelled].
  - intros _. exists s. by rewrite app_nil_r.
  - destruct (isCancelled_frame s) as (Ht & Hh & Hr).
    unfold processOneStart at 2.
    destruct (isCancelled options s) as [[] s1]; [done|]. simpl in *.
    intros Hnone. destruct (IH s1 (pending ++ [x]) Hnone)
      as (s' & Hfold & Ht' & Hh' & Hr').
    exists s'. rewrite Hfold, <- app_assoc.
    split_and!; [done|congruence..].
Qed.

Lemma processChunk_settled l chunk s :
  noneCancelled options chunk s = true →
  (∀ x, x ∈ chunk → x ∈ known) → NoDup (l ++ chunk) →
  settledState out t0 l s →
  settledState out t0 (l ++ chunk)
    (processChunk worker schedule options chunk s).
Proof.
  intros Hnone Hin Hnd Hs. unfold processChunk.
  destruct (starts_noneCancelled chunk s [] Hnone) as (s' & -> & Ht & _ & Hr).
  simpl. apply (settledState_perm (l ++ schedule chunk)).
  { by rewrite schedule_perm. }
  apply settles_settled.
  - intros x Hx. apply Hin. by rewrite <- (schedule_perm chunk).
  - by rewrite schedule_perm.
  - by apply (settledState_frame l s).
Qed.

Lemma reach_settled items size k : ∀ i s sk,
  reach worker schedule options k items size i s = Some sk →
  (∀ x, x ∈ take (i + k * size) items → x ∈ known) →
  NoDup (take (i + k * size) items) →
  settledState out t0 (take i items) s →
  settledState out t0 (take (i + k * size) items) sk.
Proof.
  induction k as [|k IH]; intros i s sk; simpl.
  - intros [= ->]. by rewrite Nat.add_0_r.
  - case_decide; [|done].
    destruct (isCancelled_frame s) as (Ht & _ & Hr).
    destruct (isCancelled options s) as [[] s1]; [done|]. simpl in Ht, Hr.
    destruct (noneCancelled options _ s1) eqn:Hnone; [|done].
    replace (i + (size + k * size))%nat with (i + size + k * size)%nat by lia.
    intros Hreach Hknown Hnd Hs.
    apply (IH _ _ _ Hreach Hknown Hnd).
    assert (Hpre : take (i + size) items `prefix_of`
                   take (i + size + k * size) items).
    { rewrite <- (take_take_drop items (i + size) (k * size)).
      by apply prefix_app_r. }
    rewrite <- take_take_drop. unfold JS.slice in *.
    replace (i + size - i)%nat with size in * by lia.
    apply processChunk_settled; [done| | |by apply (settledState_frame _ s)].
    + intros x Hx. apply Hknown. destruct Hpre as [rest ->].
      apply elem_of_app. left. rewrite <- take_take_drop.
      apply elem_of_app. by right.
    + rewrite take_take_drop. destruct Hpre as [rest Hrest].
      rewrite Hrest in Hnd. by apply NoDup_app in Hnd as (? & _).
Qed.

End Outcomes.

(** C1 (amended). When the loop has run its first [k] chunks without
    seeing a cancellation and the check in front of chunk [k + 1] sees
    it, [runBatch] returns at once: the mapping, the task and the
    queues are those that chunk [k] left. The items of chunks 1..k
    (distinct as keys) are mapped to the outcomes of their workers and
    the task has counted exactly them; every other item, those of
    chunks [k + 1..m] included, has no entry and is not counted. The
    entry [{ok: false, error: "cancelled", cancelled: true}] is what
    the check at the start of an item produces, without a call of the
    worker or of [record]. *)
Theorem runBatch_cancel_between_chunks items w h k sk (out : T → Settled R) :
  NoDup (take (k * effectiveBatchSize options) items) →
  (∀ x w, x ∈ take (k * effectiveBatchSize options) items →
     settled (worker x w) = out x) →
  reach worker schedule options k items (effectiveBatchSize options) 0
    (mkSt w (task options) h []) = Some sk →
  (k * effectiveBatchSize options < length items)%nat →
  (isCancelled options sk).1 = true →
  ∃ s, runBatch worker schedule options items w h = Some s
    ∧ results s = results sk
    ∧ st_task s = st_task sk
    ∧ st_heap s = st_heap sk
    ∧ (∀ x, x ∈ take (k * effectiveBatchSize options) items →
         mapGet x (results s) = Some (resultOf (out x)))
    ∧ (∀ x, x ∉ take (k * effectiveBatchSize options) items →
         mapGet x (results s) = None)
    ∧ (∀ t0, task options = Some t0 →
         ∃ t, st_task s = Some t
           ∧ processed t
             = processed t0 + Z.of_nat (k * effectiveBatchSize options)
           ∧ ok t = ok t0
               + Z.of_nat (length (filter (λ x, isResolved (out x) = true)
                    (take (k * effectiveBatchSize options) items)))
           ∧ fail t = fail t0
               + Z.of_nat (length (filter (λ x, isResolved (out x) = false)
                    (take (k * effectiveBatchSize options) items))))
    ∧ (∀ s' pending item, (isCancelled options s').1 = true →
         processOneStart options (s', pending) item
         = (setResult item cancelledResult (isCancelled options s').2,
            pending)
         ∧ st_task (isCancelled options s').2 = st_task s'
         ∧ st_heap (isCancelled options s').2 = st_heap s').
Proof.
  intros Hnd Hout Hreach Hk Hc. pose proof effectiveBatchSize_pos as Hsize.
  set (size := effectiveBatchSize options) in *.
  exists (isCancelled options sk).2.
  destruct (isCancelled_frame sk) as (Htask & Hheap & Hres).
  assert (Hkeys : ∀ x, x ∉ take (k * size) items → mapGet x (results sk) = None).
  { intros x Hx. apply mapGet_None. intros Hin. apply Hx.
    destruct (reach_keys _ _ _ _ _ _ x Hreach Hin) as [Hin'|Hnil].
    - by rewrite drop_0 in Hin'.
    - by apply elem_of_nil in Hnil. }
  destruct (reach_settled out (task options)
              (take (k * size) items) Hout items size k 0 _ sk Hreach)
    as (_ & Hget & Hcount); [done|done| |].
  { split_and!; [done|by intros x Hx; apply elem_of_nil in Hx|].
    simpl. destruct (task options); constructor.
    unfold countersAfter. simpl. split_and!; (done || lia). }
  simpl in Hget, Hcount.
  split_and!; try done.
  - unfold runBatch. fold size.
    replace (S (length items)) with (k + S (length items - k))%nat by nia.
    rewrite (loop_reach _ _ _ _ _ _ _ Hreach). cbn [loop Nat.add].
    rewrite decide_True by done.
    destruct (isCancelled options sk) as [c s1]. simpl in Hc. by subst c.
  - intros x Hx. rewrite Hres. by apply Hget.
  - intros x Hx. rewrite Hres. by apply Hkeys.
  - intros t0 Ht0. rewrite Htask. rewrite Ht0 in Hcount.
    inversion Hcount as [? t (_ & _ & Hproc & Hok & Hfail)|]; subst.
    exists t. rewrite length_take_le in Hproc by lia. done.
  - intros s' pending item Hc'. destruct (isCancelled_frame s') as (? & ? & _).
    split_and!; [|done..].
    unfold processOneStart. destruct (isCancelled options s') as [c s1].
    simpl in Hc'. by subst c.
Qed.

(** ** Runs without cancellation *)
Section Calm.
Variable out : T → Settled R.
Variable t0 : option (BatchTask J).
Variable items : list T.
Hypothesis calm : neverCancels options.
Hypothesis worker_out : ∀ x w, x ∈ items → settled (worker x w) = out x.
Hypothesis worker_calm : ∀ x w, x ∈ items →
  cancelRequested (worker x w) = false.

Lemma isCancelled_calm s :
  taskCalm s →
  (isCancelled options s).1 = false ∧ taskCalm (isCancelled options s).2.
Proof.
  unfold taskCalm. intros Hc.
  destruct (isCancelled_frame s) as (-> & _ & _).
  rewrite isCancelled_value, Hc, orb_false_r. split; [|done].
  unfold neverCancels in calm. by destruct (shouldCancel options).
Qed.

Lemma noneCancelled_calm chunk : ∀ s,
  taskCalm s → noneCancelled options chunk s = true.
Proof.
  induction chunk as [|x chunk IH]; intros s Hs; cbn [noneCancelled]; [done|].
  destruct (isCancelled_calm s Hs) as [Hc Hs'].
  destruct (isCancelled options s) as [c s1]. simpl in *. subst c.
  by rewrite IH.
Qed.

Lemma processOneSettle_calm s x :
  x ∈ items → taskCalm s → taskCalm (processOneSettle worker s x).
Proof.
  unfold taskCalm. intros Hx Hs.
  rewrite processOneSettle_eq, (worker_calm x _ Hx).
  set (s1 := setResult _ _ _).
  pose proof (recordTask_task (isResolved (settled (worker x (world s))))
                (match settled (worker x (world s)) with
                 | Resolved _ => None
                 | Rejected error => Some (mkRecordOpts None None (Some error))
                 end) s1) as Hrec.
  change (st_task s1) with (st_task s) in Hrec.
  inversion Hrec as [t t' (Hcan & _) Ht Ht'|Ht Ht'].
  - simpl. rewrite Hcan. by rewrite <- Ht in Hs.
  - done.
Qed.

Lemma processChunk_calm chunk s :
  (∀ x, x ∈ chunk → x ∈ items) → taskCalm s →
  taskCalm (processChunk worker schedule options chunk s).
Proof.
  intros Hin Hs. unfold processChunk.
  destruct (starts_noneCancelled chunk s [] (noneCancelled_calm chunk s Hs))
    as (s' & -> & Ht & _ & _). simpl.
  assert (Hs' : taskCalm s') by (unfold taskCalm; by rewrite Ht).
  assert (Hsched : ∀ x, x ∈ schedule chunk → x ∈ items).
  { intros x Hx. apply Hin. by rewrite <- (schedule_perm chunk). }
  clear Ht. revert s' Hs' Hsched.
  induction (schedule chunk) as [|x l IH]; intros s' Hs' Hl; cbn [foldl];
    [done|].
  apply IH.
  - apply processOneSettle_calm; [apply Hl, list_elem_of_here|done].
  - intros y Hy. by apply Hl, list_elem_of_further.
Qed.

Lemma loop_settled size fuel : ∀ i s,
  (1 ≤ size)%nat → NoDup items → (length items - i < fuel)%nat →
  taskCalm s →
  settledState out t0 (take i items) s →
  ∃ s', loop worker schedule options fuel items size i s = Some s'
        ∧ settledState out t0 items s'.
Proof.
  induction fuel as [|fuel IH]; intros i s Hsize Hnd Hfuel Hcalm Hs; [lia|].
  cbn [loop]. case_decide as Hi.
  - destruct (isCancelled_calm s Hcalm) as [Hc Hcalm'].
    destruct (isCancelled_frame s) as (Ht & _ & Hr).
    destruct (isCancelled options s) as [c s1]. simpl in *. subst c.
    assert (Hsub : ∀ x, x ∈ JS.slice items i (i + size) → x ∈ items).
    { intros x Hx. unfold JS.slice in Hx.
      by apply subseteq_take, subseteq_drop in Hx. }
    apply IH; [done|done|lia|by apply processChunk_calm|].
    rewrite <- take_take_drop. unfold JS.slice in *.
    replace (i + size - i)%nat with size in * by lia.
    apply (processChunk_settled out t0 items worker_out);
      [by apply noneCancelled_calm|done| |by apply (settledState_frame _ _ _ s)].
    rewrite take_take_drop.
    apply (sublist_NoDup _ items); [done|apply sublist_take].
  - exists s. split; [done|]. by rewrite take_ge in Hs by lia.
Qed.

End Calm.

Lemma single_failure_counts (P : T → Prop) `{∀ x, Decision (P x)}
    (Q : T → Prop) `{∀ x, Decision (Q x)} items bad :
  NoDup items → bad ∈ items →
  ¬ P bad → Q bad → (∀ x, x ∈ items → x ≠ bad → P x ∧ ¬ Q x) →
  length (filter P items) = (length items - 1)%nat
  ∧ length (filter Q items) = 1%nat.
Proof.
  intros Hnd Hbad HPb HQb Hothers.
  assert (Hrest : ∀ l, (∀ x, x ∈ l → x ∈ items) → bad ∉ l →
    length (filter P l) = length l ∧ length (filter Q l) = 0%nat).
  { induction l as [|y l IH]; intros Hsub Hnotin; [done|].
    apply not_elem_of_cons in Hnotin as [Hne Hnotin].
    destruct (Hothers y) as [HPy HQy]; [apply Hsub, list_elem_of_here|done|].
    rewrite !filter_cons, decide_True, decide_False by done.
    destruct IH as [IH1 IH2]; [|done|simpl; lia].
    intros z Hz. by apply Hsub, list_elem_of_further. }
  assert (Hgen : ∀ l, (∀ x, x ∈ l → x ∈ items) → NoDup l → bad ∈ l →
    length (filter P l) = (length l - 1)%nat ∧ length (filter Q l) = 1%nat).
  { induction l as [|x l IH]; intros Hsub Hndl Hbl;
      [by apply elem_of_nil in Hbl|].
    apply NoDup_cons in Hndl as [Hx Hndl]. rewrite !filter_cons.
    assert (Hsub' : ∀ z, z ∈ l → z ∈ items)
      by (intros z Hz; by apply Hsub, list_elem_of_further).
    destruct (decide (x = bad)) as [->|Hne].
    - rewrite decide_False, decide_True by done.
      destruct (Hrest l Hsub' Hx) as [H1 H2]. simpl. lia.
    - apply elem_of_cons in Hbl as [?|Hbl]; [congruence|].
      destruct (Hothers x (Hsub x (list_elem_of_here _ _)) Hne) as [HPx HQx].
      rewrite decide_True, decide_False by done.
      destruct (IH Hsub' Hndl Hbl) as [H1 H2].
      destruct l; [by apply elem_of_nil in Hbl|]. simpl in *. lia. }
  by apply Hgen.
Qed.

(** C5. Without cancellation, on distinct items of which one worker
    rejects and the others resolve, whatever the order in which the
    promises of a chunk settle: [runBatch] returns; the mapping has the
    items as its keys, the failing item mapped to [{ok: false, error}]
    with the message of the rejection and every other item to
    [{ok: true, data}]; the task has gained [N - 1] in [ok], 1 in
    [fail] and [N] in [processed]. Every item of the chunk of the
    failing item and of the later chunks has its entry: the failure
    stops nothing. *)
Theorem runBatch_single_failure items w h t0 bad msg (d : T → R) :
  NoDup items →
  neverCancels options → task options = Some t0 → cancelled t0 = false →
  (∀ x w, x ∈ items → cancelRequested (worker x w) = false) →
  bad ∈ items →
  (∀ w, settled (worker bad w) = Rejected msg) →
  (∀ x w, x ∈ items → x ≠ bad → settled (worker x w) = Resolved (d x)) →
  ∃ s t, runBatch worker schedule options items w h = Some s
    ∧ st_task s = Some t
    ∧ (results s).*1 ≡ₚ items
    ∧ mapGet bad (results s) = Some (mkBatchResult false None (Some msg) None)
    ∧ (∀ x, x ∈ items → x ≠ bad →
         mapGet x (results s)
         = Some (mkBatchResult true (Some (d x)) None None))
    ∧ ok t = ok t0 + (Z.of_nat (length items) - 1)
    ∧ fail t = fail t0 + 1
    ∧ processed t = processed t0 + Z.of_nat (length items).
Proof.
  intros Hnd Hcalm Htask Hc0 Hreq Hbad Hrej Hres.
  set (out := λ x, if decide (x = bad) then Rejected msg else Resolved (d x)).
  assert (Hout : ∀ x w, x ∈ items → settled (worker x w) = out x).
  { intros x w' Hx. unfold out.
    case_decide as Hxb; [subst; apply Hrej|by apply Hres]. }
  destruct (loop_settled out (Some t0) items Hcalm Hout Hreq
              (effectiveBatchSize options)
              (S (length items)) 0 (mkSt w (task options) h []))
    as (s & Hrun & Hkeys & Hget & Hcount).
  { apply effectiveBatchSize_pos. }
  { done. }
  { lia. }
  { unfold taskCalm. simpl. by rewrite Htask. }
  { rewrite Htask. split_and!; [done|by intros x Hx; apply elem_of_nil in Hx|].
    constructor. unfold countersAfter. simpl. split_and!; (done || lia). }
  inversion Hcount as [? t (_ & _ & Hproc & Hok & Hfail) Heq Ht|]; subst.
  destruct (single_failure_counts
              (λ x, isResolved (out x) = true) (λ x, isResolved (out x) = false)
              items bad Hnd Hbad) as [Hnok Hnfail].
  { unfold out. by rewrite decide_True. }
  { unfold out. by rewrite decide_True. }
  { intros x _ Hx. unfold out. by rewrite decide_False. }
  exists s, t. split_and!; try done.
  - rewrite (Hget bad Hbad). unfold out. by rewrite decide_True.
  - intros x Hx Hne. rewrite (Hget x Hx). unfold out. by rewrite decide_False.
  - rewrite Hok, Hnok.
    destruct items; [by apply elem_of_nil in Hbad|simpl length; lia].
  - rewrite Hfail, Hnfail. lia.
Qed.

End Run.
End Facts.

(** C1, as stated, fails: with chunks of one item and a cancellation
    that is set once the first chunk is complete, the item of the
    second chunk is not mapped to the cancelled entry; it has no entry
    in the returned mapping. *)
Lemma cancelled_chunk_has_no_entry :
  (isCancelled cancelAfterOne
     (mkSt 0%nat (Some exampleTask) [] [] : St unit string nat nat)).1 = false
  ∧ ∃ s, runBatch (T := string) exampleWorker reverse cancelAfterOne
           ["a"; "b"] 0%nat [] = Some s
    ∧ results s = [("a", mkBatchResult true (Some 1%nat) None None)]
    ∧ mapGet "b" (results s) = None
    ∧ mapGet "b" (results s) ≠ Some cancelledResult.
Proof. split; [done|]. eexists. split; [by vm_compute|]. by vm_compute. Qed.

Lemma runBatch_cancel_between_chunks_witness :
  (∀ pending : list string, reverse pending ≡ₚ pending)
  ∧ NoDup (take (1 * effectiveBatchSize cancelAfterOne) ["a"; "b"])
  ∧ (1 * effectiveBatchSize cancelAfterOne < length ["a"; "b"])%nat
  ∧ ∃ s, runBatch (T := string) exampleWorker reverse cancelAfterOne
           ["a"; "b"] 0%nat [] = Some s
         ∧ mapGet "a" (results s) = Some (resultOf (Resolved 1%nat))
         ∧ mapGet "b" (results s) = None.
Proof.
  assert (Hperm : ∀ pending : list string, reverse pending ≡ₚ pending)
    by apply reverse_Permutation.
  assert (Hnd : NoDup (take (1 * effectiveBatchSize cancelAfterOne)
                         ["a"; "b"])) by compute_done.
  split_and!; [exact Hperm|exact Hnd|vm_compute; lia|].
  destruct (runBatch_cancel_between_chunks (T := string) exampleWorker reverse
              cancelAfterOne Hperm ["a"; "b"] 0%nat [] 1
              (processChunk exampleWorker reverse cancelAfterOne ["a"]
                 (mkSt 0%nat (Some exampleTask) [] []))
              (λ x, settled (exampleWorker x 0%nat)) Hnd)
    as (s & Hrun & _ & _ & _ & Hkept & Habsent & _).
  - done.
  - by vm_compute.
  - vm_compute. lia.
  - by vm_compute.
  - exists s. split_and!; [exact Hrun| |].
    + apply (Hkept "a"). vm_compute. apply list_elem_of_here.
    + apply Habsent. vm_compute. intros Hin.
      apply list_elem_of_singleton in Hin. done.
Defined.

Lemma runBatch_single_failure_witness :
  (∀ pending : list string, reverse pending ≡ₚ pending)
  ∧ NoDup ["a"; "b"; "cc"]
  ∧ "b" ∈ ["a"; "b"; "cc"]
  ∧ ∃ s t, runBatch (T := string) exampleWorker reverse exampleOptions
             ["a"; "b"; "cc"] 0%nat [] = Some s
         ∧ st_task s = Some t
         ∧ fail t = 1.
Proof.
  assert (Hperm : ∀ pending : list string, reverse pending ≡ₚ pending)
    by apply reverse_Permutation.
  assert (Hnd : NoDup ["a"; "b"; "cc"]) by compute_done.
  assert (Hbad : "b" ∈ ["a"; "b"; "cc"]) by compute_done.
  split_and!; [exact Hperm|exact Hnd|exact Hbad|].
  destruct (runBatch_single_failure (T := string) exampleWorker reverse
              exampleOptions Hperm ["a"; "b"; "cc"] 0%nat [] exampleTask
              "b" "boom" String.length Hnd I eq_refl eq_refl)
    as (s & t & Hrun & Ht & _ & _ & _ & _ & Hfail & _).
  - done.
  - exact Hbad.
  - done.
  - intros x w _ Hne. unfold exampleWorker. simpl. by rewrite decide_False.
  - exists s, t. split_and!; [exact Hrun|exact Ht|exact Hfail].
Defined.

End ExecutorFacts.

(** * Properties of the event stream *)
Module StreamFacts.
Import Batch TaskFacts.

Section Facts.
Context {J : Type} `{StreamBuiltins J}.

Lemma uptoTerminal_found (queue : list (BatchEvent J)) :
  existsb isTerminal queue = true →
  ∃ pre e, uptoTerminal queue = pre ++ [e] ∧ isTerminal e = true
           ∧ Forall (λ e, isTerminal e = false) pre.
Proof.
  induction queue as [|event queue IH]; [done|]. cbn [existsb uptoTerminal].
  destruct (isTerminal event) eqn:He; cbn [orb].
  - intros _. by exists [], event.
  - intros Hq. destruct (IH Hq) as (pre & e & -> & Hte & Hpre).
    exists (event :: pre), e. split_and!; [done|done|by constructor].
Qed.

Lemma uptoTerminal_none (queue : list (BatchEvent J)) :
  existsb isTerminal queue = false →
  uptoTerminal queue = queue ∧ Forall (λ e, isTerminal e = false) queue.
Proof.
  induction queue as [|event queue IH]; [done|]. cbn [existsb uptoTerminal].
  destruct (isTerminal event) eqn:He; cbn [orb]; [done|].
  intros Hq. destruct (IH Hq) as [-> Hall]. split; [done|by constructor].
Qed.

(** The methods that publish keep the handles and the size of the
    store. *)
Lemma publishers_frame (a : Action J) (t : BatchTask J) (h : Heap J) :
  match a with
  | ActRecord success opts =>
      queues (record success opts t h).1 = queues t
      ∧ length (record success opts t h).2 = length h
  | ActFinish res warn =>
      queues (finish res warn t h).1 = queues t
      ∧ length (finish res warn t h).2 = length h
  | ActFailTask err =>
      queues (failTask err t h).1 = queues t
      ∧ length (failTask err t h).2 = length h
  | ActFinishCancelled =>
      queues (finishCancelled t h).1 = queues t
      ∧ length (finishCancelled t h).2 = length h
  | _ => True
  end.
Proof. destruct a; simpl; try done; by rewrite publish_length. Qed.

Lemma lifecycle_frame (sys sys' : Sys J) evs :
  sys_stream sys' = sys_stream sys →
  (handle (sys_stream sys) ∈ queues (sys_task sys')
   ↔ handle (sys_stream sys) ∈ queues (sys_task sys)) →
  lifecycle sys evs → lifecycle sys' evs.
Proof.
  unfold lifecycle. intros -> Hq [(?&?&?&?)|(?&?&?&?)]; [left|right];
    split_and!; try done; by rewrite Hq.
Qed.

Lemma steps_snoc acts a (sys : Sys J) :
  steps (acts ++ [a]) sys = step a (steps acts sys).
Proof. unfold steps. by rewrite foldl_app. Qed.

End Facts.

End StreamFacts.

(** * Further properties of the codec *)
Module GrpcEdgeFacts.
Import JS Grpc Frames GrpcFacts.

Section ParseFacts.
Context `{Builtins}.

(** ** The loop of [parseResponse] *)

(** One iteration on a complete frame whose payload fits. *)
Lemma parseFrames_frame fuel pre frame post msgs trs :
  fits frame →
  parseFrames (S fuel) (pre ++ frameBytes frame ++ post) (length pre) msgs trs
  = if isTrailerFlag frame.1 then
      parseFrames fuel (pre ++ frameBytes frame ++ post)
        (length (pre ++ frameBytes frame)) msgs
        (parseTrailerFrame trs frame.2)
    else if isCompressedFlag frame.1 then
      Some (Threw "gRPC-Web compressed messages not supported")
    else
      parseFrames fuel (pre ++ frameBytes frame ++ post)
        (length (pre ++ frameBytes frame)) (msgs ++ [frame.2]) trs.
Proof.
  destruct frame as [flag p]. unfold fits, frameBytes. cbn [fst snd].
  intros Hlen.
  set (hdr := flag :: be32 (Z.of_nat (length p))).
  change (flag :: be32 (Z.of_nat (length p)) ++ p) with (hdr ++ p).
  set (decoded := pre ++ (hdr ++ p) ++ post).
  assert (Hat : ∀ k, at_ decoded (length pre + k) = at_ (hdr ++ p ++ post) k).
  { intros k. unfold decoded. rewrite <- (app_assoc hdr). apply at_app_r. }
  assert (Hn : length decoded = (length pre + 5 + length p + length post)%nat).
  { unfold decoded. rewrite !length_app. simpl. lia. }
  assert (Hpay : slice decoded (length pre + 5) (length pre + 5 + length p) = p).
  { unfold decoded. rewrite <- (app_assoc hdr), (app_assoc pre hdr).
    replace (length pre + 5)%nat with (length (pre ++ hdr))
      by (rewrite length_app; simpl; lia).
    apply slice_app_mid. }
  assert (Hhdr :
    ushr0 (bor (bor (bor (shl (at_ decoded (length pre + 1)) 24)
                         (shl (at_ decoded (length pre + 2)) 16))
                    (shl (at_ decoded (length pre + 3)) 8))
               (at_ decoded (length pre + 4))) = Z.of_nat (length p)).
  { rewrite !Hat. unfold hdr, be32, at_.
    cbn [app lookup list_lookup default]. apply headerLength. lia. }
  assert (Hflag : at_ decoded (length pre) = flag).
  { by rewrite <- (Nat.add_0_r (length pre)), Hat. }
  replace (length (pre ++ hdr ++ p)) with (length pre + 5 + length p)%nat
    by (rewrite !length_app; simpl; lia).
  cbn [parseFrames]. rewrite Hn.
  rewrite decide_True by lia. rewrite decide_False by lia.
  rewrite Hflag, Hhdr. rewrite decide_False by lia.
  rewrite Nat2Z.id, Hpay. unfold isTrailerFlag, isCompressedFlag. done.
Qed.

(** The loop over accepted frames that fit, followed by anything:
    the frames are decoded one after the other, one iteration each. *)
Lemma parseFrames_frames frames : ∀ fuel pre post msgs trs,
  Forall fits frames → Forall accepted frames →
  parseFrames (length frames + fuel)
    (pre ++ concat (frameBytes <$> frames) ++ post) (length pre) msgs trs
  = parseFrames fuel (pre ++ concat (frameBytes <$> frames) ++ post)
      (length (pre ++ concat (frameBytes <$> frames)))
      (messages (foldl decodeFrame (mkParsed msgs trs) frames))
      (trailers (foldl decodeFrame (mkParsed msgs trs) frames)).
Proof.
  induction frames as [|frame frames IH]; intros fuel pre post msgs trs Hfit Hacc.
  - simpl. by rewrite app_nil_r.
  - inversion Hfit as [|? ? Hf Hfs]; subst.
    inversion Hacc as [|? ? Ha Has]; subst.
    rewrite fmap_cons. cbn [concat foldl length Nat.add].
    rewrite <- (app_assoc (frameBytes frame)).
    rewrite parseFrames_frame by done.
    rewrite !(app_assoc pre (frameBytes frame)). unfold decodeFrame at 2 4.
    destruct (isTrailerFlag frame.1) eqn:Htr.
    + by rewrite IH, <- !app_assoc by done.
    + destruct Ha as [Ha|Ha]; [congruence|]. rewrite Ha.
      by rewrite IH, <- !app_assoc by done.
Qed.

Lemma frameBytes_length frame :
  length (frameBytes frame) = (5 + length frame.2)%nat.
Proof. unfold frameBytes. by rewrite length_cons, length_app. Qed.

Lemma framesBytes_length frames :
  (length frames ≤ length (concat (frameBytes <$> frames)))%nat.
Proof.
  induction frames as [|frame frames IH]; [done|].
  rewrite fmap_cons. cbn [concat]. rewrite length_app, frameBytes_length.
  simpl. lia.
Qed.

Lemma decodeFrames_messages frames : ∀ acc,
  messages (foldl decodeFrame acc frames)
  = messages acc ++ (filter (λ f, isTrailerFlag f.1 = false) frames).*2.
Proof.
  induction frames as [|frame frames IH]; intros acc; cbn [foldl].
  - by rewrite app_nil_r.
  - rewrite IH, filter_cons. unfold decodeFrame.
    destruct (isTrailerFlag frame.1) eqn:Htr; simpl; [done|].
    by rewrite <- app_assoc.
Qed.

(** The loop on a body that starts with accepted frames. *)
Lemma parseFrames_prefix frames post fuel :
  Forall fits frames → Forall accepted frames →
  parseFrames (length frames + fuel)
    (concat (frameBytes <$> frames) ++ post) 0 [] ∅
  = parseFrames fuel (concat (frameBytes <$> frames) ++ post)
      (length (concat (frameBytes <$> frames)))
      (messages (decodeFrames frames)) (trailers (decodeFrames frames)).
Proof.
  intros Hfit Hacc.
  exact (parseFrames_frames frames fuel [] post [] ∅ Hfit Hacc).
Qed.

Lemma fuel_split (frames : list (Z * list Z)) post :
  S (length (concat (frameBytes <$> frames) ++ post))
  = (length frames
     + S (length (concat (frameBytes <$> frames) ++ post) - length frames))%nat.
Proof.
  pose proof (framesBytes_length frames). rewrite length_app. lia.
Qed.

Lemma parseResponse_accepted contentType headers frames :
  isGrpcWebText contentType = false →
  Forall fits frames → Forall accepted frames →
  parseResponse (concat (frameBytes <$> frames)) contentType headers
  = Some (Returned
      (mkParsed (filter (λ f, isTrailerFlag f.1 = false) frames).*2
         (mergeHeaders headers (trailers (decodeFrames frames))))).
Proof.
  intros Hct Hfit Hacc. unfold parseResponse. rewrite Hct.
  pose proof (parseFrames_prefix frames [] 
                (S (length (concat (frameBytes <$> frames) ++ []) - length frames))
                Hfit Hacc) as Hrun.
  rewrite <- fuel_split in Hrun. rewrite app_nil_r in Hrun. rewrite Hrun.
  cbn [parseFrames]. rewrite decide_False by lia.
  unfold decodeFrames. by rewrite decodeFrames_messages.
Qed.


(** Reading the header of a frame that was cut after its fifth byte. *)
Lemma at_take_frame pre frame k j :
  (j < 5)%nat → (5 ≤ k)%nat →
  at_ (pre ++ take k (frameBytes frame)) (length pre + j)
  = at_ (frameBytes frame) j.
Proof.
  intros Hj Hk. rewrite at_app_r. unfold at_.
  by rewrite lookup_take_lt by lia.
Qed.

(** X2. A body cut in the middle of a frame: the complete frames in
    front of the cut are returned and the partial frame is dropped
    without an error, whatever its flag. *)
Theorem parseResponse_truncated contentType headers frames cut k :
  isGrpcWebText contentType = false →
  Forall fits frames → Forall accepted frames →
  fits cut → (k < length (frameBytes cut))%nat →
  parseResponse (concat (frameBytes <$> frames) ++ take k (frameBytes cut))
    contentType headers
  = parseResponse (concat (frameBytes <$> frames)) contentType headers.
Proof.
  intros Hct Hfit Hacc Hcut Hk.
  rewrite (parseResponse_accepted contentType headers frames Hct Hfit Hacc).
  unfold parseResponse. rewrite Hct.
  rewrite fuel_split, (parseFrames_prefix frames _ _ Hfit Hacc).
  rewrite frameBytes_length in Hk.
  assert (Hlen : length (take k (frameBytes cut)) = k).
  { rewrite length_take, frameBytes_length. lia. }
  set (pre := concat (frameBytes <$> frames)).
  assert (Hn : length (pre ++ take k (frameBytes cut)) = (length pre + k)%nat)
    by (by rewrite length_app, Hlen).
  cbn [parseFrames]. rewrite Hn.
  unfold decodeFrames. rewrite decodeFrames_messages. cbn [app messages].
  destruct (decide (length pre < length pre + k)%nat) as [Hpos|]; [|done].
  destruct (decide (length pre + k - length pre < 5)%nat) as [|Hfive]; [done|].
  rewrite !at_take_frame by lia.
  destruct cut as [flag p]. unfold frameBytes, be32, at_.
  cbn [fst snd app lookup list_lookup default].
  unfold id.
  rewrite headerLength by (unfold fits in Hcut; simpl in Hcut; lia).
  simpl in Hk. by rewrite decide_True by lia.
Qed.

(** X3. A message frame whose compression bit is set makes
    [parseResponse] throw, whatever follows it; the messages and
    trailers of the frames in front of it are lost with it. *)
Theorem parseResponse_compressed contentType headers frames bad rest :
  isGrpcWebText contentType = false →
  Forall fits frames → Forall accepted frames →
  fits bad → isTrailerFlag bad.1 = false → isCompressedFlag bad.1 = true →
  parseResponse (concat (frameBytes <$> frames) ++ frameBytes bad ++ rest)
    contentType headers
  = Some (Threw "gRPC-Web compressed messages not supported").
Proof.
  intros Hct Hfit Hacc Hbad Htr Hcomp. unfold parseResponse. rewrite Hct.
  rewrite fuel_split, (parseFrames_prefix frames _ _ Hfit Hacc).
  by rewrite parseFrames_frame, Htr, Hcomp by done.
Qed.

End ParseFacts.

(** ** Every body *)
Section Total.
Context `{Builtins}.

Lemma wireSize_snoc msgs m :
  wireSize (msgs ++ [m]) = (wireSize msgs + (5 + length m))%nat.
Proof.
  unfold wireSize. induction msgs as [|m' msgs IH]; [simpl; lia|].
  change ((m' :: msgs) ++ [m]) with (m' :: (msgs ++ [m])).
  rewrite !fmap_cons. cbn [sum_list_with]. rewrite IH. unfold id. lia.
Qed.

(** The loop returns or throws within any fuel above the bytes left:
    an iteration that goes on consumes at least five of them. What it
    returns was read from the body. *)
Lemma parseFrames_total fuel decoded : ∀ i msgs trs,
  (length decoded - i < fuel)%nat →
  (i ≤ length decoded)%nat → (wireSize msgs ≤ i)%nat →
  (∃ r, parseFrames fuel decoded i msgs trs = Some r)
  ∧ ∀ p, parseFrames fuel decoded i msgs trs = Some (Returned p) →
      (wireSize (messages p) ≤ length decoded)%nat.
Proof.
  induction fuel as [|fuel IH]; intros i msgs trs Hfuel Hi Hsz; [lia|].
  cbn [parseFrames].
  destruct (decide (i < length decoded)%nat) as [Hlt|];
    [|split; [by eexists|intros p [= <-]; simpl; lia]].
  destruct (decide (length decoded - i < 5)%nat) as [|Hfive];
    [split; [by eexists|intros p [= <-]; simpl; lia]|].
  set (len := ushr0 _).
  assert (Hlen : 0 ≤ len) by (apply Z.mod_pos_bound; lia).
  destruct (decide (Z.of_nat (length decoded - (i + 5)) < len)) as [|Hfit];
    [split; [by eexists|intros p [= <-]; simpl; lia]|].
  assert (Hslice : length (slice decoded (i + 5) (i + 5 + Z.to_nat len))
                   = Z.to_nat len).
  { unfold slice. rewrite length_take, length_drop. lia. }
  destruct (negb (band (at_ decoded i) 128 =? 0)).
  - apply IH; lia.
  - destruct (negb (band (at_ decoded i) 1 =? 0));
      [split; [by eexists|done]|].
    apply IH; [lia|lia|].
    rewrite wireSize_snoc. lia.
Qed.

(** X4. [parseResponse] answers on every body, content type and
    headers: it returns or throws, the loop never runs on. The
    messages it returns were read from the body it was given: with
    their five header bytes each they fit in it. *)
Theorem parseResponse_total body contentType headers :
  (∃ r, parseResponse body contentType headers = Some r)
  ∧ (isGrpcWebText contentType = false →
     ∀ p, parseResponse body contentType headers = Some (Returned p) →
       (wireSize (messages p) ≤ length body)%nat).
Proof.
  unfold parseResponse. split.
  - destruct (if isGrpcWebText contentType then _ else _) as [decoded|];
      [|by eexists].
    destruct (parseFrames_total (S (length decoded)) decoded 0 [] ∅)
      as [[r ->] _]; [lia|lia|unfold wireSize; simpl; lia|].
    destruct r; by eexists.
  - intros -> p.
    destruct (parseFrames_total (S (length body)) body 0 [] ∅)
      as [_ Hsz]; [lia|lia|unfold wireSize; simpl; lia|].
    destruct (parseFrames _ body 0 [] ∅) as [[q|]|] eqn:Hrun; [|done..].
    intros [= <-]. simpl. by apply Hsz.
Qed.

End Total.

(** ** The header fallback *)
Section Headers.
Context `{Builtins}.

(** One key filled from a header when the body did not give it. *)
Lemma fill_lookup (key v : string) (cond : bool) (trs : gmap string string) k :
  (if cond && negb (bool_decide (is_Some (trs !! key)))
   then <[key := v]> trs else trs) !! k
  = if decide (k = key)
    then match trs !! key with
         | Some x => Some x
         | None => if cond then Some v else None
         end
    else trs !! k.
Proof.
  case_decide as Hk.
  - subst k. destruct cond; cbn [andb]; [|by destruct (trs !! key)].
    case_bool_decide as Hin; cbn [negb].
    + by destruct Hin as [x ->].
    + rewrite lookup_insert_eq. destruct (trs !! key) eqn:Hl; [|done].
      destruct Hin. by eexists.
  - destruct (_ && _); [|done]. by rewrite lookup_insert_ne.
Qed.

Lemma fill_message_status (get : string → option string)
    (trs1 : gmap string string) :
  match get "grpc-message" with
  | Some msg =>
      if truthy msg && negb (bool_decide (is_Some (trs1 !! "grpc-message")))
      then <["grpc-message" := default msg (decodeURIComponent msg)]> trs1
      else trs1
  | None => trs1
  end !! "grpc-status" = trs1 !! "grpc-status".
Proof.
  destruct (get "grpc-message") as [msg|]; [|done].
  by rewrite fill_lookup, decide_False by done.
Qed.

Lemma fill_message_other (get : string → option string)
    (trs1 : gmap string string) k :
  k ≠ "grpc-message" →
  match get "grpc-message" with
  | Some msg =>
      if truthy msg && negb (bool_decide (is_Some (trs1 !! "grpc-message")))
      then <["grpc-message" := default msg (decodeURIComponent msg)]> trs1
      else trs1
  | None => trs1
  end !! k = trs1 !! k.
Proof.
  intros Hk. destruct (get "grpc-message") as [msg|]; [|done].
  by rewrite fill_lookup, decide_False by done.
Qed.

(** X5. The trailers of the body win over the HTTP headers: a header
    [grpc-status] or [grpc-message] is taken only when the body gave
    none and the header is not empty, the message percent-decoded when
    it can be; no other key is touched, and without headers the
    trailers are returned as they are. *)
Theorem mergeHeaders_precedence (get : string → option string)
    (trs : gmap string string) :
  mergeHeaders (Some get) trs !! "grpc-status"
  = (match trs !! "grpc-status" with
     | Some v => Some v
     | None => match get "grpc-status" with
               | Some st => if truthy st then Some st else None
               | None => None
               end
     end)
  ∧ mergeHeaders (Some get) trs !! "grpc-message"
    = (match trs !! "grpc-message" with
       | Some v => Some v
       | None => match get "grpc-message" with
                 | Some msg =>
                     if truthy msg
                     then Some (default msg (decodeURIComponent msg))
                     else None
                 | None => None
                 end
       end)
  ∧ (∀ k, k ≠ "grpc-status" → k ≠ "grpc-message" →
       mergeHeaders (Some get) trs !! k = trs !! k)
  ∧ mergeHeaders None trs = trs.
Proof.
  split_and!; [| | |done].
  - unfold mergeHeaders.
    rewrite (fill_message_status get). destruct (get "grpc-status") as [st|];
      [|by destruct (trs !! "grpc-status")].
    rewrite fill_lookup, decide_True by done. done.
  - unfold mergeHeaders.
    assert (Hsame : ∀ trs1 : gmap string string,
      trs1 !! "grpc-message" = trs !! "grpc-message" →
      match get "grpc-message" with
      | Some msg =>
          if truthy msg && negb (bool_decide (is_Some (trs1 !! "grpc-message")))
          then <["grpc-message" := default msg (decodeURIComponent msg)]> trs1
          else trs1
      | None => trs1
      end !! "grpc-message"
      = match trs !! "grpc-message" with
        | Some v => Some v
        | None => match get "grpc-message" with
                  | Some msg =>
                      if truthy msg
                      then Some (default msg (decodeURIComponent msg))
                      else None
                  | None => None
                  end
        end).
    { intros trs1 Heq. destruct (get "grpc-message") as [msg|];
        [|rewrite Heq; by destruct (trs !! "grpc-message")].
      rewrite fill_lookup, decide_True by done. by rewrite Heq. }
    apply Hsame. destruct (get "grpc-status") as [st|]; [|done].
    by rewrite fill_lookup, decide_False by done.
  - intros k Hk1 Hk2. unfold mergeHeaders.
    rewrite (fill_message_other get) by done.
    destruct (get "grpc-status") as [st|]; [|done].
    by rewrite fill_lookup, decide_False by done.
Qed.

End Headers.

(** ** [getStatus] on every map of trailers *)

Lemma orElse_nonzero x d : d ≠ 0 → orElse x d ≠ 0.
Proof.
  intros Hd. unfold orElse. destruct x as [v|]; [|done].
  destruct (Z.eqb_spec v 0); done.
Qed.

Lemma getStatus_code_nonzero trailers : code (getStatus trailers) ≠ 0.
Proof. by apply orElse_nonzero. Qed.

Lemma getStatus_fields trailers :
  ok (getStatus trailers) = bool_decide (code (getStatus trailers) = -1)
  ∧ httpEquiv (getStatus trailers) = httpEquivOf (code (getStatus trailers)).
Proof.
  pose proof (getStatus_code_nonzero trailers) as Hc.
  unfold getStatus in *. cbn [code ok httpEquiv] in *.
  set (c := orElse _ _) in *. rewrite httpEquivMap_lookup. split; [|done].
  rewrite (proj2 (Z.eqb_neq c 0)) by done. cbn [orb].
  case_bool_decide as Hm; [by rewrite Hm|]. by apply Z.eqb_neq.
Qed.

(** X6. Whatever the trailers, [getStatus] never answers the code 0
    nor the HTTP equivalent 200: [ok] holds exactly for the code -1,
    and then the HTTP equivalent is 502. A status that [parseInt] reads
    as 0 or does not read at all is answered as if there were none. *)
Theorem getStatus_never_zero (trailers : gmap string string) :
  code (getStatus trailers) ≠ 0
  ∧ httpEquiv (getStatus trailers) ≠ 200
  ∧ ok (getStatus trailers) = bool_decide (code (getStatus trailers) = -1)
  ∧ (ok (getStatus trailers) = true → httpEquiv (getStatus trailers) = 502)
  ∧ ((∀ st, trailers !! "grpc-status" = Some st →
         parseInt10 st = None ∨ parseInt10 st = Some 0) →
     getStatus trailers
     = mkGrpcStatus (-1) (default EmptyString (trailers !! "grpc-message"))
         true 502).
Proof.
  pose proof (getStatus_code_nonzero trailers) as Hc.
  destruct (getStatus_fields trailers) as [Hok Hhttp].
  split_and!; [done| |done| |].
  - rewrite Hhttp. unfold httpEquivOf. by repeat case_decide.
  - rewrite Hok, Hhttp. intros Hm%bool_decide_eq_true. by rewrite Hm.
  - intros Hst. unfold getStatus.
    assert (orElse (parseInt10 (default "-1" (trailers !! "grpc-status"))) (-1)
            = -1) as ->; [|done].
    destruct (trailers !! "grpc-status") as [st|]; [|done].
    change (default "-1" (Some st)) with st.
    by destruct (Hst st eq_refl) as [->| ->].
Qed.

Section Plain.
Context `{Builtins}.

(** X7. A body of messages only, the empty body included, with no
    status in the headers, is parsed without trailers, and [getStatus]
    answers it with [ok] and the code -1: a response that carries no
    gRPC status at all counts as a success. *)
Theorem getStatus_without_status contentType headers ps :
  isGrpcWebText contentType = false →
  Forall (λ p, Z.of_nat (length p) < 2 ^ 32) ps →
  from_option (λ get, get "grpc-status" = None ∧ get "grpc-message" = None)
    True headers →
  ∃ parsed,
    parseResponse (concat (encodePayload <$> ps)) contentType headers
    = Some (Returned parsed)
    ∧ messages parsed = ps
    ∧ trailers parsed = ∅
    ∧ getStatus (trailers parsed) = mkGrpcStatus (-1) EmptyString true 502.
Proof.
  intros Hct Hps Hhdr. unfold parseResponse. rewrite Hct.
  pose proof (parseFrames_messages ps
    (S (length (concat (encodePayload <$> ps)))) [] [] ∅ Hps) as Hrun.
  cbn [app length] in Hrun.
  rewrite Hrun by (pose proof (frames_length ps); lia).
  eexists. split; [reflexivity|]. cbn [messages trailers].
  assert (Hnone : mergeHeaders headers ∅ = ∅).
  { unfold mergeHeaders. destruct headers as [get|]; [|done].
    by destruct Hhdr as [-> ->]. }
  rewrite Hnone. by split_and!.
Qed.

End Plain.

(** ** Closed examples *)

Lemma exampleFrames_ok :
  @isGrpcWebText plainBuiltins None = false
  ∧ Forall fits exampleFrames ∧ Forall accepted exampleFrames.
Proof.
  split_and!; [done|..]; repeat constructor; by vm_compute.
Qed.


Lemma parseResponse_truncated_witness :
  @isGrpcWebText plainBuiltins None = false
  ∧ Forall fits exampleFrames ∧ Forall accepted exampleFrames
  ∧ fits exampleCompressed ∧ (6 < length (frameBytes exampleCompressed))%nat
  ∧ @parseResponse plainBuiltins
      (concat (frameBytes <$> exampleFrames)
       ++ take 6 (frameBytes exampleCompressed)) None None
    = @parseResponse plainBuiltins (concat (frameBytes <$> exampleFrames))
        None None.
Proof.
  destruct exampleFrames_ok as (Hct & Hfit & Hacc).
  assert (Hcut : fits exampleCompressed) by (by vm_compute).
  assert (Hk : (6 < length (frameBytes exampleCompressed))%nat)
    by (vm_compute; lia).
  split_and!; [exact Hct|exact Hfit|exact Hacc|exact Hcut|exact Hk|].
  exact (@parseResponse_truncated plainBuiltins None None exampleFrames
           exampleCompressed 6%nat Hct Hfit Hacc Hcut Hk).
Defined.

Lemma parseResponse_compressed_witness :
  @isGrpcWebText plainBuiltins None = false
  ∧ Forall fits exampleFrames ∧ Forall accepted exampleFrames
  ∧ fits exampleCompressed
  ∧ isTrailerFlag exampleCompressed.1 = false
  ∧ isCompressedFlag exampleCompressed.1 = true
  ∧ @parseResponse plainBuiltins
      (concat (frameBytes <$> exampleFrames)
       ++ frameBytes exampleCompressed ++ [0; 0]) None None
    = Some (Threw "gRPC-Web compressed messages not supported").
Proof.
  destruct exampleFrames_ok as (Hct & Hfit & Hacc).
  assert (Hbad : fits exampleCompressed) by (by vm_compute).
  split_and!; [exact Hct|exact Hfit|exact Hacc|exact Hbad|done|done|].
  exact (@parseResponse_compressed plainBuiltins None None exampleFrames
           exampleCompressed [0; 0] Hct Hfit Hacc Hbad eq_refl eq_refl).
Defined.

Lemma getStatus_without_status_witness :
  @isGrpcWebText plainBuiltins None = false
  ∧ Forall (λ p, Z.of_nat (length p) < 2 ^ 32) [[1; 2]; []]
  ∧ ∃ parsed,
      @parseResponse plainBuiltins (concat (encodePayload <$> [[1; 2]; []]))
        None None
      = Some (Returned parsed)
      ∧ messages parsed = [[1; 2]; []]
      ∧ trailers parsed = ∅
      ∧ getStatus (trailers parsed) = mkGrpcStatus (-1) EmptyString true 502.
Proof.
  assert (Hps : Forall (λ p, Z.of_nat (length p) < 2 ^ 32) [[1; 2]; []])
    by (repeat constructor; by vm_compute).
  split_and!; [done|exact Hps|].
  exact (@getStatus_without_status plainBuiltins None None
           [[1; 2]; []] eq_refl Hps I).
Defined.

End GrpcEdgeFacts.

(** * Further properties of a batch task *)
Module SubscriberFacts.
Import Batch Subscribers TaskFacts.

Section Facts.
Context {J : Type}.
Implicit Types (t : BatchTask J) (h : Heap J) (event : BatchEvent J).

(** ** Leaving *)

Lemma filter_notin handle (qs : list Handle) :
  handle ∉ qs → filter (λ x, x ≠ handle) qs = qs.
Proof.
  induction qs as [|x qs IH]; [done|].
  rewrite not_elem_of_cons. intros [Hne Hn].
  rewrite filter_cons, decide_True by done. by rewrite IH.
Qed.

Lemma delete_indexOf handle (qs : list Handle) idx :
  NoDup qs → indexOf handle qs = Some idx →
  delete idx qs = filter (λ x, x ≠ handle) qs.
Proof.
  revert idx. induction qs as [|x qs IH]; intros idx Hnd; [done|].
  apply NoDup_cons in Hnd as [Hx Hnd]. cbn [indexOf]. rewrite filter_cons.
  case_decide as Hxh.
  - intros [= <-]. subst x. rewrite decide_False by (by intros []).
    simpl. by rewrite filter_notin.
  - destruct (indexOf handle qs) as [i|] eqn:Hi; [|done].
    intros [= <-]. rewrite decide_True by done. simpl. f_equal. by apply IH.
Qed.

Lemma detach_filter handle t :
  NoDup (queues t) →
  queues (detach handle t) = filter (λ x, x ≠ handle) (queues t).
Proof.
  intros Hnd. unfold detach.
  destruct (indexOf handle (queues t)) as [idx|] eqn:Hidx.
  - simpl. by apply delete_indexOf.
  - apply indexOf_None in Hidx. by rewrite filter_notin.
Qed.

(** X8. [detach] takes the handle out of the subscriber list and
    leaves the others in their order; from then on the queue of the
    handle receives nothing, while every other subscriber receives what
    it would have received. Detaching a handle that is not attached, a
    second time for instance, changes nothing. *)
Theorem detach_unsubscribes t h handle es :
  wfQueues t h →
  queues (detach handle t) = filter (λ x, x ≠ handle) (queues t)
  ∧ wfQueues (detach handle t) h
  ∧ publishAll es (detach handle t) h !! handle = h !! handle
  ∧ (∀ other, other ≠ handle →
       publishAll es (detach handle t) h !! other
       = publishAll es t h !! other)
  ∧ (handle ∉ queues t → detach handle t = t)
  ∧ detach handle (detach handle t) = detach handle t.
Proof.
  intros Hwf. pose proof Hwf as [Hnd Hlt].
  pose proof (detach_wf handle t h Hwf) as Hwf'. pose proof Hwf' as [Hnd' _].
  assert (Hnotin : handle ∉ queues (detach handle t)).
  { rewrite (detach_queues handle t Hnd). by intros []. }
  assert (Hid : ∀ t', handle ∉ queues t' → detach handle t' = t').
  { intros t' Hn. unfold detach. by apply indexOf_None in Hn as ->. }
  split_and!; [by apply detach_filter|done| | |apply Hid|by apply Hid].
  - by apply publishAll_lookup_notin.
  - intros other Hne.
    destruct (decide (other ∈ queues t)) as [Hin|Hout].
    + assert (Hin' : other ∈ queues (detach handle t))
        by (by rewrite (detach_queues handle t Hnd)).
      rewrite Forall_forall in Hlt.
      destruct (lookup_lt_is_Some_2 h other (Hlt _ Hin)) as [queue Hq].
      rewrite (publishAll_lookup_in es _ h other queue Hnd' Hin' Hq).
      by rewrite (publishAll_lookup_in es t h other queue Hnd Hin Hq).
    + rewrite !publishAll_lookup_notin; [done|done|].
      rewrite (detach_queues handle t Hnd). by intros [].
Qed.

(** ** Progress events *)

Lemma record_eq success opts t h :
  record success opts t h
  = ((record success opts t []).1,
     publish (progressEvent success opts t) t h).
Proof. done. Qed.

Lemma records_cons c cs t h :
  records (c :: cs) t h
  = records cs (record c.1 c.2 t h).1 (record c.1 c.2 t h).2.
Proof. done. Qed.

Lemma records_heap cs : ∀ t h,
  (records cs t h).2 = publishAll (progressEvents cs t) t h.
Proof.
  induction cs as [|[success opts] cs IH]; intros t h; [done|].
  rewrite records_cons, IH. cbn [progressEvents fst snd].
  rewrite (record_eq success opts t h). cbn [fst snd].
  by rewrite (publishAll_core _ t (record success opts t []).1) by done.
Qed.

Lemma records_task cs : ∀ t h h',
  (records cs t h).1 = (records cs t h').1.
Proof.
  induction cs as [|[success opts] cs IH]; intros t h h'; [done|].
  rewrite !records_cons. cbn [fst snd]. apply IH.
Qed.

Lemma progressEvents_spec cs : ∀ t i event,
  progressEvents cs t !! i = Some event →
  isTerminal event = false
  ∧ eventProcessed event = processed t + Z.of_nat i + 1
  ∧ eventOk event + eventFail event - eventProcessed event
    = ok t + fail t - processed t
  ∧ ok t ≤ eventOk event ∧ fail t ≤ eventFail event.
Proof.
  induction cs as [|[success opts] cs IH]; intros t i event; [done|].
  cbn [progressEvents fst snd]. destruct i as [|i].
  - intros [= <-]. destruct success; simpl; lia.
  - intros Hi. apply IH in Hi as (Hterm & Hp & Hsum & Hok & Hfail).
    split; [done|]. destruct success; simpl in *; lia.
Qed.

Lemma progressEvents_length cs : ∀ t,
  length (progressEvents cs t) = length cs.
Proof. induction cs as [|c cs IH]; intros t; simpl; [done|by rewrite IH]. Qed.

Lemma progressEvents_last cs : ∀ t h event,
  last (progressEvents cs t) = Some event →
  eventProcessed event = processed (records cs t h).1
  ∧ eventOk event = ok (records cs t h).1
  ∧ eventFail event = fail (records cs t h).1.
Proof.
  induction cs as [|[success opts] cs IH]; intros t h event; [done|].
  rewrite records_cons. cbn [progressEvents fst snd].
  destruct cs as [|c cs].
  - intros [= <-]. by destruct success.
  - intros Hlast. rewrite (records_task _ _ _ []). apply IH.
    by destruct c.
Qed.

(** X9. A sequence of [record] calls publishes one progress event per
    call, in the order of the calls: an attached queue receives them
    up to its capacity. The n-th event carries [processed] = the
    starting value plus n (the counters are read after the increment),
    its [ok] and [fail] add up as those of the task do, and the last
    event carries the counters the task ends with. *)
Theorem records_publish_progress t h cs :
  wfQueues t h →
  (records cs t h).2 = publishAll (progressEvents cs t) t h
  ∧ length (progressEvents cs t) = length cs
  ∧ (∀ handle queue, handle ∈ queues t → h !! handle = Some queue →
       (records cs t h).2 !! handle
       = Some (queue ++ take (queueCapacity - length queue)
                          (progressEvents cs t)))
  ∧ (∀ i event, progressEvents cs t !! i = Some event →
       isTerminal event = false
       ∧ eventProcessed event = processed t + Z.of_nat i + 1
       ∧ eventOk event + eventFail event - eventProcessed event
         = ok t + fail t - processed t)
  ∧ (∀ event, last (progressEvents cs t) = Some event →
       eventProcessed event = processed (records cs t h).1
       ∧ eventOk event = ok (records cs t h).1
       ∧ eventFail event = fail (records cs t h).1).
Proof.
  intros [Hnd Hlt]. split_and!.
  - apply records_heap.
  - apply progressEvents_length.
  - intros handle queue Hin Hq. rewrite records_heap.
    by apply publishAll_lookup_in.
  - intros i event Hi.
    destruct (progressEvents_spec cs t i event Hi) as (?&?&?&_). done.
  - intros event. apply progressEvents_last.
Qed.

End Facts.

Lemma detach_unsubscribes_witness :
  wfQueues (attach (newBatchTask (J := unit) 1 "7c9e" 0) []).1.2
           (attach (newBatchTask (J := unit) 1 "7c9e" 0) []).2
  ∧ queues (detach 0%nat (attach (newBatchTask (J := unit) 1 "7c9e" 0) []).1.2)
    = filter (λ x, x ≠ 0%nat)
        (queues (attach (newBatchTask (J := unit) 1 "7c9e" 0) []).1.2).
Proof.
  assert (Hwf : wfQueues (attach (newBatchTask (J := unit) 1 "7c9e" 0) []).1.2
                  (attach (newBatchTask (J := unit) 1 "7c9e" 0) []).2).
  { apply attach_wf, newBatchTask_wf. }
  split; [exact Hwf|].
  exact (proj1 (detach_unsubscribes _ _ 0%nat [] Hwf)).
Defined.

Lemma records_publish_progress_witness :
  wfQueues (attach (newBatchTask (J := unit) 2 "7c9e" 0) []).1.2
           (attach (newBatchTask (J := unit) 2 "7c9e" 0) []).2
  ∧ length (progressEvents [(true, None); (false, None)]
              (attach (newBatchTask (J := unit) 2 "7c9e" 0) []).1.2) = 2%nat.
Proof.
  assert (Hwf : wfQueues (attach (newBatchTask (J := unit) 2 "7c9e" 0) []).1.2
                  (attach (newBatchTask (J := unit) 2 "7c9e" 0) []).2).
  { apply attach_wf, newBatchTask_wf. }
  split; [exact Hwf|].
  pose proof (records_publish_progress _ _ [(true, None); (false, None)] Hwf)
    as (_ & Hlen & _).
  exact Hlen.
Defined.

End SubscriberFacts.

(** * Further properties of the event stream *)
Module StreamEdgeFacts.
Import Batch StreamSpec TaskFacts StreamFacts.

Section Facts.
Context {J : Type} `{StreamBuiltins J}.
Implicit Types (sys : Sys J) (t : BatchTask J) (h : Heap J).

(** ** One firing of the interval, whatever the events *)

Lemma sendEvent_line (event : BatchEvent J) out :
  sendEvent event false out = out ++ omap lineOf [event].
Proof.
  unfold sendEvent, lineOf. cbn [omap list_omap].
  destruct (JSON_stringify event); simpl; [done|by rewrite app_nil_r].
Qed.

Lemma drain_lines (queue : list (BatchEvent J)) : ∀ out,
  drain queue false out
  = (afterTerminal queue, out ++ omap lineOf (uptoTerminal queue),
     existsb isTerminal queue).
Proof.
  induction queue as [|event queue IH]; intros out; cbn [drain].
  - by rewrite app_nil_r.
  - rewrite sendEvent_line. cbn [uptoTerminal afterTerminal existsb].
    destruct (isTerminal event); cbn [orb]; [done|].
    rewrite IH, <- app_assoc, <- omap_app. done.
Qed.

Lemma tick_lines sys queue :
  sys_heap sys !! handle (sys_stream sys) = Some queue →
  polling (sys_stream sys) = true →
  closed (sys_stream sys) = false →
  step ActTick sys
  = mkSys
      (mkStream (handle (sys_stream sys))
         (enqueued (sys_stream sys) ++ omap lineOf (uptoTerminal queue))
         (existsb isTerminal queue)
         (negb (existsb isTerminal queue)))
      (if existsb isTerminal queue
       then detach (handle (sys_stream sys)) (sys_task sys)
       else sys_task sys)
      (<[handle (sys_stream sys) := afterTerminal queue]> (sys_heap sys)).
Proof.
  intros Hq Hp Hc. unfold step, tick. rewrite Hp, Hq, Hc, drain_lines.
  by destruct (existsb isTerminal queue).
Qed.

(** ** The invariant *)

Lemma streamInvAny_frame first sys sys' :
  sys_stream sys' = sys_stream sys →
  queues (sys_task sys') = queues (sys_task sys) →
  length (sys_heap sys') = length (sys_heap sys) →
  streamInvAny first sys → streamInvAny first sys'.
Proof.
  intros Hs Hq Hl ([Hnd Hlt] & Hh & evs & Hout & Hlife).
  unfold streamInvAny, wfQueues. rewrite Hs, Hq, Hl. split_and!; [done..|].
  exists evs. split; [done|]. apply (lifecycle_frame sys); [done| |done].
  by rewrite Hq.
Qed.

Lemma step_invAny first (a : Action J) sys :
  foreign (handle (sys_stream sys)) a →
  streamInvAny first sys →
  streamInvAny first (step a sys)
  ∧ handle (sys_stream (step a sys)) = handle (sys_stream sys).
Proof.
  intros Hforeign Hinv.
  pose proof (publishers_frame a (sys_task sys) (sys_heap sys)) as Hpub.
  destruct a as [success opts|res warn|err| | | |other|].
  1-4: split; [|done]; destruct Hpub as [Hq Hl];
       by apply (streamInvAny_frame first sys).
  - split; [|done]. by apply (streamInvAny_frame first sys).
  - split; [|done]. destruct Hinv as (Hwf & Hh & evs & Hout & Hlife).
    pose proof (attach_wf _ _ Hwf) as Hwf'.
    split_and!; [done|simpl; rewrite length_app; simpl; lia|].
    exists evs. split; [done|].
    destruct Hlife as [(?&?&?&?)|(?&?&Hnotin&?)]; [left|right];
      split_and!; try done; simpl.
    + apply elem_of_app. by left.
    + rewrite elem_of_app, list_elem_of_singleton. intros [|]; [done|lia].
  - split; [|done]. destruct Hinv as (Hwf & Hh & evs & Hout & Hlife).
    pose proof Hwf as [Hnd _]. simpl in Hforeign.
    split_and!; [by apply detach_wf|done|].
    exists evs. split; [done|]. apply (lifecycle_frame sys); [done| |done].
    simpl. rewrite (detach_queues other _ Hnd). split; [by intros []|].
    intros Hin. split; [done|]. congruence.
  - destruct Hinv as (Hwf & Hh & evs & Hout & Hlife).
    destruct (polling (sys_stream sys)) eqn:Hp.
    2:{ unfold step, tick. rewrite Hp. destruct sys as [s t h]. simpl in *.
        split; [|done]. split_and!; [done..|]. by exists evs. }
    destruct (lookup_lt_is_Some_2 _ _ Hh) as [queue Hq].
    destruct Hlife as [(Hc & _ & Hin & Hevs)|(_ & Hp' & _)]; [|congruence].
    rewrite (tick_lines sys queue Hq Hp Hc). simpl. split; [|done].
    pose proof Hwf as [Hnd Hlt].
    assert (Hsent : enqueued (sys_stream sys) ++ omap lineOf (uptoTerminal queue)
                    = omap lineOf (first :: evs ++ uptoTerminal queue)).
    { by rewrite Hout, app_comm_cons, omap_app. }
    destruct (existsb isTerminal queue) eqn:Hex.
    + destruct (uptoTerminal_found queue Hex) as (pre & e & Hupto & He & Hpre).
      split_and!.
      * apply detach_wf. split; [done|]. simpl. by rewrite length_insert.
      * simpl. by rewrite length_insert.
      * exists (evs ++ uptoTerminal queue). simpl. split; [done|].
        right. simpl. split_and!; [done|done| |].
        { rewrite (detach_queues _ _ Hnd). by intros []. }
        exists (evs ++ pre), e. rewrite Hupto, app_assoc.
        split_and!; [done|done|by apply Forall_app].
    + destruct (uptoTerminal_none queue Hex) as [Hupto Hall].
      split_and!.
      * split; [done|]. simpl. by rewrite length_insert.
      * simpl. by rewrite length_insert.
      * exists (evs ++ uptoTerminal queue). simpl. split; [done|].
        left. simpl. rewrite Hupto.
        split_and!; [done|done|done|by apply Forall_app].
Qed.

Lemma steps_invAny first acts : ∀ sys,
  Forall (foreign (handle (sys_stream sys))) acts →
  streamInvAny first sys →
  streamInvAny first (steps acts sys)
  ∧ handle (sys_stream (steps acts sys)) = handle (sys_stream sys).
Proof.
  induction acts as [|a acts IH] using rev_ind; intros sys Hall Hinv; [done|].
  apply Forall_app in Hall as [Hacts Ha]. rewrite Forall_singleton in Ha.
  rewrite steps_snoc. destruct (IH sys Hacts Hinv) as [Hinv' Hh].
  destruct (step_invAny first a (steps acts sys)) as [Hinv'' Hh''];
    [by rewrite Hh|done|].
  split; [done|congruence].
Qed.

Lemma create_invAny t h :
  wfQueues t h →
  streamInvAny (snapshotEvent t) (createBatchEventStream t h)
  ∧ handle (sys_stream (createBatchEventStream t h)) = length h
  ∧ sys_heap (createBatchEventStream t h) !! length h = Some [].
Proof.
  intros Hwf. pose proof (attach_wf t h Hwf) as Hwf'.
  unfold createBatchEventStream, start. simpl.
  rewrite sendEvent_line. split_and!; [|done|].
  - split; [done|]. split.
    + simpl. rewrite length_app. simpl. lia.
    + exists []. split; [done|]. left. simpl. split_and!; try done.
      apply elem_of_app. right. apply list_elem_of_here.
  - by rewrite lookup_app_r, Nat.sub_diag by lia.
Qed.

(** X10. The lifecycle of a stream without assuming that its events
    serialise. The output is the lines of the snapshot and of the
    events taken off the queue, in that order, an event that
    [JSON.stringify] rejects being skipped; a firing of the interval
    takes the events up to the first terminal one and closes the stream
    when there is one, whether that event could be written or not: a
    terminal event that does not serialise closes the stream without a
    line of its own. *)
Theorem stream_lifecycle_any_event t h acts :
  wfQueues t h →
  Forall (foreign (length h)) acts →
  (∃ evs,
     enqueued (sys_stream (steps acts (createBatchEventStream t h)))
     = omap lineOf (snapshotEvent t :: evs)
     ∧ lifecycle (steps acts (createBatchEventStream t h)) evs)
  ∧ (∀ queue,
       sys_heap (steps acts (createBatchEventStream t h))
         !! handle (sys_stream (steps acts (createBatchEventStream t h)))
       = Some queue →
       polling (sys_stream (steps acts (createBatchEventStream t h))) = true →
       enqueued (sys_stream
                   (step ActTick (steps acts (createBatchEventStream t h))))
       = enqueued (sys_stream (steps acts (createBatchEventStream t h)))
         ++ omap lineOf (uptoTerminal queue)
       ∧ closed (sys_stream
                   (step ActTick (steps acts (createBatchEventStream t h))))
         = existsb isTerminal queue).
Proof.
  intros Hwf Hacts.
  destruct (create_invAny t h Hwf) as (Hinv0 & Hh0 & _).
  destruct (steps_invAny (snapshotEvent t) acts (createBatchEventStream t h))
    as [Hinv Hh]; [by rewrite Hh0|done|].
  set (sys := steps acts (createBatchEventStream t h)) in *.
  destruct Hinv as (Hwf' & Hlt & evs & Hout & Hlife).
  split; [by exists evs|].
  intros queue Hq Hp.
  destruct Hlife as [(Hc&_)|(_&Hp'&_)]; [|congruence].
  by rewrite (tick_lines sys queue Hq Hp Hc).
Qed.

(** ** Streams that stay open *)

Lemma queueOpen_frame sys sys' :
  sys_stream sys' = sys_stream sys →
  sys_heap sys' !! handle (sys_stream sys)
  = sys_heap sys !! handle (sys_stream sys) →
  queueOpen sys → queueOpen sys'.
Proof. unfold queueOpen. by intros -> ->. Qed.

Lemma publish_queueOpen (event : BatchEvent J) t sys :
  wfQueues (sys_task sys) (sys_heap sys) →
  queues t = queues (sys_task sys) →
  isTerminal event = false →
  queueOpen sys →
  queueOpen (mkSys (sys_stream sys) t (publish event t (sys_heap sys))).
Proof.
  intros [Hnd _] Hqs He (queue & Hq & Hall). unfold queueOpen. simpl.
  rewrite <- Hqs in Hnd.
  destruct (decide (handle (sys_stream sys) ∈ queues t)) as [Hin|Hout].
  - rewrite (publish_lookup_in event _ _ _ queue Hnd Hin Hq).
    eexists. split; [done|]. case_decide; [|done].
    apply Forall_app. split; [done|]. by constructor.
  - rewrite publish_lookup_notin by done. by exists queue.
Qed.

Lemma step_open (a : Action J) sys :
  foreign (handle (sys_stream sys)) a →
  publishesTerminal a = false →
  wfQueues (sys_task sys) (sys_heap sys) →
  closed (sys_stream sys) = false → polling (sys_stream sys) = true →
  queueOpen sys →
  closed (sys_stream (step a sys)) = false
  ∧ polling (sys_stream (step a sys)) = true
  ∧ queueOpen (step a sys).
Proof.
  intros Hforeign Hterm Hwf Hc Hp Hopen.
  destruct a as [success opts|res warn|err| | | |other|]; try done.
  - split_and!; [done..|].
    by apply (publish_queueOpen _ (record success opts (sys_task sys) []).1 sys).
  - split_and!; [done..|]. apply (queueOpen_frame sys); [done| |done].
    simpl. destruct Hopen as (queue & Hq & _).
    by rewrite (lookup_app_l_Some _ _ _ _ Hq).
  - destruct Hopen as (queue & Hq & Hall).
    assert (Hex : existsb isTerminal queue = false).
    { clear Hq. induction Hall as [|e q He _ IH]; [done|].
      simpl. by rewrite He, IH. }
    rewrite (tick_lines sys queue Hq Hp Hc), Hex. simpl.
    split_and!; [done..|]. unfold queueOpen. simpl.
    rewrite list_lookup_insert_eq by (by eapply lookup_lt_Some).
    eexists. split; [done|].
    clear Hq Hex. induction Hall as [|e q He _ IH]; [done|].
    simpl. by rewrite He.
Qed.

Lemma steps_open acts : ∀ sys first,
  Forall (foreign (handle (sys_stream sys))) acts →
  Forall (λ a, publishesTerminal a = false) acts →
  streamInvAny first sys →
  closed (sys_stream sys) = false → polling (sys_stream sys) = true →
  queueOpen sys →
  closed (sys_stream (steps acts sys)) = false
  ∧ polling (sys_stream (steps acts sys)) = true
  ∧ queueOpen (steps acts sys).
Proof.
  induction acts as [|a acts IH] using rev_ind;
    intros sys first Hall Hterm Hinv Hc Hp Hopen; [done|].
  apply Forall_app in Hall as [Hacts Ha]. rewrite Forall_singleton in Ha.
  apply Forall_app in Hterm as [Hterms Hta]. rewrite Forall_singleton in Hta.
  rewrite steps_snoc.
  destruct (IH sys first Hacts Hterms Hinv Hc Hp Hopen) as (Hc' & Hp' & Hopen').
  destruct (steps_invAny first acts sys Hacts Hinv) as [(Hwf' & _) Hh].
  apply step_open; [by rewrite Hh|done..].
Qed.

(** X11. A stream never reads the final event a task has cached: it
    closes only on a terminal event that arrives in its queue. On any
    task, one that has already finished included, as long as no
    terminal transition is called after the stream was created, the
    stream stays open, keeps polling and stays attached, whatever else
    happens; its output is the snapshot followed by lines of progress
    events. *)
Theorem stream_stays_open t h acts :
  wfQueues t h →
  Forall (foreign (length h)) acts →
  Forall (λ a, publishesTerminal a = false) acts →
  closed (sys_stream (steps acts (createBatchEventStream t h))) = false
  ∧ polling (sys_stream (steps acts (createBatchEventStream t h))) = true
  ∧ handle (sys_stream (steps acts (createBatchEventStream t h)))
    ∈ queues (sys_task (steps acts (createBatchEventStream t h)))
  ∧ ∃ evs,
      enqueued (sys_stream (steps acts (createBatchEventStream t h)))
      = omap lineOf (snapshotEvent t :: evs)
      ∧ Forall (λ e, isTerminal e = false) evs.
Proof.
  intros Hwf Hacts Hterm.
  destruct (create_invAny t h Hwf) as (Hinv0 & Hh0 & Hq0).
  destruct (steps_open acts (createBatchEventStream t h) (snapshotEvent t))
    as (Hc & Hp & _); [by rewrite Hh0|done|done|done|done| |].
  { exists []. rewrite Hh0. by split. }
  destruct (steps_invAny (snapshotEvent t) acts (createBatchEventStream t h))
    as [(_ & _ & evs & Hout & Hlife) _]; [by rewrite Hh0|done|].
  destruct Hlife as [(_ & _ & Hin & Hevs)|(Hc' & _)]; [|congruence].
  split_and!; [done|done|done|]. by exists evs.
Qed.

(** ** A terminal event and a full queue *)

(** X12. What a terminal transition does to an open stream whose
    queue holds progress events only. If the queue has room, the next
    firing of the interval sends the queue and the terminal event and
    closes the stream, which detaches. If the queue is full (200
    events), the terminal event is dropped: the next firing sends the
    200 queued events and leaves the stream open, polling and attached
    with an empty queue, although the task has reached its terminal
    status. *)
Theorem terminal_event_and_full_queue sys queue (c : TerminalCall J) :
  wfQueues (sys_task sys) (sys_heap sys) →
  handle (sys_stream sys) ∈ queues (sys_task sys) →
  sys_heap sys !! handle (sys_stream sys) = Some queue →
  Forall (λ e, isTerminal e = false) queue →
  closed (sys_stream sys) = false → polling (sys_stream sys) = true →
  status (sys_task (steps [actOf c; ActTick] sys)) = terminalStatus c
  ∧ if decide (length queue < queueCapacity)%nat then
      enqueued (sys_stream (steps [actOf c; ActTick] sys))
      = enqueued (sys_stream sys)
        ++ omap lineOf (queue ++ [terminalEvent c (sys_task sys)])
      ∧ closed (sys_stream (steps [actOf c; ActTick] sys)) = true
      ∧ polling (sys_stream (steps [actOf c; ActTick] sys)) = false
      ∧ handle (sys_stream sys)
        ∉ queues (sys_task (steps [actOf c; ActTick] sys))
    else
      enqueued (sys_stream (steps [actOf c; ActTick] sys))
      = enqueued (sys_stream sys) ++ omap lineOf queue
      ∧ closed (sys_stream (steps [actOf c; ActTick] sys)) = false
      ∧ polling (sys_stream (steps [actOf c; ActTick] sys)) = true
      ∧ handle (sys_stream sys)
        ∈ queues (sys_task (steps [actOf c; ActTick] sys))
      ∧ sys_heap (steps [actOf c; ActTick] sys) !! handle (sys_stream sys)
        = Some [].
Proof.
  intros Hwf Hin Hq Hall Hc Hp. pose proof Hwf as [Hnd _].
  assert (Hex : existsb isTerminal queue = false).
  { clear Hq. induction Hall as [|e q He _ IH]; [done|].
    simpl. by rewrite He, IH. }
  destruct (uptoTerminal_none queue Hex) as [Hupto _].
  assert (He : isTerminal (terminalEvent c (sys_task sys)) = true)
    by (by destruct c).
  set (sys1 := step (actOf c) sys).
  assert (Hsys1 : sys1 = mkSys (sys_stream sys) (terminal c (sys_task sys) (sys_heap sys)).1
                           (terminal c (sys_task sys) (sys_heap sys)).2)
    by (by destruct c).
  pose proof (terminal_spec c (sys_task sys) (sys_heap sys))
    as ((_&_&_&_&_&Hqs) & Hst & _ & Hpub & _).
  assert (Hq1 : sys_heap sys1 !! handle (sys_stream sys1)
                = Some (if decide (length queue < queueCapacity)%nat
                        then queue ++ [terminalEvent c (sys_task sys)]
                        else queue)).
  { rewrite Hsys1. simpl. rewrite Hpub. by apply publish_lookup_in. }
  change (steps [actOf c; ActTick] sys) with (step ActTick sys1).
  rewrite (tick_lines sys1 _ Hq1) by (by rewrite Hsys1).
  assert (Hs1 : sys_stream sys1 = sys_stream sys) by (by rewrite Hsys1).
  assert (Ht1 : sys_task sys1 = (terminal c (sys_task sys) (sys_heap sys)).1)
    by (by rewrite Hsys1).
  rewrite Hs1, Ht1. cbn [sys_task sys_stream sys_heap enqueued closed polling].
  case_decide as Hroom.
  - assert (Hex1 : existsb isTerminal (queue ++ [terminalEvent c (sys_task sys)])
                   = true).
    { rewrite existsb_app. simpl. by rewrite He, orb_true_r. }
    assert (Hupto1 : uptoTerminal (queue ++ [terminalEvent c (sys_task sys)])
                     = queue ++ [terminalEvent c (sys_task sys)]).
    { clear Hq Hq1 Hex Hupto Hroom Hex1. induction Hall as [|e q Hne _ IH].
      - simpl. by rewrite He.
      - simpl. by rewrite Hne, IH. }
    rewrite Hex1, Hupto1. cbn [negb].
    split; [|split_and!; try done].
    + unfold detach. simpl in Hqs. rewrite Hqs.
      destruct (indexOf _ (queues (sys_task sys))); [|done]. by destruct c.
    + rewrite detach_queues by (by rewrite Hqs). by intros [].
  - rewrite Hex, Hupto. cbn [negb]. split; [done|].
    split_and!; try done.
    + simpl in Hqs. by rewrite Hqs.
    + rewrite list_lookup_insert_eq.
      * clear Hq Hq1 Hex Hupto Hroom. induction Hall as [|e q Hne _ IH]; [done|].
        simpl. by rewrite Hne.
      * rewrite Hsys1. simpl. rewrite Hpub, publish_length.
        by eapply lookup_lt_Some.
Qed.

End Facts.

Lemma stream_lifecycle_any_event_witness :
  wfQueues exampleTask []
  ∧ Forall (foreign (J := unit) 0%nat) [ActFailTask "boom"; ActTick]
  ∧ ∃ evs,
      enqueued (sys_stream
        (steps (H := partialStream) [ActFailTask "boom"; ActTick]
           (createBatchEventStream (H := partialStream) exampleTask [])))
      = omap (lineOf (H := partialStream)) (snapshotEvent exampleTask :: evs)
      ∧ lifecycle
          (steps (H := partialStream) [ActFailTask "boom"; ActTick]
             (createBatchEventStream (H := partialStream) exampleTask []))
          evs.
Proof.
  assert (Hwf : wfQueues exampleTask (@nil (list (BatchEvent unit))))
    by apply newBatchTask_wf.
  assert (Hacts : Forall (foreign (J := unit) 0%nat)
                    [ActFailTask "boom"; ActTick])
    by (repeat constructor).
  split_and!; [exact Hwf|exact Hacts|].
  exact (proj1 (stream_lifecycle_any_event (H := partialStream)
                  exampleTask [] _ Hwf Hacts)).
Defined.

Lemma stream_stays_open_witness :
  wfQueues exampleTask []
  ∧ Forall (foreign (J := unit) 0%nat) [ActRecord true None; ActTick; ActCancel]
  ∧ Forall (λ a : Action unit, publishesTerminal a = false)
      [ActRecord true None; ActTick; ActCancel]
  ∧ closed (sys_stream
       (steps (H := plainStream) [ActRecord true None; ActTick; ActCancel]
          (createBatchEventStream (H := plainStream) exampleTask [])))
    = false.
Proof.
  assert (Hwf : wfQueues exampleTask (@nil (list (BatchEvent unit))))
    by apply newBatchTask_wf.
  assert (Hacts : Forall (foreign (J := unit) 0%nat)
                    [ActRecord true None; ActTick; ActCancel])
    by (repeat constructor).
  assert (Hterm : Forall (λ a : Action unit, publishesTerminal a = false)
                    [ActRecord true None; ActTick; ActCancel])
    by (repeat constructor).
  split_and!; [exact Hwf|exact Hacts|exact Hterm|].
  exact (proj1 (stream_stays_open (H := plainStream)
                  exampleTask [] _ Hwf Hacts Hterm)).
Defined.

Lemma terminal_event_and_full_queue_witness :
  wfQueues
    (sys_task (createBatchEventStream (H := plainStream) exampleTask []))
    (sys_heap (createBatchEventStream (H := plainStream) exampleTask []))
  ∧ status (sys_task
      (steps (H := plainStream) [actOf CallFinishCancelled; ActTick]
         (createBatchEventStream (H := plainStream) exampleTask [])))
    = terminalStatus (J := unit) CallFinishCancelled.
Proof.
  assert (Hwf : wfQueues
    (sys_task (createBatchEventStream (H := plainStream) exampleTask []))
    (sys_heap (createBatchEventStream (H := plainStream) exampleTask []))).
  { apply (attach_wf exampleTask []), newBatchTask_wf. }
  split; [exact Hwf|].
  refine (proj1 (terminal_event_and_full_queue (H := plainStream)
                   (createBatchEventStream (H := plainStream) exampleTask [])
                   [] CallFinishCancelled Hwf _ eq_refl _ eq_refl eq_refl)).
  - apply list_elem_of_here.
  - constructor.
Defined.

End StreamEdgeFacts.

(** * The lifecycle of the event stream *)
Module StreamLifecycleFacts.
Import Batch StreamSpec StreamContract TaskFacts StreamFacts StreamEdgeFacts.

Section Facts.
Context {J : Type} `{StreamBuiltins J}.

Lemma dataLine_lineOf (event : BatchEvent J) : dataLine event = lineOf event.
Proof.
  unfold dataLine, lineOf. by destruct (JSON_stringify event).
Qed.

Lemma omap_dataLine (evs : list (BatchEvent J)) :
  omap dataLine evs = omap lineOf evs.
Proof.
  induction evs as [|e evs IH]; [done|].
  cbn [omap list_omap]. by rewrite dataLine_lineOf, IH.
Qed.

Lemma isTerminal_false (event : BatchEvent J) :
  isTerminal event = false ↔ eventType event = "progress".
Proof. by destruct event. Qed.

Lemma isTerminal_true (event : BatchEvent J) :
  isTerminal event = true
  ↔ eventType event ∈ ["done"; "error"; "cancelled"].
Proof.
  rewrite !elem_of_cons, elem_of_nil. destruct event; simpl; naive_solver.
Qed.

Lemma isTerminal_all_false (evs : list (BatchEvent J)) :
  Forall (λ e, isTerminal e = false) evs
  ↔ Forall (λ e, eventType e = "progress") evs.
Proof. apply Forall_proper; [|done]. intros e. apply isTerminal_false. Qed.

Lemma queue_progress (queue : list (BatchEvent J)) :
  Forall (λ e, isTerminal e = false) queue →
  uptoTerminal queue = queue ∧ existsb isTerminal queue = false
  ∧ afterTerminal queue = [].
Proof.
  induction 1 as [|e queue He _ (IH1 & IH2 & IH3)]; [done|].
  cbn [uptoTerminal existsb afterTerminal]. by rewrite He, IH1, IH2, IH3.
Qed.

Lemma queue_terminal (pre post : list (BatchEvent J)) e :
  Forall (λ e, isTerminal e = false) pre →
  isTerminal e = true →
  uptoTerminal (pre ++ e :: post) = pre ++ [e]
  ∧ existsb isTerminal (pre ++ e :: post) = true
  ∧ afterTerminal (pre ++ e :: post) = post.
Proof.
  intros Hpre He. induction Hpre as [|e' pre He' _ (IH1 & IH2 & IH3)].
  - cbn [app uptoTerminal existsb afterTerminal]. by rewrite He.
  - cbn [app uptoTerminal existsb afterTerminal]. by rewrite He', IH1, IH2, IH3.
Qed.

(** A closed stream is left alone by every call. *)
Lemma closed_step first (a : Action J) sys :
  streamInvAny first sys →
  closed (sys_stream sys) = true →
  sys_stream (step a sys) = sys_stream sys.
Proof.
  intros (_ & _ & evs & _ & Hlife) Hc.
  destruct Hlife as [(Hc' & _)|(_ & Hp & _)]; [congruence|].
  destruct a; try done. unfold step, tick. rewrite Hp. by destruct sys.
Qed.

Lemma closed_steps first acts : ∀ sys,
  Forall (foreign (handle (sys_stream sys))) acts →
  streamInvAny first sys →
  closed (sys_stream sys) = true →
  sys_stream (steps acts sys) = sys_stream sys.
Proof.
  induction acts as [|a acts IH] using rev_ind; intros sys Hall Hinv Hc; [done|].
  apply Forall_app in Hall as [Hacts _].
  rewrite steps_snoc.
  destruct (steps_invAny first acts sys Hacts Hinv) as [Hinv' _].
  rewrite (closed_step first a (steps acts sys) Hinv'); [by apply IH|].
  by rewrite (IH sys Hacts Hinv Hc).
Qed.

(** C8. The lifecycle of the stream of any task, under any calls on
    the task, arrivals and departures of other subscribers and firings
    of the interval. [start] attaches a handle and sends one line for
    the synthetic progress event that holds the id, the total and the
    counters of the task at that time. An event becomes the line
    [data: <JSON>] followed by two line feeds; an event that
    [JSON.stringify] rejects is skipped. The output is always the
    snapshot followed by the events taken off the queue, in queue
    order. A firing of the interval on a queue of progress events sends
    them all and leaves the stream open, polling and attached; on a
    queue with a first event of type done, error or cancelled it sends
    the events up to that one, stops polling, detaches the handle and
    closes the stream, what follows in the queue staying there. An open
    stream has taken no terminal event; a closed one has taken exactly
    one, as its last, which is on the wire exactly when it serialised;
    after the close nothing is sent any more. *)
Theorem stream_contract t h acts :
  wfQueues t h →
  Forall (foreign (length h)) acts →
  let first :=
    BatchProgressEvent (id t) (total t) (processed t) (ok t) (fail t)
      None None None in
  let sys0 := createBatchEventStream t h in
  let sys := steps acts sys0 in
  (* start *)
  (enqueued (sys_stream sys0) = omap dataLine [first]
   ∧ (∀ json, JSON_stringify first = Some json →
        enqueued (sys_stream sys0)
        = [TextEncoder_encode
             ("data: " +:+ json
              +:+ String "010"%char (String "010"%char EmptyString))])
   ∧ closed (sys_stream sys0) = false ∧ polling (sys_stream sys0) = true
   ∧ handle (sys_stream sys0) ∈ queues (sys_task sys0)
   ∧ sys_heap sys0 !! handle (sys_stream sys0) = Some [])
  (* at any time *)
  ∧ (∃ evs,
       enqueued (sys_stream sys) = omap dataLine (first :: evs)
       ∧ ((closed (sys_stream sys) = false ∧ polling (sys_stream sys) = true
           ∧ handle (sys_stream sys) ∈ queues (sys_task sys)
           ∧ Forall (λ e, eventType e = "progress") evs)
          ∨ (closed (sys_stream sys) = true ∧ polling (sys_stream sys) = false
             ∧ (handle (sys_stream sys) ∉ queues (sys_task sys))
             ∧ ∃ pre e,
                 evs = pre ++ [e]
                 ∧ Forall (λ e, eventType e = "progress") pre
                 ∧ eventType e ∈ ["done"; "error"; "cancelled"]
                 ∧ enqueued (sys_stream sys)
                   = omap dataLine (first :: pre) ++ option_list (dataLine e))))
  (* a firing of the interval *)
  ∧ (∃ queue, sys_heap sys !! handle (sys_stream sys) = Some queue)
  ∧ (∀ queue,
       sys_heap sys !! handle (sys_stream sys) = Some queue →
       polling (sys_stream sys) = true →
       (Forall (λ e, eventType e = "progress") queue →
        enqueued (sys_stream (step ActTick sys))
        = enqueued (sys_stream sys) ++ omap dataLine queue
        ∧ closed (sys_stream (step ActTick sys)) = false
        ∧ polling (sys_stream (step ActTick sys)) = true
        ∧ handle (sys_stream sys) ∈ queues (sys_task (step ActTick sys))
        ∧ sys_heap (step ActTick sys) !! handle (sys_stream sys) = Some [])
       ∧ (∀ pre e post,
            queue = pre ++ e :: post →
            Forall (λ e, eventType e = "progress") pre →
            eventType e ∈ ["done"; "error"; "cancelled"] →
            enqueued (sys_stream (step ActTick sys))
            = enqueued (sys_stream sys) ++ omap dataLine (pre ++ [e])
            ∧ closed (sys_stream (step ActTick sys)) = true
            ∧ polling (sys_stream (step ActTick sys)) = false
            ∧ (handle (sys_stream sys) ∉ queues (sys_task (step ActTick sys)))
            ∧ sys_heap (step ActTick sys) !! handle (sys_stream sys)
              = Some post))
  (* after the close *)
  ∧ (closed (sys_stream sys) = true →
     ∀ later, Forall (foreign (length h)) later →
       enqueued (sys_stream (steps later sys)) = enqueued (sys_stream sys)
       ∧ closed (sys_stream (steps later sys)) = true
       ∧ polling (sys_stream (steps later sys)) = false).
Proof.
  intros Hwf Hacts first sys0 sys.
  change first with (snapshotEvent t).
  destruct (create_invAny t h Hwf) as (Hinv0 & Hh0 & Hq0).
  fold sys0 in Hinv0, Hh0, Hq0.
  destruct (steps_invAny (snapshotEvent t) acts sys0) as [Hinv Hh];
    [by rewrite Hh0|done|].
  fold sys in Hinv, Hh.
  assert (Hstart : enqueued (sys_stream sys0) = omap dataLine [snapshotEvent t]).
  { rewrite omap_dataLine. unfold sys0, createBatchEventStream, start.
    simpl. by rewrite sendEvent_line. }
  split; [|split; [|split; [|split]]].
  - (* start *)
    split_and!.
    + done.
    + intros json Hjson. rewrite Hstart. cbn [omap list_omap].
      unfold dataLine. by rewrite Hjson.
    + by unfold sys0, createBatchEventStream, start.
    + by unfold sys0, createBatchEventStream, start.
    + destruct Hinv0 as (_ & _ & evs0 & _ & [(_&_&Hin&_)|(Hc&_)]); [done|].
      by unfold createBatchEventStream, start in Hc.
    + by rewrite Hh0.
  - (* at any time *)
    destruct Hinv as (_ & _ & evs & Hout & Hlife). exists evs.
    rewrite omap_dataLine. split; [done|].
    destruct Hlife as [(Hc & Hp & Hin & Hevs)|(Hc & Hp & Hnotin & Hlast)].
    + left. split_and!; [done..|]. by apply isTerminal_all_false.
    + right. split_and!; [done..|].
      destruct Hlast as (pre & e & -> & He & Hpre). exists pre, e.
      split_and!; [done|by apply isTerminal_all_false
                  |by apply isTerminal_true|].
      rewrite Hout.
      change (snapshotEvent t :: pre ++ [e])
        with ((snapshotEvent t :: pre) ++ [e]).
      rewrite omap_app, <- !omap_dataLine. by f_equal.
  - (* the queue is there *)
    destruct Hinv as (_ & Hlt & _). by apply lookup_lt_is_Some_2.
  - (* a firing *)
    intros queue Hq Hp.
    destruct Hinv as ([Hnd Hbound] & Hlt & evs & _ & Hlife).
    destruct Hlife as [(Hc & _ & Hin & _)|(_ & Hp' & _)]; [|congruence].
    rewrite (tick_lines sys queue Hq Hp Hc). split.
    + intros Hall. apply isTerminal_all_false in Hall.
      destruct (queue_progress queue Hall) as (-> & -> & ->).
      cbn [sys_stream sys_task sys_heap enqueued closed polling negb].
      split_and!; [done..|].
      by rewrite list_lookup_insert_eq.
    + intros pre e post -> Hpre He.
      apply isTerminal_all_false in Hpre. apply isTerminal_true in He.
      destruct (queue_terminal pre post e Hpre He) as (-> & -> & ->).
      cbn [sys_stream sys_task sys_heap enqueued closed polling negb].
      split_and!; [done..| |].
      * rewrite (detach_queues _ _ Hnd). by intros [].
      * by rewrite list_lookup_insert_eq.
  - (* after the close *)
    intros Hc later Hlater.
    rewrite (closed_steps (snapshotEvent t) later sys);
      [|by rewrite Hh, Hh0|done|done].
    split_and!; [done..|].
    destruct Hinv as (_ & _ & evs & _ & [(Hc' & _)|(_ & Hp & _)]);
      [congruence|done].
Qed.

End Facts.

(** C8, as stated, fails: [finish] with a result that holds a cycle
    publishes a done event that [JSON.stringify] rejects. The next
    firing of the interval takes it off the queue, sends nothing,
    stops polling, detaches and closes: the closed stream carries the
    snapshot and no terminal event. *)
Lemma unserialisable_terminal_event_not_sent :
  let sys :=
    steps (H := payloadStream) [ActFinish Cyclic None; ActTick]
      (createBatchEventStream (H := payloadStream) payloadTask []) in
  status (sys_task sys) = Done
  ∧ closed (sys_stream sys) = true
  ∧ polling (sys_stream sys) = false
  ∧ sys_heap sys !! handle (sys_stream sys) = Some []
  ∧ enqueued (sys_stream sys)
    = omap (dataLine (H := payloadStream))
        [BatchProgressEvent "7c9e-6679" 3 0 0 0 None None None]
  ∧ length (enqueued (sys_stream sys)) = 1%nat.
Proof. vm_compute. split_and!; done. Qed.

Lemma stream_contract_witness :
  wfQueues payloadTask []
  ∧ Forall (foreign (J := Payload) 0%nat)
      [ActRecord true None; ActFinish Plain None; ActTick]
  ∧ closed (sys_stream
       (steps (H := payloadStream)
          [ActRecord true None; ActFinish Plain None; ActTick]
          (createBatchEventStream (H := payloadStream) payloadTask [])))
    = true
  ∧ ∀ later, Forall (foreign (J := Payload) 0%nat) later →
      enqueued (sys_stream
        (steps (H := payloadStream) later
           (steps (H := payloadStream)
              [ActRecord true None; ActFinish Plain None; ActTick]
              (createBatchEventStream (H := payloadStream) payloadTask []))))
      = enqueued (sys_stream
          (steps (H := payloadStream)
             [ActRecord true None; ActFinish Plain None; ActTick]
             (createBatchEventStream (H := payloadStream) payloadTask [])))
      ∧ closed (sys_stream
          (steps (H := payloadStream) later
             (steps (H := payloadStream)
                [ActRecord true None; ActFinish Plain None; ActTick]
                (createBatchEventStream (H := payloadStream) payloadTask []))))
        = true
      ∧ polling (sys_stream
          (steps (H := payloadStream) later
             (steps (H := payloadStream)
                [ActRecord true None; ActFinish Plain None; ActTick]
                (createBatchEventStream (H := payloadStream) payloadTask []))))
        = false.
Proof.
  assert (Hwf : wfQueues payloadTask (@nil (list (BatchEvent Payload))))
    by apply newBatchTask_wf.
  assert (Hacts : Forall (foreign (J := Payload) 0%nat)
                    [ActRecord true None; ActFinish Plain None; ActTick])
    by (repeat constructor).
  assert (Hclosed : closed (sys_stream
       (steps (H := payloadStream)
          [ActRecord true None; ActFinish Plain None; ActTick]
          (createBatchEventStream (H := payloadStream) payloadTask [])))
    = true) by reflexivity.
  split_and!; [exact Hwf|exact Hacts|exact Hclosed|].
  pose proof (stream_contract (H := payloadStream) payloadTask [] _ Hwf Hacts)
    as (_ & _ & _ & _ & Hafter).
  exact (Hafter Hclosed).
Defined.

End StreamLifecycleFacts.

(** * Further properties of the executor *)
Module ExecutorRunFacts.
Import Batch Accounting TaskFacts ExecutorFacts.

Section Facts.
Context {J T R W : Type} `{EqDecision T}.
Implicit Types (m : list (T * BatchResult R)) (s : St J T R W).

(** ** Counting entries *)

Lemma mapSet_fresh k (v : BatchResult R) m :
  k ∉ m.*1 → mapSet k v m = m ++ [(k, v)].
Proof.
  induction m as [|[k' v'] m IH]; cbn [mapSet]; [done|].
  rewrite fmap_cons, not_elem_of_cons. cbn [fst]. intros [Hne Hnin].
  case_decide; [congruence|]. by rewrite IH.
Qed.

Lemma counts_snoc m k (v : BatchResult R) :
  countOk (m ++ [(k, v)]) = countOk m + (if res_ok v then 1 else 0)
  ∧ countFailed (m ++ [(k, v)])
    = countFailed m
      + (if res_ok v then 0 else if isCancelledEntry v then 0 else 1)
  ∧ countCancelled (m ++ [(k, v)])
    = countCancelled m + (if isCancelledEntry v then 1 else 0).
Proof.
  unfold countOk, countFailed, countCancelled.
  rewrite !filter_app, !length_app, !filter_cons, !filter_nil. cbn [fst snd].
  destruct (res_ok v), (isCancelledEntry v); simpl;
    repeat case_decide; simpl; try lia; naive_solver.
Qed.

Lemma tallies_refl (t : BatchTask J) : tallies (@nil (T * BatchResult R)) t t.
Proof. unfold tallies, countOk, countFailed. simpl. split_and!; (done || lia). Qed.

(** Adding an entry that [record] does not count, and one that it
    counts. *)
Lemma tallies_cancelled m item (t0 t : BatchTask J) :
  tallies m t0 t → tallies (m ++ [(item, @cancelledResult R)]) t0 t.
Proof.
  unfold tallies.
  destruct (counts_snoc m item (@cancelledResult R)) as (-> & -> & _).
  simpl. by rewrite !Z.add_0_r.
Qed.

Lemma tallies_record m item (r : BatchResult R) opts h (t0 t : BatchTask J) :
  isCancelledEntry r = false →
  tallies m t0 t →
  tallies (m ++ [(item, r)]) t0 (record (res_ok r) opts t h).1.
Proof.
  intros Hcan Htal. unfold tallies in *.
  destruct (counts_snoc m item r) as (-> & -> & _). rewrite Hcan.
  destruct Htal as (?&?&?&?&?&?&?&?&?&?&?&?).
  destruct (res_ok r); simpl; split_and!; (done || lia).
Qed.

(** ** One run *)
Section Run.
Variable worker : T → W → WorkerRun R W.
Variable schedule : list T → list T.
Variable options : Options J W.
Hypothesis schedule_perm : ∀ pending, schedule pending ≡ₚ pending.
Variable t0 : option (BatchTask J).

Lemma tallied_frame n s s' :
  st_task s' = st_task s → st_heap s' = st_heap s → results s' = results s →
  tallied worker t0 n s → tallied worker t0 n s'.
Proof. unfold tallied. by intros -> -> ->. Qed.

(** The start of an item that is not yet a key: it is cancelled and
    gets its entry, or it joins the pending items. *)
Lemma processOneStart_tally n s pending item :
  item ∉ (results s).*1 → tallied worker t0 n s →
  ∃ s' : St J T R W,
    tallied worker t0 n s'
    ∧ (processOneStart options (s, pending) item = (s', pending ++ [item])
       ∧ results s' = results s
       ∨ processOneStart options (s, pending) item = (s', pending)
         ∧ results s' = results s ++ [(item, cancelledResult)]).
Proof.
  intros Hfresh (Htask & Hent & Hheap). unfold processOneStart.
  destruct (isCancelled_frame options s) as (Ht & Hh & Hr).
  destruct (isCancelled options s) as [c s1]. simpl in Ht, Hh, Hr.
  destruct c.
  - eexists. split; [|right; split; [done|]].
    + unfold tallied. simpl. rewrite Ht, Hh, Hr, mapSet_fresh by done.
      split_and!; [|apply Forall_app; split; [done|]|done].
      * destruct Htask as [ta tb Htal|]; constructor.
        by apply tallies_cancelled.
      * constructor; [by left|done].
    + simpl. by rewrite Hr, mapSet_fresh.
  - exists s1. split; [|by left].
    by apply (tallied_frame n s).
Qed.

Lemma starts_tally n chunk : ∀ s pending,
  NoDup chunk → (∀ x, x ∈ chunk → x ∉ (results s).*1) →
  tallied worker t0 n s →
  ∃ (s' : St J T R W) started dropped,
    foldl (processOneStart options) (s, pending) chunk
    = (s', pending ++ started)
    ∧ tallied worker t0 n s'
    ∧ (results s').*1 = (results s).*1 ++ dropped
    ∧ dropped ++ started ≡ₚ chunk.
Proof.
  induction chunk as [|x chunk IH]; intros s pending Hnd Hfresh Htal;
    cbn [foldl].
  - exists s, [], []. by rewrite !app_nil_r.
  - apply NoDup_cons in Hnd as [Hx Hnd].
    destruct (processOneStart_tally n s pending x) as (s1 & Htal1 & Hcase);
      [apply Hfresh, list_elem_of_here|done|].
    destruct Hcase as [[-> Hr]|[-> Hr]].
    + destruct (IH s1 (pending ++ [x]) Hnd) as (s' & st & dr & -> & ? & Hk & Hp);
        [|done|].
      { intros y Hy. rewrite Hr. by apply Hfresh, list_elem_of_further. }
      exists s', (x :: st), dr. rewrite <- app_assoc. split_and!; [done|done|..].
      * by rewrite Hk, Hr.
      * by rewrite <- Permutation_middle, Hp.
    + destruct (IH s1 pending Hnd) as (s' & st & dr & -> & ? & Hk & Hp);
        [|done|].
      { intros y Hy. rewrite Hr, fmap_app, elem_of_app. simpl.
        rewrite list_elem_of_singleton. intros [Hin| ->]; [|done].
        by apply (Hfresh y); [apply list_elem_of_further|]. }
      exists s', st, (x :: dr). split_and!; [done|done|..].
      * rewrite Hk, Hr, fmap_app. simpl. by rewrite <- app_assoc.
      * simpl. by rewrite Hp.
Qed.

Lemma recordTask_Some (success : bool) opts s (t : BatchTask J) :
  st_task s = Some t →
  recordTask success opts s
  = mkSt (world s) (Some (record success opts t (st_heap s)).1)
      (record success opts t (st_heap s)).2 (results s).
Proof. unfold recordTask. by intros ->. Qed.

Lemma recordTask_None (success : bool) opts s :
  st_task s = None → recordTask success opts s = s.
Proof. unfold recordTask. by intros ->. Qed.

Lemma record_heap_length (success : bool) opts (t : BatchTask J) h :
  length (record success opts t h).2 = length h.
Proof. apply publish_length. Qed.

Lemma tallies_cancel m (t0' t : BatchTask J) :
  tallies m t0' t → tallies m t0' (cancel t).
Proof. done. Qed.

(** The settling of an item that is not yet a key: its entry is added
    and [record] counts it. *)
Lemma processOneSettle_tally n s item :
  item ∉ (results s).*1 → tallied worker t0 n s →
  tallied worker t0 n (processOneSettle worker s item)
  ∧ (results (processOneSettle worker s item)).*1 = (results s).*1 ++ [item].
Proof.
  intros Hfresh (Htask & Hent & Hheap). rewrite processOneSettle_eq.
  set (run := worker item (world s)).
  assert (Hok : isResolved (settled run) = res_ok (resultOf (settled run)))
    by (by destruct (settled run)).
  assert (Hcan : isCancelledEntry (resultOf (settled run)) = false)
    by (by destruct (settled run)).
  set (opts := match settled run with
               | Resolved _ => None
               | Rejected error => Some (mkRecordOpts None None (Some error))
               end).
  set (s1 := setResult _ _ _).
  assert (Hres1 : results s1 = results s ++ [(item, resultOf (settled run))]).
  { subst s1. simpl. by rewrite mapSet_fresh. }
  assert (Hheap1 : st_heap s1 = st_heap s) by done.
  assert (Hent1 : Forall (entryOf worker) (results s1)).
  { rewrite Hres1. apply Forall_app. split; [done|]. constructor; [|done].
    right. by exists (world s). }
  assert (Htask1 : option_Forall2 (tallies (results s)) t0 (st_task s1)).
  { subst s1. simpl. destruct (cancelRequested run); [|done].
    destruct Htask as [ta tb Htal|]; constructor. by apply tallies_cancel. }
  split.
  - unfold tallied. destruct (st_task s1) as [t1|] eqn:Ht1.
    + rewrite (recordTask_Some _ _ _ t1 Ht1).
      cbn [st_task st_heap results]. rewrite record_heap_length, Hheap1.
      split_and!; [|done|done].
      inversion Htask1 as [ta tb Htal|]; subst. constructor.
      rewrite Hres1, Hok. by apply tallies_record.
    + rewrite (recordTask_None _ _ _ Ht1), Ht1.
      split_and!; [|done|by rewrite Hheap1].
      inversion Htask1; subst. constructor.
  - rewrite recordTask_results. by rewrite Hres1, fmap_app.
Qed.

Lemma settles_tally n l : ∀ s,
  NoDup l → (∀ x, x ∈ l → x ∉ (results s).*1) → tallied worker t0 n s →
  tallied worker t0 n (foldl (processOneSettle worker) s l)
  ∧ (results (foldl (processOneSettle worker) s l)).*1 = (results s).*1 ++ l.
Proof.
  induction l as [|x l IH]; intros s Hnd Hfresh Htal; cbn [foldl].
  - by rewrite app_nil_r.
  - apply NoDup_cons in Hnd as [Hx Hnd].
    destruct (processOneSettle_tally n s x) as [Htal1 Hk1];
      [apply Hfresh, list_elem_of_here|done|].
    destruct (IH (processOneSettle worker s x) Hnd) as [Htal2 Hk2]; [|done|].
    { intros y Hy. rewrite Hk1, elem_of_app, list_elem_of_singleton.
      intros [Hin| ->]; [|done].
      by apply (Hfresh y); [apply list_elem_of_further|]. }
    split; [done|]. by rewrite Hk2, Hk1, <- app_assoc.
Qed.

Lemma processChunk_tally n chunk s :
  NoDup chunk → (∀ x, x ∈ chunk → x ∉ (results s).*1) →
  tallied worker t0 n s →
  tallied worker t0 n (processChunk worker schedule options chunk s)
  ∧ (results (processChunk worker schedule options chunk s)).*1
    ≡ₚ (results s).*1 ++ chunk.
Proof.
  intros Hnd Hfresh Htal. unfold processChunk.
  destruct (starts_tally n chunk s [] Hnd Hfresh Htal)
    as (s1 & started & dropped & -> & Htal1 & Hk1 & Hperm).
  cbn [app].
  assert (Hnd' : NoDup (dropped ++ started)) by (by rewrite Hperm).
  apply NoDup_app in Hnd' as (_ & Hdis & Hnds).
  destruct (settles_tally n (schedule started) s1) as [Htal2 Hk2]; [..|done|].
  - by rewrite schedule_perm.
  - intros x Hx. rewrite schedule_perm in Hx.
    rewrite Hk1, elem_of_app. intros [Hin|Hin].
    + apply (Hfresh x); [|done]. rewrite <- Hperm, elem_of_app. by right.
    + by apply (Hdis x).
  - split; [done|].
    by rewrite Hk2, Hk1, schedule_perm, <- app_assoc, Hperm.
Qed.

Lemma loop_tally n items size fuel : ∀ i s,
  (1 ≤ size)%nat → NoDup items → (length items - i < fuel)%nat →
  (results s).*1 ≡ₚ take i items → tallied worker t0 n s →
  ∃ (s' : St J T R W) k,
    loop worker schedule options fuel items size i s = Some s'
    ∧ (results s').*1 ≡ₚ take (i + k * size) items
    ∧ tallied worker t0 n s'.
Proof.
  induction fuel as [|fuel IH]; intros i s Hsize Hnd Hfuel Hkeys Htal; [lia|].
  cbn [loop]. case_decide as Hi.
  - destruct (isCancelled_frame options s) as (Ht & Hh & Hr).
    destruct (isCancelled options s) as [c s1]. simpl in Ht, Hh, Hr.
    assert (Htal1 : tallied worker t0 n s1) by (by apply (tallied_frame n s)).
    destruct c.
    + exists s1, 0%nat. rewrite Nat.add_0_r, Hr. done.
    + set (chunk := JS.slice items i (i + size)).
      assert (Hchunk : chunk = take size (drop i items)).
      { unfold chunk, JS.slice. f_equal. lia. }
      assert (Hsplit : take (i + size) items = take i items ++ chunk)
        by (by rewrite Hchunk, take_take_drop).
      assert (Hnd2 : NoDup (take i items ++ chunk)).
      { rewrite <- Hsplit. apply (sublist_NoDup _ items); [done|].
        apply sublist_take. }
      apply NoDup_app in Hnd2 as (_ & Hdis & Hndc).
      destruct (processChunk_tally n chunk s1 Hndc) as [Htal2 Hk2]; [|done|].
      { intros x Hx. rewrite Hr, Hkeys. intros Hin. by apply (Hdis x). }
      destruct (IH (i + size)%nat (processChunk worker schedule options chunk s1))
        as (s' & k & Hrun & Hk & Htal'); [done|done|lia| |done|].
      { by rewrite Hk2, Hr, Hkeys, Hsplit. }
      exists s', (S k). split_and!; [done| |done].
      by replace (i + S k * size)%nat with (i + size + k * size)%nat by lia.
  - exists s, 0%nat. by rewrite Nat.add_0_r.
Qed.

End Run.

(** X13. Every run of [runBatch] on distinct items returns, whatever
    the workers do, whenever a cancellation is seen and whatever the
    order in which the promises of a chunk settle. The keys of the
    returned map are the items of the chunks that were started: whole
    chunks from the first on. Every entry is the cancelled entry or
    the outcome of a call of the worker on its key. The task agrees
    with the map: [ok] has grown by the number of entries with
    [ok: true], [fail] by the number of entries that failed without
    being cancelled, [processed] by both, and the cancelled entries
    are not counted. [runBatch] never moves the status, the final
    event or the subscribers of the task: finishing is left to the
    caller. *)
Theorem runBatch_tallies (worker : T → W → WorkerRun R W)
    (schedule : list T → list T) (options : Options J W) items w h :
  (∀ pending, schedule pending ≡ₚ pending) →
  NoDup items →
  ∃ (s : St J T R W) k,
    runBatch worker schedule options items w h = Some s
    ∧ (results s).*1 ≡ₚ take (k * effectiveBatchSize options) items
    ∧ Forall (entryOf worker) (results s)
    ∧ option_Forall2 (tallies (results s)) (task options) (st_task s)
    ∧ length (st_heap s) = length h.
Proof.
  intros Hperm Hnd.
  destruct (loop_tally worker schedule options Hperm (task options) (length h)
              items (effectiveBatchSize options) (S (length items)) 0
              (mkSt w (task options) h []))
    as (s & k & Hrun & Hkeys & Htal & Hent & Hheap).
  - apply effectiveBatchSize_pos.
  - done.
  - lia.
  - done.
  - split_and!; [|done..]. simpl. destruct (task options); constructor.
    apply tallies_refl.
  - by exists s, k.
Qed.

(** X14. Without cancellation, on distinct items whose workers settle
    with the outcomes [out], any number of them rejecting:
    [runBatch] returns a map whose keys are the items, each mapped to
    the entry of its own outcome, and the task has counted every
    item, the resolved ones in [ok] and the rejected ones in [fail].
    The size of the chunks and the order in which the promises settle
    change nothing of it. *)
Theorem runBatch_all_settled (worker : T → W → WorkerRun R W)
    (schedule : list T → list T) (options : Options J W) items w h
    (out : T → Settled R) :
  (∀ pending, schedule pending ≡ₚ pending) →
  NoDup items →
  neverCancels options →
  from_option cancelled false (task options) = false →
  (∀ x w, x ∈ items → cancelRequested (worker x w) = false) →
  (∀ x w, x ∈ items → settled (worker x w) = out x) →
  ∃ s : St J T R W,
    runBatch worker schedule options items w h = Some s
    ∧ (results s).*1 ≡ₚ items
    ∧ (∀ x, x ∈ items → mapGet x (results s) = Some (resultOf (out x)))
    ∧ (∀ x, x ∉ items → mapGet x (results s) = None)
    ∧ option_Forall2 (countersAfter out items) (task options) (st_task s).
Proof.
  intros Hperm Hnd Hcalm Htask Hreq Hout.
  destruct (loop_settled worker schedule options Hperm out (task options)
              items Hcalm Hout Hreq (effectiveBatchSize options)
              (S (length items)) 0 (mkSt w (task options) h []))
    as (s & Hrun & Hkeys & Hget & Hcount).
  - apply effectiveBatchSize_pos.
  - done.
  - lia.
  - done.
  - split_and!; [done|by intros x Hx; apply elem_of_nil in Hx|].
    simpl. destruct (task options); constructor.
    unfold countersAfter. simpl. split_and!; (done || lia).
  - exists s. split_and!; [done|done|done| |done].
    intros x Hx. apply mapGet_None. by rewrite Hkeys.
Qed.

End Facts.

Lemma runBatch_tallies_witness :
  (∀ pending : list string, reverse pending ≡ₚ pending)
  ∧ NoDup ["a"; "b"]
  ∧ ∃ (s : St unit string nat nat) k,
      runBatch (T := string) exampleWorker reverse cancelAfterOne
        ["a"; "b"] 0%nat [] = Some s
      ∧ (results s).*1 ≡ₚ take (k * effectiveBatchSize cancelAfterOne) ["a"; "b"]
      ∧ Forall (entryOf exampleWorker) (results s)
      ∧ option_Forall2 (tallies (results s)) (task cancelAfterOne) (st_task s)
      ∧ length (st_heap s) = length (@nil (list (BatchEvent unit))).
Proof.
  assert (Hperm : ∀ pending : list string, reverse pending ≡ₚ pending)
    by apply reverse_Permutation.
  assert (Hnd : NoDup ["a"; "b"]) by compute_done.
  split_and!; [exact Hperm|exact Hnd|].
  exact (runBatch_tallies (T := string) exampleWorker reverse cancelAfterOne
           ["a"; "b"] 0%nat [] Hperm Hnd).
Defined.

Lemma runBatch_all_settled_witness :
  (∀ pending : list string, reverse pending ≡ₚ pending)
  ∧ NoDup ["a"; "b"; "cc"]
  ∧ ∃ s : St unit string nat nat,
      runBatch (T := string) exampleWorker reverse exampleOptions
        ["a"; "b"; "cc"] 0%nat [] = Some s
      ∧ (results s).*1 ≡ₚ ["a"; "b"; "cc"].
Proof.
  assert (Hperm : ∀ pending : list string, reverse pending ≡ₚ pending)
    by apply reverse_Permutation.
  assert (Hnd : NoDup ["a"; "b"; "cc"]) by compute_done.
  split_and!; [exact Hperm|exact Hnd|].
  destruct (runBatch_all_settled (T := string) exampleWorker reverse
              exampleOptions ["a"; "b"; "cc"] 0%nat []
              (λ x, settled (exampleWorker x 0%nat)) Hperm Hnd I eq_refl)
    as (s & Hrun & Hkeys & _).
  - done.
  - done.
  - exists s. split; [exact Hrun|exact Hkeys].
Defined.

End ExecutorRunFacts.

(** * What a run publishes *)
Module BroadcastFacts.
Import Batch Subscribers Accounting TaskFacts SubscriberFacts ExecutorFacts.

Section Facts.
Context {J T R W : Type} `{EqDecision T}.
Implicit Types (s : St J T R W) (t : BatchTask J) (h : Heap J)
  (cs : list (bool * option (RecordOpts J))).







(** ** One run *)
Section Run.
Variable worker : T → W → WorkerRun R W.
Variable schedule : list T → list T.
Variable options : Options J W.
Variable t0 : option (BatchTask J).
Variable h0 : Heap J.










End Run.


End Facts.

End BroadcastFacts.

(** * Properties of the NSFW service *)
Module NsfwFacts.
Import JS Grpc Platform Nsfw GrpcFacts GrpcEdgeFacts.

(** Running a computation: the binds, the handlers and the returns. *)
Ltac run :=
  unfold mbind, M_bind, mret, M_ret, tryCatch, throw, settle in *;
  cbn beta iota in *.

(** A case analysis on the next call of the service. *)
Ltac next_call :=
  match goal with
  | |- context [acceptTos ?token ?w] =>
      destruct (acceptTos token w) as [[?|?] ?] eqn:?
  | |- context [setBirthDate ?token ?w] =>
      destruct (setBirthDate token w) as [[?|?] ?] eqn:?
  | |- context [enableNsfwMode ?token ?w] =>
      destruct (enableNsfwMode token w) as [[?|?] ?] eqn:?
  | |- context [recordTokenFailure ?token ?status ?reason ?w] =>
      destruct (recordTokenFailure token status reason w) as [[[]|?] ?] eqn:?
  | |- context [negb (ok ?st)] => destruct (ok st) eqn:?; cbn [negb]
  end; cbn beta iota.

Lemma fromGetStatus_fields st :
  fromGetStatus st →
  code st ≠ 0 ∧ httpEquiv st ≠ 200
  ∧ (ok st = true → code st = -1 ∧ httpEquiv st = 502).
Proof.
  intros [trs ->].
  destruct (getStatus_fields trs) as [Hok Hhttp].
  pose proof (getStatus_code_nonzero trs) as Hc.
  split_and!; [done| |].
  - rewrite Hhttp. unfold httpEquivOf. by repeat case_decide.
  - rewrite Hok, Hhttp. intros Hm%bool_decide_eq_true. by rewrite Hm.
Qed.

Section Facts.
Context {W Settings : Type} `{Builtins} `{Platform W Settings}.

(** ** The three calls *)

Lemma acceptTos_status token w st w' :
  acceptTos token w = (Returned st, w') → fromGetStatus st.
Proof.
  unfold acceptTos. run.
  destruct (fetch _ w) as [[response|msg] w1]; [|done].
  destruct (resp_ok response); cbn [negb]; [|done].
  destruct (resp_arrayBuffer response) as [body|msg]; [|done].
  unfold parseResponseM. run.
  destruct (default _ _) as [parsed|msg]; [|done].
  intros [= <- _]. by eexists.
Qed.

Lemma setBirthDate_status token w st w' :
  setBirthDate token w = (Returned st, w') → fromGetStatus st.
Proof.
  unfold setBirthDate. run.
  destruct (fetch _ w) as [[response|msg] w1]; [|done].
  destruct (resp_ok response); cbn [negb]; [|done].
  destruct (resp_arrayBuffer response) as [body|msg]; [|done].
  unfold parseResponseM. run.
  destruct (default _ _) as [parsed|msg]; [|done].
  intros [= <- _]. by eexists.
Qed.

Lemma enableNsfwMode_status token w st w' :
  enableNsfwMode token w = (Returned st, w') → fromGetStatus st.
Proof.
  unfold enableNsfwMode. run.
  destruct (fetch _ w) as [[response|msg] w1]; [|done].
  destruct (resp_ok response); cbn [negb]; [|done].
  destruct (resp_arrayBuffer response) as [body|msg]; [|done].
  unfold parseResponseM. run.
  destruct (default _ _) as [parsed|msg]; [|done].
  intros [= <- _]. by eexists.
Qed.

Lemma enableNsfwForToken_returns token w :
  ∃ r w', enableNsfwForToken token w = (Returned r, w').
Proof.
  unfold enableNsfwForToken. run. repeat next_call; by eexists _, _.
Qed.

(** X15. [enableNsfwForToken] never throws: whatever [fetch] and
    [recordTokenFailure] do, it returns a result. The result never
    reports the HTTP status 200. A result with [success: true] carries
    [http_status: 502] and [grpc_status: -1], the answer of
    [getStatus] to a missing status, and no error; a result with
    [success: false] carries an error text. *)
Theorem enableNsfwForToken_result token w :
  ∃ r w', enableNsfwForToken token w = (Returned r, w')
    ∧ http_status r ≠ 200
    ∧ (success r = true →
       http_status r = 502 ∧ grpc_status r = Some (-1) ∧ error r = None)
    ∧ (success r = false → is_Some (error r)).
Proof.
  unfold enableNsfwForToken. run.
  repeat next_call;
    repeat match goal with
    | E : acceptTos _ _ = (Returned _, _) |- _ =>
        apply acceptTos_status, fromGetStatus_fields in E
    | E : setBirthDate _ _ = (Returned _, _) |- _ =>
        apply setBirthDate_status, fromGetStatus_fields in E
    | E : enableNsfwMode _ _ = (Returned _, _) |- _ =>
        apply enableNsfwMode_status, fromGetStatus_fields in E
    end;
    (eexists _, _; split; [reflexivity|];
     cbn [success http_status grpc_status error];
     split_and!; try done; try (by intros; eexists); try tauto).
  intros _.
  match goal with
  | Hst : _ ∧ _ ∧ (ok ?st = true → _), Hok : ok ?st = true
    |- httpEquiv ?st = _ ∧ _ =>
      destruct Hst as (_ & _ & Hst); by destruct (Hst Hok) as [-> ->]
  end.
Qed.

End Facts.

(** ** The calls made *)
Section Traces.
Context {Settings : Type} `{Builtins}.
Variable o : Oracle Settings.

Lemma acceptTos_trace token log :
  ∃ out, @acceptTos _ _ _ (tracing o) token log
         = (out, log ++ [Fetched (tosRequest token)]).
Proof.
  unfold acceptTos. run. cbn [fetch tracing].
  destruct (onFetch o log _) as [response|msg]; [|by eexists].
  destruct (resp_ok response); cbn [negb]; [|by eexists].
  destruct (resp_arrayBuffer response) as [body|msg]; [|by eexists].
  unfold parseResponseM. run. destruct (default _ _); by eexists.
Qed.

Lemma setBirthDate_trace token log :
  ∃ out, @setBirthDate _ _ _ (tracing o) token log
         = (out, log ++ [Fetched (birthRequest token)]).
Proof.
  unfold setBirthDate. run. cbn [fetch tracing].
  destruct (onFetch o log _) as [response|msg]; [|by eexists].
  destruct (resp_ok response); cbn [negb]; [|by eexists].
  destruct (resp_arrayBuffer response) as [body|msg]; [|by eexists].
  unfold parseResponseM. run. destruct (default _ _); by eexists.
Qed.

Lemma enableNsfwMode_trace token log :
  ∃ out, @enableNsfwMode _ _ _ (tracing o) token log
         = (out, log ++ [Fetched (nsfwRequest token)]).
Proof.
  unfold enableNsfwMode. run. cbn [fetch tracing].
  destruct (onFetch o log _) as [response|msg]; [|by eexists].
  destruct (resp_ok response); cbn [negb]; [|by eexists].
  destruct (resp_arrayBuffer response) as [body|msg]; [|by eexists].
  unfold parseResponseM. run. destruct (default _ _); by eexists.
Qed.

(** A case analysis on the next call, in the world that keeps the
    calls. *)
Ltac next_traced Hrec :=
  match goal with
  | |- context [@acceptTos _ _ _ (tracing o) ?token ?log] =>
      destruct (acceptTos_trace token log) as [[?|?] ->]
  | |- context [@setBirthDate _ _ _ (tracing o) ?token ?log] =>
      destruct (setBirthDate_trace token log) as [[?|?] ->]
  | |- context [@enableNsfwMode _ _ _ (tracing o) ?token ?log] =>
      destruct (enableNsfwMode_trace token log) as [[?|?] ->]
  | |- context [@recordTokenFailure _ _ (tracing o) ?token ?status ?reason ?log] =>
      change (@recordTokenFailure _ _ (tracing o) token status reason log)
        with (onRecordFailure o log token status reason,
              log ++ [RecordedFailure token status reason]);
      rewrite (Hrec log token status reason)
  | |- context [negb (ok ?st)] => destruct (ok st) eqn:?; cbn [negb]
  end; cbn beta iota.

(** X16. The calls [enableNsfwForToken] makes, when the token
    repository records what it is told. The three requests are sent
    in the order ToS, birth date, NSFW mode, each at most once, and
    no request follows a step that failed. A result with
    [success: true] was preceded by exactly the three requests and by
    no failure record; a result with [success: false] was preceded by
    the requests up to the failing step and then by exactly one
    [recordTokenFailure], made for this token with the [http_status]
    of the result. *)
Theorem enableNsfwForToken_calls token log :
  recordsFailures o →
  ∃ r calls,
    @enableNsfwForToken _ _ _ (tracing o) token log
    = (Returned r, log ++ calls)
    ∧ (success r = true → calls = Fetched <$> nsfwRequests token)
    ∧ (success r = false →
       ∃ k reason, (1 ≤ k ≤ 3)%nat
         ∧ calls = (Fetched <$> take k (nsfwRequests token))
                   ++ [RecordedFailure token (http_status r) reason]).
Proof.
  intros Hrec. unfold enableNsfwForToken. run.
  repeat next_traced Hrec;
    rewrite <- ?app_assoc; cbn [app];
    (eexists _, _; split; [reflexivity|]; cbn [success http_status];
     split; [try done|try done]).
  all: try (intros _; by exists 1%nat; eexists; split; [lia|]).
  all: try (intros _; by exists 2%nat; eexists; split; [lia|]).
  all: try (intros _; by exists 3%nat; eexists; split; [lia|]).
Qed.

End Traces.

Lemma enableNsfwForToken_calls_witness :
  recordsFailures exampleOracle
  ∧ ∃ r calls,
      @enableNsfwForToken _ _ plainBuiltins (tracing exampleOracle) "tok" []
      = (Returned r, [] ++ calls)
      ∧ (success r = true → calls = Fetched <$> nsfwRequests "tok")
      ∧ (success r = false →
         ∃ k reason, (1 ≤ k ≤ 3)%nat
           ∧ calls = (Fetched <$> take k (nsfwRequests "tok"))
                     ++ [RecordedFailure "tok" (http_status r) reason]).
Proof.
  assert (Hrec : recordsFailures exampleOracle) by done.
  split; [exact Hrec|].
  exact (enableNsfwForToken_calls (H := plainBuiltins) exampleOracle "tok" []
           Hrec).
Defined.

End NsfwFacts.

(** * Properties of the NSFW batch *)
Module NsfwBatchFacts.
Import Batch Accounting Platform Nsfw ExecutorFacts ExecutorRunFacts.

Section Facts.
Context {J W Settings : Type} `{Grpc.Builtins} `{Platform W Settings}.
Variable schedule : list string → list string.
Variable cancelDuring : string → W → bool.
Hypothesis schedule_perm : ∀ pending, schedule pending ≡ₚ pending.

(** ** The worker *)

Lemma nsfwWorker_resolves token w :
  ∃ r, settled (nsfwWorker cancelDuring token w) = Resolved r
       ∧ (enableNsfwForToken token w).1 = Grpc.Returned r.
Proof.
  unfold nsfwWorker.
  destruct (NsfwFacts.enableNsfwForToken_returns token w) as (r & w' & ->).
  by exists r.
Qed.

Lemma entryOf_nsfwWorker (e : string * BatchResult NsfwEnableResult) :
  entryOf (nsfwWorker cancelDuring) e →
  (res_ok e.2 = false ∧ isCancelledEntry e.2 = true
   ∧ valueOf e.2 = mkNsfwEnableResult false 500 None None (Some "cancelled"))
  ∨ (res_ok e.2 = true
     ∧ ∃ w, (enableNsfwForToken e.1 w).1 = Grpc.Returned (valueOf e.2)).
Proof.
  intros [->|[w ->]]; [by left|right].
  destruct (nsfwWorker_resolves e.1 w) as (r & -> & Hr). split; [done|].
  by exists w.
Qed.

(** No entry of a run of the worker is a failure. *)
Lemma countFailed_nsfwWorker (m : list (string * BatchResult NsfwEnableResult)) :
  Forall (entryOf (nsfwWorker cancelDuring)) m → countFailed m = 0.
Proof.
  unfold countFailed. induction 1 as [|e m He _ IH]; [done|].
  rewrite filter_cons.
  destruct (entryOf_nsfwWorker e He) as [(Hok & Hcan & _)|[Hok _]];
    rewrite decide_False; [done|rewrite Hcan; by intros []|done|].
  rewrite Hok. by intros [].
Qed.

(** ** The returned map *)

Lemma mapEntry_insert (mapped : gmap string NsfwEnableResult) entry :
  mapEntry mapped entry = <[entry.1 := valueOf entry.2]> mapped.
Proof.
  unfold mapEntry, valueOf.
  by destruct (res_ok entry.2), (res_data entry.2).
Qed.

Lemma mapped_lookup (l : list (string * BatchResult NsfwEnableResult)) :
  ∀ (mapped : gmap string NsfwEnableResult) token r,
  foldl mapEntry mapped l !! token = Some r →
  mapped !! token = Some r ∨ ∃ e, (token, e) ∈ l ∧ r = valueOf e.
Proof.
  induction l as [|[k e] l IH]; intros mapped token r; cbn [foldl]; [by left|].
  intros Hl. apply IH in Hl as [Hl|(e' & Hin & ->)].
  - rewrite mapEntry_insert in Hl. cbn [fst snd] in Hl.
    destruct (decide (k = token)) as [->|Hne].
    + rewrite lookup_insert_eq in Hl. injection Hl as <-.
      right. exists e. split; [apply list_elem_of_here|done].
    + rewrite lookup_insert_ne in Hl by done. by left.
  - right. exists e'. split; [by apply list_elem_of_further|done].
Qed.

Lemma mapped_dom (l : list (string * BatchResult NsfwEnableResult)) :
  ∀ mapped : gmap string NsfwEnableResult,
  dom (foldl mapEntry mapped l) = dom mapped ∪ list_to_set l.*1.
Proof.
  induction l as [|[k e] l IH]; intros mapped; cbn [foldl].
  - set_solver.
  - rewrite IH, mapEntry_insert, dom_insert_L. set_solver.
Qed.

(** X17. [batchEnableNsfw] on distinct tokens returns; the default
    size of its chunks is 10. The returned map has one entry for each
    token of the chunks that were started, and each entry is the
    result [enableNsfwForToken] gave for that token, or the result
    [{success: false, http_status: 500, error: 'cancelled'}] of a
    token that was cancelled. As [enableNsfwForToken] never throws,
    the task counts every token that was processed as a success:
    [fail] never moves and [ok] grows as [processed] does, whether
    the enablement succeeded or not. *)
Theorem batchEnableNsfw_counts tokens (options : Options J W) w h :
  NoDup tokens →
  ∃ mapped s k,
    batchEnableNsfw schedule cancelDuring tokens options w h = Some (mapped, s)
    ∧ dom mapped
      = list_to_set
          (take (k * Z.to_nat (Z.max 1 (default 10 (batchSize options))))
             tokens)
    ∧ (∀ token r, mapped !! token = Some r →
         r = mkNsfwEnableResult false 500 None None (Some "cancelled")
         ∨ ∃ w', (enableNsfwForToken token w').1 = Grpc.Returned r)
    ∧ option_Forall2
        (λ t0 t, fail t = fail t0
                 ∧ ok t - ok t0 = processed t - processed t0
                 ∧ status t = status t0)
        (task options) (st_task s).
Proof.
  intros Hnd. unfold batchEnableNsfw.
  set (opts := mkOptions (Some (default 10 (batchSize options)))
                 (task options) (shouldCancel options)).
  destruct (loop_tally (nsfwWorker cancelDuring) schedule opts schedule_perm
              (task options) (length h) tokens (effectiveBatchSize opts)
              (S (length tokens)) 0 (mkSt w (task opts) h []))
    as (s & k & Hrun & Hkeys & Htal & Hent & _).
  { apply effectiveBatchSize_pos. }
  { done. }
  { lia. }
  { done. }
  { split_and!; [|done..]. simpl. destruct (task options); constructor.
    apply tallies_refl. }
  unfold runBatch. rewrite Hrun. cbn [mbind option_bind].
  exists (foldl mapEntry ∅ (results s)), s, k. split_and!; [done|..].
  - rewrite mapped_dom, dom_empty_L.
    change (effectiveBatchSize opts)
      with (Z.to_nat (Z.max 1 (default 10 (batchSize options)))) in Hkeys.
    apply set_eq. intros x.
    rewrite elem_of_union, elem_of_empty, !elem_of_list_to_set, Hkeys.
    cbn [Nat.add]. tauto.
  - intros token r Hl.
    apply mapped_lookup in Hl as [Hl|(e & Hin & ->)]; [done|].
    rewrite Forall_forall in Hent.
    destruct (entryOf_nsfwWorker (token, e) (Hent _ Hin))
      as [(_ & _ & Hv)|[_ Hv]]; [by left|by right].
  - pose proof (countFailed_nsfwWorker (results s) Hent) as Hfail.
    destruct Htal as [t0 t Htal|]; constructor.
    destruct Htal as (Hok & Hf & Hp & _ & _ & Hst & _).
    rewrite Hfail in *. split_and!; [lia|lia|done].
Qed.

End Facts.

Lemma batchEnableNsfw_counts_witness :
  (∀ pending : list string, reverse pending ≡ₚ pending)
  ∧ NoDup ["t1"; "t2"]
  ∧ ∃ mapped s k,
      batchEnableNsfw (J := unit) (H := Grpc.plainBuiltins)
        (H0 := tracing exampleOracle) reverse (λ _ _, false)
        ["t1"; "t2"] (mkOptions None (Some exampleTask) None) [] []
      = Some (mapped, s)
      ∧ dom mapped
        = list_to_set
            (take (k * Z.to_nat
                         (Z.max 1 (default 10
                            (batchSize (mkOptions (J := unit) (W := list Call)
                                          None (Some exampleTask) None)))))
               ["t1"; "t2"])
      ∧ (∀ token r, mapped !! token = Some r →
           r = mkNsfwEnableResult false 500 None None (Some "cancelled")
           ∨ ∃ w', (enableNsfwForToken (H := Grpc.plainBuiltins)
                      (H0 := tracing exampleOracle) token w').1
                   = Grpc.Returned r)
      ∧ option_Forall2
          (λ t0 t, fail t = fail t0
                   ∧ ok t - ok t0 = processed t - processed t0
                   ∧ status t = status t0)
          (task (mkOptions (J := unit) (W := list Call)
                   None (Some exampleTask) None))
          (st_task s).
Proof.
  assert (Hperm : ∀ pending : list string, reverse pending ≡ₚ pending)
    by apply reverse_Permutation.
  assert (Hnd : NoDup ["t1"; "t2"]) by compute_done.
  split_and!; [exact Hperm|exact Hnd|].
  exact (batchEnableNsfw_counts (J := unit) (H := Grpc.plainBuiltins)
           (H0 := tracing exampleOracle) reverse (λ _ _, false) Hperm
           ["t1"; "t2"] (mkOptions None (Some exampleTask) None) [] [] Hnd).
Defined.

End NsfwBatchFacts.

(** * Properties of the token refresh *)
Module RefreshFacts.
Import Grpc Platform Refresh.

(** Running a computation: the binds, the handlers and the returns. *)
Ltac run :=
  unfold mbind, M_bind, mret, M_ret, tryCatch, throw, settle in *;
  cbn beta iota in *.

(** A case analysis on the next answer of the outside world. *)
Ltac next_answer Hrec :=
  match goal with
  | |- context [onRateLimitModel ?o ?log ?model] =>
      destruct (onRateLimitModel o log model) as [?|?] eqn:?
  | |- context [onHeaders ?o ?log ?settings ?path] =>
      destruct (onHeaders o log settings path) as [?|?] eqn:?
  | |- context [onFetch ?o ?log ?req] =>
      destruct (onFetch o log req) as [?|?] eqn:?
  | |- context [resp_ok ?resp] => destruct (resp_ok resp) eqn:?; cbn [negb]
  | |- context [resp_json ?resp] =>
      destruct (resp_json resp) as [?|?] eqn:?
  | |- context [onSql ?o ?log ?sql ?params] =>
      destruct (onSql o log sql params) as [[]|?] eqn:?
  | |- context [onPrepared ?o ?log ?sql ?params] =>
      destruct (onPrepared o log sql params) as [?|?] eqn:?
  | |- context [Z.eqb ?changes 0] =>
      is_var changes; destruct (Z.eqb_spec changes 0)
  | |- context [onCooldown ?o ?log ?token ?status] =>
      destruct (onCooldown o log token status) as [[]|?] eqn:?
  | |- context [onRecordFailure ?o ?log ?token ?status ?reason] =>
      rewrite (Hrec log token status reason)
  end; cbn beta iota.

Section Traces.
Context {Settings : Type}.
Variable o : Oracle Settings.

(** X18. The calls of [refreshToken], when the token repository
    records what it is told. It returns a result. A result with
    [success: false] carries the status 500 and an error text, and
    the last call made was the [recordTokenFailure] of the token with
    500. A result with [success: true] means that the rate limits
    were asked for the model of the token type ([grok-4-heavy] for
    [ssoSuper], [grok-3] otherwise) with the cookie of the token, that
    the response was [ok] and its body was JSON, that the limits read
    off it (-1 for a number that is missing) were written to the row
    of the token and are those of the result, and that the cooldown
    429 was applied exactly when the limits are exhausted. *)
Theorem refreshToken_calls token tokenType settings log :
  recordsFailures o →
  ∃ r calls,
    @refreshToken _ _ (tracing o) token tokenType settings log
    = (Returned r, log ++ calls)
    ∧ (success r = false →
       status r = Some 500 ∧ is_Some (error r)
       ∧ remaining_queries r = None ∧ heavy_remaining_queries r = None
       ∧ ∃ reason, last calls = Some (RecordedFailure token 500 reason))
    ∧ (success r = true →
       ∃ rateModel headers resp data,
         onFetch o (log ++ [AskedRateLimitModel (modelOf tokenType);
                            AskedHeaders "/rest/rate-limits"])
           (rateLimitRequest (cookieOf token) rateModel headers)
         = Returned resp
         ∧ resp_ok resp = true ∧ resp_json resp = Returned data
         ∧ calls
           = [AskedRateLimitModel (modelOf tokenType);
              AskedHeaders "/rest/rate-limits";
              Fetched (rateLimitRequest (cookieOf token) rateModel headers);
              ReadClock;
              RanSql UPDATE_TOKENS
                [SqlNumber (remaining (limitsOf data));
                 SqlNumber (heavy_remaining (limitsOf data));
                 SqlText token]]
             ++ (if exhausted tokenType (limitsOf data)
                 then [AppliedCooldown token 429] else [])
         ∧ remaining_queries r = Some (remaining (limitsOf data))
         ∧ heavy_remaining_queries r = Some (heavy_remaining (limitsOf data))
         ∧ error r = None ∧ status r = None).
Proof.
  intros Hrec. unfold refreshToken, checkRateLimits. run.
  cbn [fetch recordTokenFailure applyCooldown dbRun prepareBindRun nowMs
       toRateLimitModel getDynamicHeaders tracing].
  change (match tokenType with ssoSuper => "grok-4-heavy" | sso => "grok-3" end)
    with (modelOf tokenType).
  change ("sso-rw=" +:+ token +:+ ";sso=" +:+ token) with (cookieOf token).
  repeat next_answer Hrec;
    repeat match goal with
    | |- context [mkLimits (default (-1) (?data "remaining")) _] =>
        change (mkLimits (default (-1) (data "remaining"))
                  (default (-1) (data "heavyRemaining")))
          with (limitsOf data)
    end.
  all: try match goal with
    | |- context [(remaining ?l =? 0) || ?c] =>
        change ((remaining l =? 0) || c) with (exhausted tokenType l);
        destruct (exhausted tokenType l) eqn:?; cbn beta iota
    end.
  all: repeat next_answer Hrec.
  all: rewrite <- ?app_assoc; cbn [app].
  all: eexists _, _; (split; [reflexivity|]);
       cbn [success status error remaining_queries heavy_remaining_queries];
       (split; [|]); try done.
  all: try (intros _; split_and!; try done; by eexists).
  all: intros _;
    match goal with
    | Hf : onFetch _ _ (mkRequest _ _ (<[_ := _]> ?headers)
                          (Json [_; (_, ?rateModel)])) = Returned ?resp,
      Hj : resp_json ?resp = Returned ?data,
      Hx : exhausted _ _ = _ |- _ =>
        exists rateModel, headers, resp, data;
        rewrite <- ?app_assoc in Hf; cbn [app] in Hf; rewrite Hx
    end; by split_and!.
Qed.

(** X21. The calls of the [refreshToken] that checks its update,
    when the token repository records what it is told. It returns a
    result. When the rate limits were read and the statement changed
    no row, the result is [{success: false, error: 'Token not found
    in database', status: 404}]: the statement was the last call, no
    failure was recorded for the token and no cooldown was applied,
    even for exhausted limits. Every other result with
    [success: false] carries the status 500 and was recorded as a
    failure of the token; a result with [success: true] means that
    the statement changed a row. *)
Theorem refreshToken_not_found token tokenType settings log :
  recordsFailures o →
  ∃ r calls,
    @RefreshChecked.refreshToken _ _ (tracing o) token tokenType settings log
    = (Returned r, log ++ calls)
    ∧ (success r = false →
       (r = notFound
        ∧ ∃ pre data,
            calls = pre ++ [RanPrepared UPDATE_TOKENS
                             [SqlNumber (remaining (limitsOf data));
                              SqlNumber (heavy_remaining (limitsOf data));
                              SqlText token]]
            ∧ onPrepared o (log ++ pre) UPDATE_TOKENS
                [SqlNumber (remaining (limitsOf data));
                 SqlNumber (heavy_remaining (limitsOf data)); SqlText token]
              = Returned 0
            ∧ Forall (λ c, match c with
                           | RecordedFailure _ _ _ | AppliedCooldown _ _ => False
                           | _ => True
                           end) pre)
       ∨ (status r = Some 500 ∧ is_Some (error r)
          ∧ ∃ reason, last calls = Some (RecordedFailure token 500 reason)))
    ∧ (success r = true →
       ∃ pre data changes,
         changes ≠ 0
         ∧ onPrepared o (log ++ pre) UPDATE_TOKENS
             [SqlNumber (remaining (limitsOf data));
              SqlNumber (heavy_remaining (limitsOf data)); SqlText token]
           = Returned changes
         ∧ calls
           = pre ++ [RanPrepared UPDATE_TOKENS
                       [SqlNumber (remaining (limitsOf data));
                        SqlNumber (heavy_remaining (limitsOf data));
                        SqlText token]]
                 ++ (if exhausted tokenType (limitsOf data)
                     then [AppliedCooldown token 429] else [])
         ∧ remaining_queries r = Some (remaining (limitsOf data))
         ∧ heavy_remaining_queries r = Some (heavy_remaining (limitsOf data))).
Proof.
  intros Hrec. unfold RefreshChecked.refreshToken, checkRateLimits. run.
  cbn [fetch recordTokenFailure applyCooldown dbRun prepareBindRun nowMs
       toRateLimitModel getDynamicHeaders tracing].
  change (match tokenType with ssoSuper => "grok-4-heavy" | sso => "grok-3" end)
    with (modelOf tokenType).
  change ("sso-rw=" +:+ token +:+ ";sso=" +:+ token) with (cookieOf token).
  repeat next_answer Hrec;
    repeat match goal with
    | |- context [mkLimits (default (-1) (?data "remaining")) _] =>
        change (mkLimits (default (-1) (data "remaining"))
                  (default (-1) (data "heavyRemaining")))
          with (limitsOf data)
    end.
  all: try match goal with
    | |- context [(remaining ?l =? 0) || ?c] =>
        change ((remaining l =? 0) || c) with (exhausted tokenType l);
        destruct (exhausted tokenType l) eqn:?; cbn beta iota
    end.
  all: repeat next_answer Hrec.
  all: eexists _, _; (split; [by rewrite <- ?app_assoc; cbn [app]|]);
       cbn [success status error remaining_queries heavy_remaining_queries];
       (split; [|]); try done.
  all: try (intros _; right; split_and!; try done; by eexists).
  all: intros _.
  all: try (left; split; [done|]).
  all: match goal with
       | Hp : onPrepared _ _ _ _ = Returned _ |- _ =>
           rewrite <- ?app_assoc in Hp; cbn [app] in Hp
       end.
  all: match goal with
       | Hp : onPrepared _ (_ ++ ?pre) _ _ = Returned ?changes,
         Hj : resp_json _ = Returned ?data
         |- ∃ _ _ _, _ => exists pre, data, changes
       | Hp : onPrepared _ (_ ++ ?pre) _ _ = Returned ?changes,
         Hj : resp_json _ = Returned ?data
         |- ∃ _ _, _ => exists pre, data
       end.
  all: repeat match goal with
       | Hx : exhausted _ _ = _ |- _ => rewrite Hx
       end.
  all: split_and!; try done; try (subst; done).
  all: repeat constructor.
Qed.

(** X19. [updateRefreshProgress] with no field defined makes no call
    at all, the clock included. Otherwise it reads the clock once and
    runs one statement, whose outcome is its own: the statement has
    as many [?] as parameters are bound to it, one per defined field
    and one for [updated_at], which comes last and holds the time
    read. *)
Theorem updateRefreshProgress_statement (updates : ProgressUpdates) log :
  if decide (definedFields updates = 0)%nat
  then @updateRefreshProgress _ _ (tracing o) updates log = (Returned tt, log)
  else
    ∃ sql params,
      @updateRefreshProgress _ _ (tracing o) updates log
      = (onSql o (log ++ [ReadClock]) sql params,
         (log ++ [ReadClock]) ++ [RanSql sql params])
      ∧ placeholders sql = length params
      ∧ length params = S (definedFields updates)
      ∧ last params = Some (SqlNumber (onClock o log)).
Proof.
  destruct updates as [[r|] [c|] [t|] [s|] [f|]];
    (case_decide as Hn; [try (by vm_compute in Hn)|]);
    try (exfalso; by apply Hn);
    try reflexivity;
    (unfold updateRefreshProgress, pushField; run;
     cbn [fst snd app length Nat.eqb fmap option_fmap option_map
          upd_running upd_current upd_total upd_success upd_failed
          dbRun nowMs tracing];
     eexists _, _; split; [reflexivity|]; split_and!; by vm_compute).
Qed.

End Traces.

Lemma refreshToken_calls_witness :
  recordsFailures exampleOracle
  ∧ ∃ r calls,
      @refreshToken _ _ (tracing exampleOracle) "tok" ssoSuper tt []
      = (Returned r, [] ++ calls)
      ∧ (success r = false →
         status r = Some 500 ∧ is_Some (error r)
         ∧ remaining_queries r = None ∧ heavy_remaining_queries r = None
         ∧ ∃ reason, last calls = Some (RecordedFailure "tok" 500 reason))
      ∧ (success r = true →
         ∃ rateModel headers resp data,
           onFetch exampleOracle
             ([] ++ [AskedRateLimitModel (modelOf ssoSuper);
                     AskedHeaders "/rest/rate-limits"])
             (rateLimitRequest (cookieOf "tok") rateModel headers)
           = Returned resp
           ∧ resp_ok resp = true ∧ resp_json resp = Returned data
           ∧ calls
             = [AskedRateLimitModel (modelOf ssoSuper);
                AskedHeaders "/rest/rate-limits";
                Fetched (rateLimitRequest (cookieOf "tok") rateModel headers);
                ReadClock;
                RanSql UPDATE_TOKENS
                  [SqlNumber (remaining (limitsOf data));
                   SqlNumber (heavy_remaining (limitsOf data));
                   SqlText "tok"]]
               ++ (if exhausted ssoSuper (limitsOf data)
                   then [AppliedCooldown "tok" 429] else [])
           ∧ remaining_queries r = Some (remaining (limitsOf data))
           ∧ heavy_remaining_queries r = Some (heavy_remaining (limitsOf data))
           ∧ error r = None ∧ status r = None).
Proof.
  assert (Hrec : recordsFailures exampleOracle) by done.
  split; [exact Hrec|].
  exact (refreshToken_calls exampleOracle "tok" ssoSuper tt [] Hrec).
Defined.

Lemma refreshToken_not_found_witness :
  recordsFailures exampleOracle
  ∧ ∃ r calls,
      @RefreshChecked.refreshToken _ _ (tracing exampleOracle) "tok" sso tt []
      = (Returned r, [] ++ calls).
Proof.
  assert (Hrec : recordsFailures exampleOracle) by done.
  split; [exact Hrec|].
  destruct (refreshToken_not_found exampleOracle "tok" sso tt [] Hrec)
    as (r & calls & Hrun & _).
  by exists r, calls.
Defined.

End RefreshFacts.
